(** * Music visualizer: frame synthesis and render pipeline

    A shallow embedding of the audio reactive renderer
    ([hooks/useCanvasRenderer.ts]) and of the offline render job
    ([App.tsx], [handleRenderVideo]).

    Conventions of the embedding.
    - A JavaScript [number] is a [num]: a rational, an infinity or [NaN].
      Numbers that come from the user interface (slider values, canvas
      sizes) are rationals [Q]; counts are integers [Z].
    - The numbers of the code are IEEE 754 doubles.  [rnd] gives the
      double nearest to a rational (ties to even, with the subnormal
      range and the overflow to an infinity), and the operations of
      [Double] round their operands and their result with it: a rational
      that is not a double, such as the 3/10 of a slider, stands for the
      double nearest to it, and a double is left as it is.  They are used
      wherever the code compares, floors, rounds or stores the result of
      an inexact operation: the frame count and the time stamps of the
      render job, the percentage it shows, the smoothing filter, the move
      of a particle, the height of a bar.  Sums and products of whole
      numbers below 2^53 are exact in doubles and are written with the
      exact operations.
    - A [Uint8Array] is a [list Z] of bytes; a store into it applies the
      [ToUint8] conversion of the language (truncate, then wrap modulo 256).
    - Angles are kept as their coefficient of pi, so [Math.PI / 4] is [1#4].
    - [Math.random()] reads the next value of an explicit random source and
      an object literal takes the next allocation serial, both threaded
      through a small state monad. *)

From Stdlib Require Import Ascii Decimal DecimalString DecimalPos.
From Stdlib Require Import String.
From Stdlib Require Import ZArith QArith Qround Qabs Qpower List Bool Lia Lqa.
Import ListNotations.

Local Open Scope Z_scope.

(** ** JavaScript numbers *)

Module JsNum.

Inductive num : Type :=
| Fin (q : Q)
| PosInf
| NegInf
| NaN.

Definition Qltb (a b : Q) : bool := negb (Qle_bool b a).

Definition numNeg (a : num) : num :=
  match a with
  | Fin q => Fin (- q)
  | PosInf => NegInf
  | NegInf => PosInf
  | NaN => NaN
  end.

Definition numAdd (a b : num) : num :=
  match a, b with
  | NaN, _ | _, NaN => NaN
  | Fin x, Fin y => Fin (x + y)
  | PosInf, NegInf | NegInf, PosInf => NaN
  | PosInf, _ | _, PosInf => PosInf
  | NegInf, _ | _, NegInf => NegInf
  end.

Definition numSub (a b : num) : num := numAdd a (numNeg b).

(** An infinity scaled by the finite factor [q]. *)
Definition scaleInf (positive : bool) (q : Q) : num :=
  if Qeq_bool q 0 then NaN
  else if Bool.eqb positive (Qltb 0 q) then PosInf else NegInf.

Definition numMul (a b : num) : num :=
  match a, b with
  | NaN, _ | _, NaN => NaN
  | Fin x, Fin y => Fin (x * y)
  | PosInf, Fin y => scaleInf true y
  | NegInf, Fin y => scaleInf false y
  | Fin x, PosInf => scaleInf true x
  | Fin x, NegInf => scaleInf false x
  | PosInf, PosInf | NegInf, NegInf => PosInf
  | PosInf, NegInf | NegInf, PosInf => NegInf
  end.

(** Division; the zero divisors of this program are counts and lengths,
    so a zero divisor is the positive zero. *)
Definition numDiv (a b : num) : num :=
  match a, b with
  | NaN, _ | _, NaN => NaN
  | Fin x, Fin y =>
      if Qeq_bool y 0
      then (if Qeq_bool x 0 then NaN else if Qltb 0 x then PosInf else NegInf)
      else Fin (x / y)
  | Fin _, (PosInf | NegInf) => Fin 0
  | PosInf, Fin y => if Qltb y 0 then NegInf else PosInf
  | NegInf, Fin y => if Qltb y 0 then PosInf else NegInf
  | (PosInf | NegInf), (PosInf | NegInf) => NaN
  end.

(** [a < b]; every comparison with [NaN] is false. *)
Definition numLt (a b : num) : bool :=
  match a, b with
  | NaN, _ | _, NaN => false
  | Fin x, Fin y => Qltb x y
  | NegInf, (Fin _ | PosInf) => true
  | Fin _, PosInf => true
  | _, _ => false
  end.

Definition numGt (a b : num) : bool := numLt b a.

(** [a <= b] *)
Definition numLe (a b : num) : bool :=
  match a, b with
  | NaN, _ | _, NaN => false
  | Fin x, Fin y => Qle_bool x y
  | NegInf, _ => true
  | _, PosInf => true
  | _, _ => false
  end.

Definition isNaN (a : num) : bool :=
  match a with NaN => true | _ => false end.

(** Equality of numbers up to the representation of the rational. *)
Definition numEq (a b : num) : Prop :=
  match a, b with
  | Fin x, Fin y => x == y
  | PosInf, PosInf | NegInf, NegInf | NaN, NaN => True
  | _, _ => False
  end.

Definition ofZ (z : Z) : num := Fin (inject_Z z).

(** [Math.round]: the nearest integer, ties towards plus infinity. *)
Definition numRound (a : num) : num :=
  match a with
  | Fin q => ofZ (Qfloor (q + (1#2)))
  | other => other
  end.

(** [Math.floor] *)
Definition numFloor (a : num) : num :=
  match a with
  | Fin q => ofZ (Qfloor q)
  | other => other
  end.

(** [ToUint8]: drop the fraction (towards zero), wrap modulo 256;
    [NaN] and the infinities are stored as 0. *)
Definition Qtrunc (q : Q) : Z := Z.quot (Qnum q) (Zpos (Qden q)).

Definition toUint8 (a : num) : Z :=
  match a with
  | Fin q => Qtrunc q mod 256
  | _ => 0
  end.

(** [arr[i]] on a typed array used as a number: past the end it reads
    [undefined], which arithmetic turns into [NaN]. *)
Definition readByte (arr : list Z) (i : nat) : num :=
  match nth_error arr i with
  | Some v => ofZ v
  | None => NaN
  end.

(** *** Doubles

    [2 ^ e] *)
Definition pow2 (e : Z) : Q := (2 ^ e)%Q.

(** The integer part of the binary logarithm of a positive rational. *)
Definition ilog2 (q : Q) : Z :=
  let l := Z.log2 (Qnum q) - Z.log2 (Zpos (Qden q)) in
  if Qle_bool (pow2 l) q then l else l - 1.

(** The exponent of the last place of the double nearest to a positive
    rational: 53 significant bits, and no place below that of the
    subnormal numbers, 2 ^ -1074. *)
Definition exponentOf (q : Q) : Z := Z.max (ilog2 q - 52) (-1074).

(** The nearest integer, a tie going to the even one. *)
Definition roundHalfEven (q : Q) : Z :=
  let f := Qfloor q in
  match Qcompare (q - inject_Z f) (1#2) with
  | Lt => f
  | Gt => f + 1
  | Eq => if Z.even f then f else f + 1
  end.

(** A positive rational rounded to 53 significant bits, before the test
    for overflow. *)
Definition magnitude (q : Q) : Q :=
  let e := exponentOf q in
  (inject_Z (roundHalfEven (q / pow2 e)) * pow2 e)%Q.

(** The double nearest to a rational (round to nearest, ties to even); a
    magnitude that rounds to 2 ^ 1024 overflows to an infinity.  The
    result is in lowest terms, so that equal doubles are the same term. *)
Definition rnd (q : Q) : num :=
  match Qcompare q 0 with
  | Eq => Fin 0
  | Gt => let m := magnitude q in
          if Qle_bool (pow2 1024) m then PosInf else Fin (Qred m)
  | Lt => let m := magnitude (- q) in
          if Qle_bool (pow2 1024) m then NegInf else Fin (Qred (- m))
  end.

(** The rational is a double. *)
Definition isDouble (q : Q) : Prop := numEq (rnd q) (Fin q).

(** The double a number stands for. *)
Definition nearest (a : num) : num :=
  match a with
  | Fin q => rnd q
  | other => other
  end.

End JsNum.
Import JsNum.

(** The arithmetic of the code on doubles: the operands and the exact
    result are rounded to the nearest double. *)
Module Double.

Definition add (a b : num) : num := nearest (numAdd (nearest a) (nearest b)).
Definition sub (a b : num) : num := nearest (numSub (nearest a) (nearest b)).
Definition mul (a b : num) : num := nearest (numMul (nearest a) (nearest b)).
Definition div (a b : num) : num := nearest (numDiv (nearest a) (nearest b)).

End Double.

(** ** Feature extractor: [getAudioAverages] *)

Record Averages : Type := mkAverages { bass : num; mids : num; overall : num }.

(** [for (let i = lo; i < lo + iters; i++) acc += audioData[i]] *)
Fixpoint sumLoop (audioData : list Z) (i iters : nat) (acc : num) : num :=
  match iters with
  | O => acc
  | S k => sumLoop audioData (S i) k (numAdd acc (readByte audioData i))
  end.

Definition sumFromTo (audioData : list Z) (lo hi : Z) : num :=
  sumLoop audioData (Z.to_nat lo) (Z.to_nat (hi - lo)) (ofZ 0).

Definition nanToZero (a : num) : num := if isNaN a then ofZ 0 else a.

Definition getAudioAverages (audioData : option (list Z)) : Averages :=
  match audioData with
  | None => mkAverages (ofZ 0) (ofZ 0) (ofZ 0)
  | Some data =>
      if (length data =? 0)%nat then mkAverages (ofZ 0) (ofZ 0) (ofZ 0)
      else
        let len := Z.of_nat (length data) in
        let bassEnd := Qfloor (inject_Z len * (1#10)) in
        let midsEnd := Qfloor (inject_Z len * (4#10)) in
        let bass := numDiv (sumFromTo data 0 bassEnd) (ofZ bassEnd) in
        let mids := numDiv (sumFromTo data bassEnd midsEnd) (ofZ (midsEnd - bassEnd)) in
        let overall := numDiv (sumFromTo data 0 len) (ofZ len) in
        mkAverages (nanToZero bass) (nanToZero mids) (nanToZero overall)
  end.

(** The band means the specification speaks of. *)
Definition sumZ (l : list Z) : Z := fold_right Z.add 0 l.

Definition mean (l : list Z) : Q :=
  match l with
  | [] => 0%Q
  | _ => (inject_Z (sumZ l) / inject_Z (Z.of_nat (length l)))%Q
  end.

(** [S[lo, hi)] *)
Definition band (lo hi : nat) (S : list Z) : list Z := firstn (hi - lo) (skipn lo S).

Definition bassEndOf (N : nat) : nat := Z.to_nat (Qfloor (inject_Z (Z.of_nat N) * (1#10))).
Definition midsEndOf (N : nat) : nat := Z.to_nat (Qfloor (inject_Z (Z.of_nat N) * (4#10))).

Definition isByte (v : Z) : Prop := 0 <= v <= 255.

(** A finite number within the byte range. *)
Definition inByteRange (a : num) : Prop :=
  match a with
  | Fin q => (0 <= q <= 255)%Q
  | _ => False
  end.

(** ** Effects: the random source and object allocation *)

Record World : Type := mkWorld {
  entropy : nat -> Q;   (* the value the k-th call of [Math.random()] returns *)
  drawn : nat;          (* calls of [Math.random()] made so far *)
  nextObject : nat      (* serial of the next object literal *)
}.

Definition M (A : Type) : Type := World -> A * World.

Definition ret {A : Type} (a : A) : M A := fun w => (a, w).

Definition bind {A B : Type} (m : M A) (f : A -> M B) : M B :=
  fun w => let (a, w') := m w in f a w'.

Notation "x <- m ;; k" := (bind m (fun x => k))
  (at level 61, m at next level, right associativity).

Definition mathRandom : M num :=
  fun w => (Fin (entropy w (drawn w)),
            mkWorld (entropy w) (S (drawn w)) (nextObject w)).

(** ** Configuration records *)

Module Dir.
Inductive t : Type := top | bottom | left | right.
Definition eqb (a b : t) : bool :=
  match a, b with
  | top, top | bottom, bottom | left, left | right, right => true
  | _, _ => false
  end.
End Dir.

Module Reflection.
Inductive t : Type := none | two | four | eight.
End Reflection.

Record ParticleConfig : Type := mkParticleConfig {
  enabled : bool;
  count : Z;
  color : string;
  blur : Q;
  direction : Dir.t;
  speed : Q
}.

Record VisualizerConfig : Type := mkVisualizerConfig {
  vcolor : string;      (* [color]; the name is taken by [ParticleConfig] *)
  rotation : Q;
  reflection : Reflection.t;
  sensitivity : Q;
  smoothing : Q;
  barCount : Z;
  barThickness : Q;
  barMaxHeight : Q;
  barDistance : Q
}.

Record TextConfig : Type := mkTextConfig {
  mainText : string;
  mainColor : string;
  mainSize : Q;
  mainFont : string;
  mainBold : bool;
  mainItalic : bool;
  mainLetterSpacing : Q;
  mainYOffset : Q;
  authorText : string;
  authorColor : string;
  authorSize : Q;
  authorFont : string;
  authorBold : bool;
  authorItalic : bool;
  authorLetterSpacing : Q;
  authorYOffset : Q
}.

(** ** Particle simulator *)

Record Particle : Type := mkParticle { x : num; y : num; vx : num; vy : num }.

(** A particle object of the array: its identity (allocation serial) and
    the current values of its fields. *)
Record ParticleObj : Type := mkObj { ident : nat; fields : Particle }.

Definition newObject (p : Particle) : M ParticleObj :=
  fun w => (mkObj (nextObject w) p,
            mkWorld (entropy w) (drawn w) (S (nextObject w))).

(** A canvas dimension (an unsigned integer attribute) as a number. *)
Definition dim (n : nat) : num := ofZ (Z.of_nat n).

(** The object literal of one loop iteration of [initParticles]; the calls
    of [Math.random()] are made in the order of the fields. *)
Definition spawn (config : ParticleConfig) (width height : nat) : M ParticleObj :=
  rx <- mathRandom ;;
  ry <- mathRandom ;;
  rv <- mathRandom ;;
  let px := numMul rx (dim width) in
  let py := numMul ry (dim height) in
  match direction config with
  | Dir.top => newObject (mkParticle px py (ofZ 0) (numAdd (ofZ 1) rv))
  | Dir.bottom => newObject (mkParticle px py (ofZ 0) (numSub (ofZ (-1)) rv))
  | Dir.left => newObject (mkParticle px py (numAdd (ofZ 1) rv) (ofZ 0))
  | Dir.right => newObject (mkParticle px py (numSub (ofZ (-1)) rv) (ofZ 0))
  end.

(** [for (let i = 0; i < config.count; i++) particles.push(p)] *)
Fixpoint spawnLoop (config : ParticleConfig) (width height : nat)
    (iters : nat) (particles : list ParticleObj) : M (list ParticleObj) :=
  match iters with
  | O => ret particles
  | S k =>
      p <- spawn config width height ;;
      spawnLoop config width height k (particles ++ [p])
  end.

(** [particles.length = 0] empties the array whatever it held. *)
Definition initParticles (particles : list ParticleObj) (config : ParticleConfig)
    (width height : nat) : M (list ParticleObj) :=
  spawnLoop config width height (Z.to_nat (count config)) [].

(** [p.x + p.vx * config.speed * speedMultiplier] *)
Definition step (pos vel : num) (config : ParticleConfig) (speedMultiplier : num) : num :=
  Double.add pos (Double.mul (Double.mul vel (Fin (speed config))) speedMultiplier).

(** The body of the loop of [updateParticles] for one particle. *)
Definition updateParticle (config : ParticleConfig) (width height : nat)
    (speedMultiplier : num) (p : Particle) : M Particle :=
  let x1 := step (x p) (vx p) config speedMultiplier in
  let y1 := step (y p) (vy p) config speedMultiplier in
  match direction config with
  | Dir.top =>
      if numGt y1 (numAdd (dim height) (ofZ 5))
      then r <- mathRandom ;; ret (mkParticle (numMul r (dim width)) (ofZ (-5)) (vx p) (vy p))
      else ret (mkParticle x1 y1 (vx p) (vy p))
  | Dir.bottom =>
      if numLt y1 (ofZ (-5))
      then r <- mathRandom ;; ret (mkParticle (numMul r (dim width)) (numAdd (dim height) (ofZ 5)) (vx p) (vy p))
      else ret (mkParticle x1 y1 (vx p) (vy p))
  | Dir.left =>
      if numGt x1 (numAdd (dim width) (ofZ 5))
      then r <- mathRandom ;; ret (mkParticle (ofZ (-5)) (numMul r (dim height)) (vx p) (vy p))
      else ret (mkParticle x1 y1 (vx p) (vy p))
  | Dir.right =>
      if numLt x1 (ofZ (-5))
      then r <- mathRandom ;; ret (mkParticle (numAdd (dim width) (ofZ 5)) (numMul r (dim height)) (vx p) (vy p))
      else ret (mkParticle x1 y1 (vx p) (vy p))
  end.

Fixpoint forEachParticle (f : Particle -> M Particle) (particles : list ParticleObj)
    : M (list ParticleObj) :=
  match particles with
  | [] => ret []
  | o :: rest =>
      p' <- f (fields o) ;;
      rest' <- forEachParticle f rest ;;
      ret (mkObj (ident o) p' :: rest')
  end.

(** [1 + bassIntensity * 0.3] *)
Definition speedMultiplierOf (bassIntensity : num) : num :=
  Double.add (ofZ 1) (Double.mul bassIntensity (Fin (3#10))).

Definition updateParticles (particles : list ParticleObj) (config : ParticleConfig)
    (width height : nat) (bassIntensity : num) : M (list ParticleObj) :=
  let speedMultiplier := speedMultiplierOf bassIntensity in
  forEachParticle (updateParticle config width height speedMultiplier) particles.

(** The caller's [bass / 255]. *)
Definition bassIntensityOf (audioData : option (list Z)) : num :=
  Double.div (bass (getAudioAverages audioData)) (ofZ 255).

(** A run of update ticks, one per frame, each with the bass intensity of
    its frame. *)
Fixpoint runTicks (particles : list ParticleObj) (config : ParticleConfig)
    (width height : nat) (bassIntensities : list num) : M (list ParticleObj) :=
  match bassIntensities with
  | [] => ret particles
  | b :: rest =>
      particles' <- updateParticles particles config width height b ;;
      runTicks particles' config width height rest
  end.

(** *** Vocabulary of the particle properties *)

(** The coordinate and the velocity on the axis of travel, the coordinate
    on the perpendicular axis, and the frame dimension on either axis. *)
Definition travelCoord (d : Dir.t) (p : Particle) : num :=
  match d with Dir.top | Dir.bottom => y p | Dir.left | Dir.right => x p end.

Definition travelVelocity (d : Dir.t) (p : Particle) : num :=
  match d with Dir.top | Dir.bottom => vy p | Dir.left | Dir.right => vx p end.

Definition perpCoord (d : Dir.t) (p : Particle) : num :=
  match d with Dir.top | Dir.bottom => x p | Dir.left | Dir.right => y p end.

Definition travelExtent (d : Dir.t) (width height : nat) : Q :=
  inject_Z (Z.of_nat (match d with Dir.top | Dir.bottom => height | _ => width end)).

Definition perpExtent (d : Dir.t) (width height : nat) : Q :=
  inject_Z (Z.of_nat (match d with Dir.top | Dir.bottom => width | _ => height end)).

(** [position + velocity * speed * (1 + 0.3 * bassIntensity)], the
    position after the move, in the arithmetic of the code. *)
Definition advance (position velocity : num) (speed : Q) (bassIntensity : num) : num :=
  Double.add position
    (Double.mul (Double.mul velocity (Fin speed))
                (Double.add (ofZ 1) (Double.mul (Fin (3#10)) bassIntensity))).

(** The particle after the move of one tick. *)
Definition moved (config : ParticleConfig) (bassIntensity : num) (p : Particle) : Particle :=
  mkParticle (advance (x p) (vx p) (speed config) bassIntensity)
             (advance (y p) (vy p) (speed config) bassIntensity)
             (vx p) (vy p).

(** The coordinate [a] on the axis of travel lies beyond the edge the
    particle travels to, by more than the margin of 5. *)
Definition exitsEdge (d : Dir.t) (width height : nat) (a : num) : bool :=
  match d with
  | Dir.top | Dir.left => numLt (Fin (travelExtent d width height + 5)%Q) a
  | Dir.bottom | Dir.right => numLt a (Fin (- (5))%Q)
  end.

(** The coordinate of the edge opposite to the one the particle travels to. *)
Definition oppositeEdge (d : Dir.t) (width height : nat) : Q :=
  match d with
  | Dir.top | Dir.left => (- (5))%Q
  | Dir.bottom | Dir.right => (travelExtent d width height + 5)%Q
  end.

(** Whether the move of the tick carries the particle across its edge of
    travel. *)
Definition crosses (config : ParticleConfig) (width height : nat)
    (bassIntensity : num) (p : Particle) : bool :=
  exitsEdge (direction config) width height
            (travelCoord (direction config) (moved config bassIntensity p)).

(** The particle put on the edge opposite to its edge of travel, with the
    value [r] of the random source placing it on the other axis; it keeps
    its velocity. *)
Definition respawned (d : Dir.t) (width height : nat) (r : Q) (p : Particle) : Particle :=
  let edge := Fin (oppositeEdge d width height) in
  let other := Fin (r * perpExtent d width height)%Q in
  match d with
  | Dir.top | Dir.bottom => mkParticle other edge (vx p) (vy p)
  | Dir.left | Dir.right => mkParticle edge other (vx p) (vy p)
  end.

(** What a tick makes of the particle [o], the next unused value of the
    random source being the [k]-th: the same object, moved, or put back
    on the opposite edge when the move carries it across. *)
Definition ticked (config : ParticleConfig) (width height : nat) (bassIntensity : num)
    (entropy : nat -> Q) (k : nat) (o : ParticleObj) : ParticleObj :=
  mkObj (ident o)
        (if crosses config width height bassIntensity (fields o)
         then respawned (direction config) width height (entropy k) (fields o)
         else moved config bassIntensity (fields o)).

(** The particles among [particles] that the tick carries across. *)
Definition crossing (config : ParticleConfig) (width height : nat) (bassIntensity : num)
    (particles : list ParticleObj) : list ParticleObj :=
  filter (fun o => crosses config width height bassIntensity (fields o)) particles.

(** The coordinate on the axis of travel is within [-5, dimension + 5]. *)
Definition withinMargin (d : Dir.t) (width height : nat) (p : Particle) : Prop :=
  match travelCoord d p with
  | Fin q => (- (5) <= q <= travelExtent d width height + 5)%Q
  | _ => False
  end.

(** The velocity on the axis of travel points to the edge of travel, at
    between one and two units a tick. *)
Definition aimed (d : Dir.t) (p : Particle) : Prop :=
  match travelVelocity d p with
  | Fin v =>
      match d with
      | Dir.top | Dir.left => (1 <= v <= 2)%Q
      | Dir.bottom | Dir.right => (- (2) <= v <= - (1))%Q
      end
  | _ => False
  end.

(** The invariant of a run: within the margin and aimed at the edge. *)
Definition onCourse (d : Dir.t) (width height : nat) (p : Particle) : Prop :=
  withinMargin d width height p /\ aimed d p.

(** A bass intensity the simulator can be given: finite and not negative. *)
Definition finiteIntensity (a : num) : Prop :=
  match a with Fin b => (0 <= b)%Q | _ => False end.

(** The [j]-th object that an initialisation started in world [w] creates:
    it takes three values of the random source and one allocation serial. *)
Definition spawned (config : ParticleConfig) (width height : nat) (w : World)
    (j : nat) : ParticleObj :=
  fst (spawn config width height
         (mkWorld (entropy w) (drawn w + 3 * j) (nextObject w + j))).

(** *** The effect of [useCanvasRenderer] that owns the particle array

    [useEffect(() => initParticles(...), [count, direction, canvasRef, enabled])]:
    the effect runs on mount and on every render whose dependencies differ
    from those of the render before; [canvasRef] is the same ref object on
    every render. *)
Definition particleDeps (c : ParticleConfig) : Z * Dir.t * bool :=
  (count c, direction c, enabled c).

Definition sameDeps (a b : Z * Dir.t * bool) : bool :=
  let '(c1, d1, e1) := a in
  let '(c2, d2, e2) := b in
  (c1 =? c2) && Dir.eqb d1 d2 && Bool.eqb e1 e2.

Definition particleEffect (previous : option ParticleConfig) (config : ParticleConfig)
    (canvas : option (nat * nat)) (particles : list ParticleObj) : M (list ParticleObj) :=
  let rerun :=
    match previous with
    | None => true
    | Some old => negb (sameDeps (particleDeps old) (particleDeps config))
    end in
  if rerun then
    match canvas with
    | None => ret particles
    | Some (width, height) => initParticles particles config width height
    end
  else ret particles.

(** ** Canvas operations

    A drawing function returns the calls it makes on the 2D context, in
    order.  [hexToRgba (hex, alpha)] is kept as the pair of its arguments. *)

Inductive CanvasOp : Type :=
| Save
| Restore
| Translate (dx dy : Q)
| Rotate (piUnits : Q)
| RadialGradientStyle (r0 : Q) (r1 : num) (stops : list (Q * (string * Q))) (lineWidth : Q)
    (* the radial gradient with its stops, set as fill and stroke style,
       and the line width *)
| BeginPath
| MoveTo (px py : num)
| LineTo (px py : num)
| Stroke
| Font (italic bold : bool) (sizePx : Q) (family : string)
| FillStyle (colour : string)
| TextAlignCenter
| TextBaselineMiddle
| LetterSpacing (px : Q)
| FillText (text : string) (px py : Q).

Record Rect : Type := mkRect { rx : Q; ry : Q; rw : Q; rh : Q }.

Local Open Scope Q_scope.

(** ** Visualizer geometry engine: [drawCircularVisualizer] *)

Definition Qmaxq (a b : Q) : Q := if Qle_bool a b then b else a.
Definition Qminq (a b : Q) : Q := if Qle_bool a b then a else b.

(** The closure [drawBar]: a height below one unit draws nothing. *)
Definition drawBar (radius : Q) (height : num) : list CanvasOp :=
  if numLt height (ofZ 1) then []
  else [BeginPath; MoveTo (Fin radius) (ofZ 0);
        LineTo (numAdd (Fin radius) height) (ofZ 0); Stroke].

(** [ctx.save(); ctx.rotate(angle); drawBar(barHeight); ctx.restore();] *)
Definition barAt (radius : Q) (angle : Q) (barHeight : num) : list CanvasOp :=
  [Save; Rotate angle] ++ drawBar radius barHeight ++ [Restore].

(** [Array.prototype.slice(0, n)] on the spectrum. *)
Definition slice0 (n : Z) (audioData : list Z) : list Z := firstn (Z.to_nat n) audioData.

(** [(dataSlice[i] / 255) * maxBarHeight * config.sensitivity] *)
Definition barHeightOf (dataSlice : list Z) (i : nat) (maxBarHeight : num)
    (config : VisualizerConfig) : num :=
  Double.mul (Double.mul (Double.div (readByte dataSlice i) (ofZ 255)) maxBarHeight)
             (Fin (sensitivity config)).

(** [(i / count) * unit], with [unit] the coefficient of pi of the arc. *)
Definition angleOf (i : nat) (count : Z) (unit : Q) : Q :=
  (inject_Z (Z.of_nat i) / inject_Z count) * unit.

Definition indices (count : Z) : list nat := seq 0 (Z.to_nat count).

(** [(logoRect.w * 0.5 + 20) * config.barMaxHeight] *)
Definition maxBarHeightOf (logoRect : Rect) (config : VisualizerConfig) : num :=
  Double.mul (Double.add (Double.mul (Fin (rw logoRect)) (Fin (1#2))) (ofZ 20))
             (Fin (barMaxHeight config)).

Definition barWidthOf (logoRect : Rect) (config : VisualizerConfig) : Q :=
  Qmaxq 1 (rw logoRect * barThickness config).

Definition radiusOf (logoRect : Rect) (config : VisualizerConfig) : Q :=
  Qminq (rw logoRect) (rh logoRect) / 2 + 15 + rw logoRect * barDistance config.

(** The calls before the bars: move to the centre of the anchor, apply
    the rotation of the whole assembly, set the gradient stroke. *)
Definition prologue (logoRect : Rect) (config : VisualizerConfig) : list CanvasOp :=
  let maxBarHeight := maxBarHeightOf logoRect config in
  let barWidth := barWidthOf logoRect config in
  let centerX := rx logoRect + rw logoRect / 2 in
  let centerY := ry logoRect + rh logoRect / 2 in
  let radius := radiusOf logoRect config in
  [Save; Translate centerX centerY; Rotate (rotation config * (1 / 180));
   RadialGradientStyle radius (numAdd (Fin radius) maxBarHeight)
     [(0, (vcolor config, 7#10)); (1, (vcolor config, 9#10))] barWidth].

Definition drawCircularVisualizer (audioData : list Z) (logoRect : Rect)
    (config : VisualizerConfig) : list CanvasOp :=
  let barCount := Z.max 8 (Z.min 128 (barCount config)) in
  let maxBarHeight := maxBarHeightOf logoRect config in
  let radius := radiusOf logoRect config in
  prologue logoRect config
  ++ match reflection config with
     | Reflection.eight =>
         let count := (barCount / 8)%Z in
         let dataSlice := slice0 count audioData in
         flat_map (fun i =>
           let barHeight := barHeightOf dataSlice i maxBarHeight config in
           let angle := angleOf i count (1 / 4) in
           barAt radius angle barHeight
           ++ barAt radius (- angle) barHeight
           ++ barAt radius (1 / 2 - angle) barHeight
           ++ barAt radius (1 / 2 + angle) barHeight
           ++ barAt radius (1 - angle) barHeight
           ++ barAt radius (1 + angle) barHeight
           ++ barAt radius (3 * 1 / 2 - angle) barHeight
           ++ barAt radius (3 * 1 / 2 + angle) barHeight) (indices count)
     | Reflection.four =>
         let count := (barCount / 4)%Z in
         let dataSlice := slice0 count audioData in
         flat_map (fun i =>
           let barHeight := barHeightOf dataSlice i maxBarHeight config in
           let angle := angleOf i count (1 / 2) in
           barAt radius angle barHeight
           ++ barAt radius (- angle) barHeight
           ++ barAt radius (1 - angle) barHeight
           ++ barAt radius (1 + angle) barHeight) (indices count)
     | Reflection.two =>
         let count := (barCount / 2)%Z in
         let dataSlice := slice0 count audioData in
         flat_map (fun i =>
           let barHeight := barHeightOf dataSlice i maxBarHeight config in
           let angle := angleOf i count 1 in
           barAt radius angle barHeight
           ++ barAt radius (- angle) barHeight) (indices count)
     | Reflection.none =>
         let dataSlice := slice0 barCount audioData in
         flat_map (fun i =>
           let barHeight := barHeightOf dataSlice i maxBarHeight config in
           let angle := angleOf i barCount (1 * 2) in
           barAt radius angle barHeight) (indices barCount)
     end
  ++ [Restore].

(** *** The geometry as the specification words it *)

Definition foldFactor (r : Reflection.t) : Z :=
  match r with
  | Reflection.none => 1%Z
  | Reflection.two => 2%Z
  | Reflection.four => 4%Z
  | Reflection.eight => 8%Z
  end.

(** The reflection table: the angular offsets of one base bar at base
    angle [a], for fold factor [F]. *)
Definition offsetTable (F : Z) (a : Q) : list Q :=
  match F with
  | 1%Z => [a]
  | 2%Z => [a; - a]
  | 4%Z => [a; - a; 1 - a; 1 + a]
  | 8%Z => [a; - a; (1#2) - a; (1#2) + a; 1 - a; 1 + a; (3#2) - a; (3#2) + a]
  | _ => []
  end.

Definition clampedBarCount (config : VisualizerConfig) : Z :=
  Z.max 8 (Z.min 128 (barCount config)).

Definition distinctCount (config : VisualizerConfig) : Z :=
  (clampedBarCount config / foldFactor (reflection config))%Z.

(** [a_i = (i / distinctCount) * (2 pi / F)] *)
Definition baseAngle (config : VisualizerConfig) (i : nat) : Q :=
  (inject_Z (Z.of_nat i) / inject_Z (distinctCount config))
  * (2 / inject_Z (foldFactor (reflection config))).

(** [height_i = (spectrum[i] / 255) * maxBarHeight * sensitivity], with
    [maxBarHeight = (anchorW * 0.5 + 20) * barMaxHeight], in the arithmetic
    of the code. *)
Definition specHeight (audioData : list Z) (logoRect : Rect)
    (config : VisualizerConfig) (i : nat) : num :=
  Double.mul
    (Double.mul (Double.div (readByte audioData i) (ofZ 255))
                (Double.mul (Double.add (Double.mul (Fin (rw logoRect)) (Fin (1#2)))
                                        (ofZ 20))
                            (Fin (barMaxHeight config))))
    (Fin (sensitivity config)).

(** Every bar of the assembly: base index, angular position, height. *)
Definition placements (audioData : list Z) (logoRect : Rect)
    (config : VisualizerConfig) : list (nat * Q * num) :=
  flat_map (fun i =>
    map (fun a => (i, a, specHeight audioData logoRect config i))
        (offsetTable (foldFactor (reflection config)) (baseAngle config i)))
    (indices (distinctCount config)).

(** Two canvas calls are the same call when they agree up to the
    representation of a rotation angle as a fraction. *)
Definition opEq (a b : CanvasOp) : Prop :=
  match a, b with
  | Rotate p, Rotate q => p == q
  | _, _ => a = b
  end.

Definition sameCalls (l1 l2 : list CanvasOp) : Prop := Forall2 opEq l1 l2.

(** A bar of this height is drawn: a height below one unit is skipped. *)
Definition visible (height : num) : bool := negb (numLt height (ofZ 1)).

(** The calls that draw one bar of the table: in a frame of its own,
    turned to the angular position of the bar, a line along the axis from
    the base radius to the base radius plus the height; no line for a
    height below one unit. *)
Definition barCallsAt (radius : Q) (angle : Q) (height : num) : list CanvasOp :=
  if visible height
  then [Save; Rotate angle; BeginPath; MoveTo (Fin radius) (ofZ 0);
        LineTo (numAdd (Fin radius) height) (ofZ 0); Stroke; Restore]
  else [Save; Rotate angle; Restore].

(** The calls that draw the listed bars, in their order. *)
Definition barCalls (radius : Q) (bars : list (nat * Q * num)) : list CanvasOp :=
  flat_map (fun b => barCallsAt radius (snd (fst b)) (snd b)) bars.

(** ** Text layer: [drawText] *)

Definition truthy (s : string) : bool :=
  match s with EmptyString => false | _ => true end.

Definition drawText (width height : nat) (supportsLetterSpacing : bool)
    (config : TextConfig) : list CanvasOp :=
  let centerX := inject_Z (Z.of_nat width) / 2 in
  if truthy (mainText config) then
    let mainFontSize := inject_Z (Z.of_nat height) * (mainSize config / 100) in
    let mainY := inject_Z (Z.of_nat height) / 2 + mainYOffset config in
    [Save; Font (mainItalic config) (mainBold config) mainFontSize (mainFont config);
     FillStyle (mainColor config); TextAlignCenter; TextBaselineMiddle]
    ++ (if supportsLetterSpacing then [LetterSpacing (mainLetterSpacing config)] else [])
    ++ [FillText (mainText config) centerX mainY; Restore]
    ++ (if truthy (authorText config) then
          let authorFontSize := inject_Z (Z.of_nat height) * (authorSize config / 100) in
          let authorY := mainY + mainFontSize / 2 + authorYOffset config + authorFontSize / 2 in
          [Save; Font (authorItalic config) (authorBold config) authorFontSize (authorFont config);
           FillStyle (authorColor config); TextAlignCenter; TextBaselineMiddle]
          ++ (if supportsLetterSpacing then [LetterSpacing (authorLetterSpacing config)] else [])
          ++ [FillText (authorText config) centerX authorY; Restore]
        else [])
  else [].

(** The strings a sequence of canvas calls paints. *)
Definition textsDrawn (ops : list CanvasOp) : list string :=
  flat_map (fun op => match op with FillText t _ _ => [t] | _ => [] end) ops.

Local Close Scope Q_scope.

(** ** Smoothing filter: the inner loop of the render job *)

(** A store into a typed array: converted with [ToUint8], ignored past the end. *)
Fixpoint storeByte (arr : list Z) (j : nat) (v : num) : list Z :=
  match arr, j with
  | [], _ => []
  | _ :: rest, O => toUint8 v :: rest
  | b :: rest, S k => b :: storeByte rest k v
  end.

(** [for (let j = 0; j < frequencyBinCount; j++)
       smoothedDataArray[j] = smoothingFactor * smoothedDataArray[j]
                              + (1 - smoothingFactor) * rawDataArray[j];] *)
Fixpoint smoothLoop (smoothingFactor : Q) (rawDataArray : list Z) (j iters : nat)
    (smoothedDataArray : list Z) : list Z :=
  match iters with
  | O => smoothedDataArray
  | S k =>
      smoothLoop smoothingFactor rawDataArray (S j) k
        (storeByte smoothedDataArray j
           (Double.add (Double.mul (Fin smoothingFactor) (readByte smoothedDataArray j))
                       (Double.mul (Double.sub (ofZ 1) (Fin smoothingFactor))
                                   (readByte rawDataArray j))))
  end.

Definition smooth (smoothingFactor : Q) (frequencyBinCount : nat)
    (smoothedDataArray rawDataArray : list Z) : list Z :=
  smoothLoop smoothingFactor rawDataArray 0 frequencyBinCount smoothedDataArray.

(** The byte the loop stores at index [i]. *)
Definition blendAt (smoothingFactor : Q) (smoothedDataArray rawDataArray : list Z)
    (i : nat) : Z :=
  toUint8 (Double.add (Double.mul (Fin smoothingFactor) (readByte smoothedDataArray i))
                      (Double.mul (Double.sub (ofZ 1) (Fin smoothingFactor))
                                  (readByte rawDataArray i))).

(** The same store on the values of one bin. *)
Definition blend (smoothingFactor : Q) (s r : Z) : Z :=
  toUint8 (Double.add (Double.mul (Fin smoothingFactor) (ofZ s))
                      (Double.mul (Double.sub (ofZ 1) (Fin smoothingFactor)) (ofZ r))).

(** [new Uint8Array(n)]: [n] zero bytes. *)
Definition newUint8Array (n : nat) : list Z := repeat 0 n.

(** The smoothed state after [ticks] frames of the constant raw input [R]. *)
Fixpoint smoothedAfter (smoothingFactor : Q) (R : list Z) (ticks : nat) : list Z :=
  match ticks with
  | O => newUint8Array (length R)
  | S k => smooth smoothingFactor (length R) (smoothedAfter smoothingFactor R k) R
  end.

(** One bin of the smoothed state after [ticks] frames of the constant
    raw value [r]. *)
Fixpoint level (smoothingFactor : Q) (r : Z) (ticks : nat) : Z :=
  match ticks with
  | O => 0
  | S k => blend smoothingFactor (level smoothingFactor r k) r
  end.

(** Convergence of the smoothed state to [R], bin by bin. *)
Definition convergesTo (smoothingFactor : Q) (R : list Z) : Prop :=
  forall eps : Q, (0 < eps)%Q ->
    exists n0 : nat, forall n i, (n0 <= n)%nat -> (i < length R)%nat ->
      (Qabs (inject_Z (nth i (smoothedAfter smoothingFactor R n) 0%Z)
             - inject_Z (nth i R 0%Z)) < eps)%Q.

(** ** Offline render job: [handleRenderVideo] *)

Record Ui : Type := mkUi {
  isPlaying : bool;
  isRendering : bool;
  renderProgress : num;
  renderMessage : string;
  error : option string;
  currentTime : Q
}.

(** What the job does to its collaborators, in order.  A sampled spectrum
    stands for the offline context, source and analyser built for one
    timestamp and rendered; an encoded frame carries what [drawFrame] was
    given, the smoothed spectrum and the particles of the frame.  The waits
    of the job ([setTimeout]) have no effect of their own: what the user
    does meanwhile is what [keepsRendering] reads. *)
Inductive Effect : Type :=
| AudioContextCreated
| AudioDecoded
| MuxerCreated (width height : nat) (frameRate : Z)
| VideoEncoderConfigured (width height : nat) (frameRate : Z)
| AudioEncoderConfigured
| AudioEncoded
| AudioEncoderFlushed
| AudioPaused
| AudioSeeked (time : Q)
| SpectrumSampled (time : num)
| FrameEncoded (timestamp : num) (audioData : list Z) (particles : list ParticleObj)
| VideoEncoderFlushed
| MuxerFinalized
| FileDownloaded (name : string)
| ConsoleLog (text : string)
| ConsoleError (text : string)
| AudioContextClosed.

(** [audioRef.current.duration]: the length of the audio in seconds, or
    [NaN] as long as the element has not read it from the file.  The audio
    of this program is a file the user uploads; a stream without an end,
    whose duration is [+Infinity] and whose render loop only a
    cancellation ends, is left out. *)
Inductive Duration : Type :=
| Seconds (d : Q)
| NotLoaded.

Definition durationOf (d : Duration) : num :=
  match d with
  | Seconds q => Fin q
  | NotLoaded => NaN
  end.

Record RenderEnv : Type := mkEnv {
  canvas : option (nat * nat);       (* [canvasRef.current] with its width and height *)
  audioElement : option Duration;    (* [audioRef.current] with its [duration] *)
  audioFile : bool;
  liveAnalyser : option nat;         (* [analyserRef.current] with its [frequencyBinCount] *)
  decodeFailure : option string;     (* message of the rejection of [decodeAudioData], if it rejects *)
  context2d : bool;                  (* [canvas.getContext('2d')] is not null *)
  spectrumAt : num -> list Z;        (* bytes the offline analyser yields for the window starting at a time *)
  keepsRendering : Z -> bool;        (* [isRenderingRef.current] as read at the top of iteration [i] *)
  particleConfig : ParticleConfig;
  visualizerConfig : VisualizerConfig;
  projectName : string
}.

Record JobState : Type := mkJobState {
  ui : Ui;
  effects : list Effect;
  world : World
}.

Inductive Outcome (A : Type) : Type :=
| Returned (a : A)
| Threw (message : string).
Arguments Returned {A} a.
Arguments Threw {A} message.

Definition Job (A : Type) : Type := JobState -> Outcome A * JobState.

Definition done {A : Type} (a : A) : Job A := fun s => (Returned a, s).

Definition throw {A : Type} (message : string) : Job A := fun s => (Threw message, s).

Definition andThen {A B : Type} (m : Job A) (f : A -> Job B) : Job B :=
  fun s =>
    match m s with
    | (Returned a, s') => f a s'
    | (Threw e, s') => (Threw e, s')
    end.

Notation "x <~ m ;; k" := (andThen m (fun x => k))
  (at level 61, m at next level, right associativity).
Notation "m ;;; k" := (andThen m (fun _ => k))
  (at level 61, right associativity).

Definition emit (e : Effect) : Job unit :=
  fun s => (Returned tt, mkJobState (ui s) (effects s ++ [e]) (world s)).

Definition setUi (f : Ui -> Ui) : Job unit :=
  fun s => (Returned tt, mkJobState (f (ui s)) (effects s) (world s)).

Definition inWorld {A : Type} (m : M A) : Job A :=
  fun s => let (a, w) := m (world s) in
           (Returned a, mkJobState (ui s) (effects s) w).

Definition setIsPlaying (b : bool) (u : Ui) : Ui :=
  mkUi b (isRendering u) (renderProgress u) (renderMessage u) (error u) (currentTime u).
Definition setIsRendering (b : bool) (u : Ui) : Ui :=
  mkUi (isPlaying u) b (renderProgress u) (renderMessage u) (error u) (currentTime u).
Definition setRenderProgress (p : num) (u : Ui) : Ui :=
  mkUi (isPlaying u) (isRendering u) p (renderMessage u) (error u) (currentTime u).
Definition setRenderMessage (m : string) (u : Ui) : Ui :=
  mkUi (isPlaying u) (isRendering u) (renderProgress u) m (error u) (currentTime u).
Definition setError (e : option string) (u : Ui) : Ui :=
  mkUi (isPlaying u) (isRendering u) (renderProgress u) (renderMessage u) e (currentTime u).
Definition setCurrentTime (t : Q) (u : Ui) : Ui :=
  mkUi (isPlaying u) (isRendering u) (renderProgress u) (renderMessage u) (error u) t.

(** [getByteFrequencyData (rawDataArray)]: the analyser's bytes overwrite
    the array from its start, as many as both hold. *)
Definition copyInto (dst src : list Z) : list Z :=
  firstn (length dst) src ++ skipn (length src) dst.

(** [Math.floor(audioDuration * frameRate)] *)
Definition totalFramesOf (frameRate : Z) (audioDuration : num) : num :=
  numFloor (Double.mul audioDuration (ofZ frameRate)).

(** The number of iterations of [for (let i = 0; i <= totalFrames; i++)]:
    one more than a frame count that is not negative, and none when the
    frame count is [NaN], since [0 <= NaN] is false.  The counter [i] is
    exact as long as it is below 2^53, which a frame count reaches for an
    audio of nine million years.  A frame count beyond it, or the
    [+Infinity] that the product gives for a duration beyond the doubles,
    makes a loop that only a cancellation ends and that no number of
    iterations describes; the properties that count frames are stated
    for durations of at most 2^32 seconds. *)
Definition iterations (totalFrames : num) : nat :=
  match totalFrames with
  | Fin t => Z.to_nat (Qfloor t + 1)
  | _ => 0%nat
  end.

(** [Math.round((i / totalFrames) * 100)] *)
Definition progressOf (i : Z) (totalFrames : num) : num :=
  numRound (Double.mul (Double.div (ofZ i) totalFrames) (ofZ 100)).

(** The frame loop, [for (let i = 0; i <= totalFrames; i++)], with
    [iters] iterations left to run from index [i]. *)
Fixpoint frameLoop (frameRate : Z) (totalFrames : num) (env : RenderEnv)
    (width height frequencyBinCount : nat)
    (iters : nat) (i : Z) (rawDataArray smoothedDataArray : list Z)
    (particles : list ParticleObj) : Job unit :=
  match iters with
  | O => done tt
  | S k =>
      if negb (keepsRendering env i) then
        emit (ConsoleLog "Rendering cancelled by user.") ;;;
        throw "Render cancelled"
      else
        let time := Double.div (ofZ i) (ofZ frameRate) in
        emit (SpectrumSampled time) ;;;
        let rawDataArray := copyInto rawDataArray (spectrumAt env time) in
        let smoothedDataArray :=
          smooth (smoothing (visualizerConfig env)) frequencyBinCount
                 smoothedDataArray rawDataArray in
        particles <~ (if enabled (particleConfig env)
                      then inWorld (updateParticles particles (particleConfig env)
                                      width height
                                      (bassIntensityOf (Some smoothedDataArray)))
                      else done particles) ;;
        emit (FrameEncoded (Double.div (Double.mul (ofZ i) (ofZ 1000000)) (ofZ frameRate))
                           smoothedDataArray particles) ;;;
        setUi (setRenderProgress (progressOf i totalFrames)) ;;;
        frameLoop frameRate totalFrames env width height frequencyBinCount
                  k (i + 1) rawDataArray smoothedDataArray particles
  end.

(** [projectName || 'video'] *)
Definition orVideo (name : string) : string :=
  if truthy name then name else "video"%string.

(** The body of the [try] block. *)
Definition renderJob (frameRate : Z) (env : RenderEnv)
    (width height : nat) (audioDuration : num) (frequencyBinCount : nat) : Job unit :=
  let totalFrames := totalFramesOf frameRate audioDuration in
  (match decodeFailure env with
   | Some message => throw message
   | None => emit AudioDecoded
   end) ;;;
  emit (MuxerCreated width height frameRate) ;;;
  emit (VideoEncoderConfigured width height frameRate) ;;;
  emit AudioEncoderConfigured ;;;
  setUi (setRenderMessage "Encoding audio...") ;;;
  emit AudioEncoded ;;;
  emit AudioEncoderFlushed ;;;
  emit AudioPaused ;;;
  emit (AudioSeeked 0) ;;;
  let rawDataArray := newUint8Array frequencyBinCount in
  let smoothedDataArray := newUint8Array frequencyBinCount in
  (if context2d env then done tt else throw "Could not get canvas context") ;;;
  particles <~ (if enabled (particleConfig env)
                then inWorld (initParticles [] (particleConfig env) width height)
                else done []) ;;
  setUi (setRenderMessage "Rendering video frames...") ;;;
  frameLoop frameRate totalFrames env width height frequencyBinCount
            (iterations totalFrames) 0 rawDataArray smoothedDataArray particles ;;;
  setUi (setRenderMessage "Finalizing video...") ;;;
  emit VideoEncoderFlushed ;;;
  setUi (setRenderMessage "Packing MP4 file...") ;;;
  emit MuxerFinalized ;;;
  emit (FileDownloaded ("Success visualizer - " ++ orVideo (projectName env) ++ ".mp4")).

(** [try { ... } catch (err) { ... } finally { ... }] *)
Definition tryCatchFinally (body : Job unit) : JobState -> JobState :=
  fun s =>
    let (outcome, s1) := body s in
    let s2 :=
      match outcome with
      | Returned _ => s1
      | Threw message =>
          mkJobState
            (setError (Some ("Rendering failed: " ++ message
                             ++ ". Check console for details.")%string) (ui s1))
            (effects s1 ++ [ConsoleError ("Rendering failed: " ++ message)%string])
            (world s1)
      end in
    mkJobState
      (setCurrentTime 0 (setRenderMessage "" (setRenderProgress (ofZ 0)
         (setIsRendering false (ui s2)))))
      (effects s2 ++ [AudioContextClosed; AudioSeeked 0])
      (world s2).

(** The handler with the frame rate as a parameter; the code fixes it
    with [const frameRate = 30]. *)
Definition handleRenderVideoAt (frameRate : Z) (env : RenderEnv) (s : JobState) : JobState :=
  match canvas env, audioElement env, audioFile env with
  | Some (width, height), Some audioElementDuration, true =>
      let audioDuration := durationOf audioElementDuration in
      match liveAnalyser env with
      | None =>
          mkJobState (setError (Some "Audio analyser not ready. Please try reloading."%string) (ui s))
                     (effects s) (world s)
      | Some frequencyBinCount =>
          if isRendering (ui s) then s
          else
            let u := setError None (setRenderMessage "Initializing render..."
                       (setRenderProgress (ofZ 0) (setIsRendering true
                          (setIsPlaying false (ui s))))) in
            tryCatchFinally
              (renderJob frameRate env width height audioDuration frequencyBinCount)
              (mkJobState u (effects s ++ [AudioContextCreated]) (world s))
      end
  | _, _, _ =>
      mkJobState (setError (Some "Please upload audio and any images before rendering."%string) (ui s))
                 (effects s) (world s)
  end.

Definition handleRenderVideo : RenderEnv -> JobState -> JobState :=
  handleRenderVideoAt 30.

(** The error banner of [App]: [{error && <div>Error: {error}</div>}]. *)
Definition errorBanner (u : Ui) : option string :=
  match error u with
  | Some e => if truthy e then Some ("Error: " ++ e)%string else None
  | None => None
  end.

(** Projections of the list of effects. *)
Definition sampleTimes (es : list Effect) : list num :=
  flat_map (fun e => match e with SpectrumSampled t => [t] | _ => [] end) es.

Definition frameTimestamps (es : list Effect) : list num :=
  flat_map (fun e => match e with FrameEncoded t _ _ => [t] | _ => [] end) es.

Definition finalizes (es : list Effect) : bool :=
  existsb (fun e => match e with MuxerFinalized => true | _ => false end) es.

Definition downloads (es : list Effect) : bool :=
  existsb (fun e => match e with FileDownloaded _ => true | _ => false end) es.

Definition idle (entropy : nat -> Q) : JobState :=
  mkJobState (mkUi false false (ofZ 0) "" None 0) [] (mkWorld entropy 0 0).

(** The number of iterations of the frame loop that run to their end:
    the loop stops at the first index where the rendering flag reads false. *)
Fixpoint framesDone (env : RenderEnv) (iters : nat) (i : Z) : nat :=
  match iters with
  | O => O
  | S k => if keepsRendering env i then S (framesDone env k (i + 1)) else O
  end.

(** The handler gets past its guards and the job past its set-up: the
    canvas, the audio element, the file and the analyser are there, no job
    is running, the audio decodes and the canvas has a 2D context. *)
Definition starts (env : RenderEnv) (s : JobState) (width height : nat)
    (audioDuration : Q) (frequencyBinCount : nat) : Prop :=
  canvas env = Some (width, height)
  /\ audioElement env = Some (Seconds audioDuration)
  /\ audioFile env = true
  /\ liveAnalyser env = Some frequencyBinCount
  /\ isRendering (ui s) = false
  /\ decodeFailure env = None
  /\ context2d env = true
  /\ effects s = [].

(** The timestamps [0, 1/r, ..., (n - 1)/r], as doubles. *)
Definition timestamps (frameRate : Z) (n : nat) : list num :=
  map (fun i => Double.div (ofZ (Z.of_nat i)) (ofZ frameRate)) (seq 0 n).


(** ** The initial state of [App]

    The configurations [App] starts with, a canvas in the 16:9 format, an
    analyser with [fftSize = 256], and a render environment over them in
    which the user cancels at the top of iteration [cancelAt], if at all. *)

Definition defaultVisualizerConfig : VisualizerConfig :=
  mkVisualizerConfig "#A78BFA" 0 Reflection.four (90#100) (71#100) 100
                     (21#1000) 1 (8#100).

Definition defaultParticleConfig : ParticleConfig :=
  mkParticleConfig true 150 "#FFFFFF" 10 Dir.top (5#10).

Definition defaultTextConfig : TextConfig :=
  mkTextConfig "wonderful music" "#FFFFFF" 5 "Arial" true false 1 150
               "by Sound Fold Studio" "#DDDDDD" (25#10) "Arial" false true 1 10.

Definition appEnv (audioDuration : Q) (decodeFailure : option string)
    (cancelAt : option Z) : RenderEnv :=
  mkEnv (Some (1280%nat, 720%nat)) (Some (Seconds audioDuration)) true (Some 128%nat)
        decodeFailure true
        (fun _ => repeat 128 128)
        (fun i => match cancelAt with Some k => negb (i =? k) | None => true end)
        defaultParticleConfig defaultVisualizerConfig "My Project".

(** A random source for the examples. *)
Definition halves : nat -> Q := fun _ => (1#2)%Q.

(** * Further parts of the program *)

(** ** Further vocabulary of the visualizer geometry *)

Definition isStroke (op : CanvasOp) : bool :=
  match op with Stroke => true | _ => false end.

(** The number of lines a sequence of calls strokes. *)
Definition strokes (ops : list CanvasOp) : nat := length (filter isStroke ops).


(** Two angles, as coefficients of pi, that name the same direction. *)
Definition sameDirection (a b : Q) : Prop :=
  exists k : Z, (a - b == 2 * inject_Z k)%Q.

(** The bars are mirror images of each other about the axis at angle
    [axis]: every bar at angle [a] has a twin of the same base index and
    height at angle [2 axis - a]. *)
Definition mirrorSymmetric (axis : Q) (bars : list (nat * Q * num)) : Prop :=
  forall i a h, In (i, a, h) bars ->
    exists a', In (i, a', h) bars /\ sameDirection a' (2 * axis - a)%Q.

(** ** Further vocabulary of the particle simulator *)



(** ** Further vocabulary of the render job *)

(** The effects of consecutive iterations of the frame loop from index
    [i]: for each frame the sample of the spectrum, then the encoded
    frame with the smoothed spectrum and the particles it was drawn from. *)
Fixpoint frameEffects (frameRate : Z) (i : Z)
    (frames : list (list Z * list ParticleObj)) : list Effect :=
  match frames with
  | [] => []
  | (audioData, particles) :: rest =>
      SpectrumSampled (Double.div (ofZ i) (ofZ frameRate))
      :: FrameEncoded (Double.div (Double.mul (ofZ i) (ofZ 1000000)) (ofZ frameRate))
                      audioData particles
      :: frameEffects frameRate (i + 1) rest
  end.

(** The effects of the job up to the frame loop. *)
Definition setUpEffects (width height : nat) (frameRate : Z) : list Effect :=
  [AudioContextCreated; AudioDecoded; MuxerCreated width height frameRate;
   VideoEncoderConfigured width height frameRate; AudioEncoderConfigured;
   AudioEncoded; AudioEncoderFlushed; AudioPaused; AudioSeeked 0].

(** Neither the creation nor the closing of the audio context. *)
Definition keepsContext (e : Effect) : bool :=
  match e with AudioContextCreated | AudioContextClosed => false | _ => true end.

(** The handler gets past its guards: there are a canvas, an audio
    element, a file and an analyser, and no job is running. *)
Definition pastGuards (env : RenderEnv) (s : JobState) (width height : nat)
    (audioDuration : Q) (frequencyBinCount : nat) : Prop :=
  canvas env = Some (width, height)
  /\ audioElement env = Some (Seconds audioDuration)
  /\ audioFile env = true
  /\ liveAnalyser env = Some frequencyBinCount
  /\ isRendering (ui s) = false.

(** A frame drawn without a particle; true of every other effect. *)
Definition withoutParticles (e : Effect) : Prop :=
  match e with FrameEncoded _ _ particles => particles = [] | _ => True end.

(** The environment of [appEnv] with the particles switched off. *)
Definition quietEnv (audioDuration : Q) : RenderEnv :=
  mkEnv (Some (1280%nat, 720%nat)) (Some (Seconds audioDuration)) true (Some 128%nat)
        None true
        (fun _ => repeat 128 128)
        (fun _ => true)
        (mkParticleConfig false 150 "#FFFFFF" 10 Dir.top (5#10))
        defaultVisualizerConfig "".

(** ** Colours: [hexToRgba] *)

Module Hex.

(** The character class [[A-Fa-f0-9]]. *)
Definition isHexDigit (c : ascii) : bool :=
  let n := Z.of_nat (nat_of_ascii c) in
  ((48 <=? n) && (n <=? 57)) || ((65 <=? n) && (n <=? 70))
  || ((97 <=? n) && (n <=? 102)).

(** The value [parseInt (_, 16)] gives to one digit. *)
Definition digitValue (c : ascii) : Z :=
  let n := Z.of_nat (nat_of_ascii c) in
  if (48 <=? n) && (n <=? 57) then n - 48
  else if (65 <=? n) && (n <=? 70) then n - 55
  else n - 87.

(** [/^#([A-Fa-f0-9]{3}){1,2}$/.test(hex)]: a hash sign, then three or
    six hexadecimal digits, and nothing else. *)
Definition test (hex : string) : bool :=
  match hex with
  | String "#"%char rest =>
      forallb isHexDigit (list_ascii_of_string rest)
      && ((String.length rest =? 3)%nat || (String.length rest =? 6)%nat)
  | _ => false
  end.

(** [parseInt (c.join(''), 16)] on the digits the test lets through:
    the positional value, most significant digit first. *)
Definition parseInt16 (c : list ascii) : Z :=
  fold_left (fun acc d => acc * 16 + digitValue d) c 0.

(** A CSS colour [rgba(r, g, b, alpha)], kept as the four values the
    template puts into the string. *)
Record Rgba : Type := rgba { red : Z; green : Z; blue : Z; alpha : Q }.

End Hex.

Definition hexToRgba (hex : string) (alpha : Q) : Hex.Rgba :=
  if negb (Hex.test hex) then Hex.rgba 255 255 255 alpha
  else
    let c := list_ascii_of_string (substring 1 (String.length hex - 1) hex) in
    let c := match c with
             | [c0; c1; c2] => [c0; c0; c1; c1; c2; c2]
             | _ => c
             end in
    let num := Hex.parseInt16 c in
    let r := Z.land (Z.shiftr num 16) 255 in
    let g := Z.land (Z.shiftr num 8) 255 in
    let b := Z.land num 255 in
    Hex.rgba r g b alpha.

(** A colour written with three or six hexadecimal digits. *)
Definition hexColour (digits : list ascii) : string :=
  String "#"%char (string_of_list_ascii digits).

(** A character of the ASCII range. *)
Definition isAscii (c : ascii) : bool := (nat_of_ascii c <? 128)%nat.

(** [String.prototype.toUpperCase] on one ASCII character. *)
Definition upper (c : ascii) : ascii :=
  let n := nat_of_ascii c in
  if ((97 <=? n) && (n <=? 122))%nat then ascii_of_nat (n - 32) else c.

(** Every small letter of the string made a capital. *)
Definition capitals (s : string) : string :=
  string_of_list_ascii (map upper (list_ascii_of_string s)).

(** [String.prototype.toUpperCase] on a string of ASCII characters.
    Beyond ASCII the method follows the case mappings of Unicode, which
    can turn one character into several (a ligature of two letters f
    becomes the two capitals); such a string is given no upper case
    here. *)
Definition toUpperCase (s : string) : option string :=
  if forallb isAscii (list_ascii_of_string s) then Some (capitals s) else None.
(** ** Time label of the seek bar: [formatTime] *)

(** The decimal digits of a whole number, with a minus sign below zero. *)
Definition decimal (z : Z) : string :=
  NilZero.string_of_int (Z.to_int z).

(** [n] zeros. *)
Definition zeros (n : nat) : string := string_of_list_ascii (repeat "0"%char n).

(** Whether the whole number [v] rounds to the double [x]. *)
Definition roundsTo (v x : Z) : bool :=
  match rnd (inject_Z v) with
  | Fin r => Qeq_bool r (inject_Z x)
  | _ => false
  end.

(** The number of [k] digits which, followed by [n - k] zeros, rounds to
    the double [x] of [n] digits and is the nearest to it (the even one
    of two equally near), if there is one. *)
Definition candidate (x : Z) (n k : nat) : option Z :=
  let p := 10 ^ Z.of_nat (n - k) in
  let lo := x / p in
  let hi := lo + 1 in
  let okLo := roundsTo (lo * p) x in
  let okHi := (hi <? 10 ^ Z.of_nat k) && roundsTo (hi * p) x in
  match okLo, okHi with
  | true, true =>
      let r := x mod p in
      if 2 * r <? p then Some lo
      else if p <? 2 * r then Some hi
      else if Z.even lo then Some lo else Some hi
  | true, false => Some lo
  | false, true => Some hi
  | false, false => None
  end.

Fixpoint shortestFrom (x : Z) (n k fuel : nat) : Z * nat :=
  match fuel with
  | O => (x, O)
  | S fuel' =>
      if (n <=? k)%nat then (x, O)
      else match candidate x n k with
           | Some s => (s, (n - k)%nat)
           | None => shortestFrom x n (S k) fuel'
           end
  end.

(** The shortest digits that stand for the positive whole double [x]: a
    number [s] and a count [e] of zeros after it such that [s * 10 ^ e]
    rounds to [x], with as few digits in [s] as can be (17 always do). *)
Definition shortest (x : Z) : Z * nat :=
  let n := String.length (decimal x) in
  if roundsTo (10 ^ Z.of_nat n) x then (1, n)
  else shortestFrom x n 1 17.

(** [Number.prototype.toString] on a whole double that is not negative.
    Up to 2^53 every whole number is a double and is printed with all its
    digits.  Above, the digits are the shortest that round to it; they
    are followed by zeros up to 21 digits, and written with an exponent
    beyond. *)
Definition wholeToString (x : Z) : string :=
  if x <? 2 ^ 53 then decimal x
  else
    let (s, e) := shortest x in
    let k := String.length (decimal s) in
    let n := (k + e)%nat in
    if (n <=? 21)%nat then (decimal s ++ zeros e)%string
    else
      match decimal s with
      | String d EmptyString => (String d "e+" ++ decimal (Z.of_nat (n - 1)))%string
      | String d rest =>
          (String d ("." ++ rest) ++ "e+" ++ decimal (Z.of_nat (n - 1)))%string
      | EmptyString => EmptyString
      end.

(** [Number.prototype.toString] on a whole double. *)
Definition numberToString (z : Z) : string :=
  if z <? 0 then ("-" ++ wholeToString (- z))%string else wholeToString z.

(** [s.padStart(2, '0')] *)
Definition padStart2 (s : string) : string :=
  match String.length s with
  | O => "00"
  | S O => String "0"%char s
  | _ => s
  end.

Definition isFinite (a : num) : bool :=
  match a with Fin _ => true | _ => false end.

(** [Math.floor] of a finite number, as a whole number. *)
Definition floorOf (a : num) : Z :=
  match a with Fin q => Qfloor q | _ => 0 end.

(** The argument is a double; its floor and the remainder of the floor
    by 60 are exact, the quotient of the floor by 60 is rounded before
    [Math.floor] is taken of it. *)
Definition formatTime (seconds : num) : string :=
  let seconds := nearest seconds in
  if isNaN seconds || negb (isFinite seconds) then "00:00"
  else
    let floorSeconds := floorOf seconds in
    let m := floorOf (Double.div (ofZ floorSeconds) (ofZ 60)) in
    let s := Z.rem floorSeconds 60 in
    (padStart2 (numberToString m) ++ ":" ++ padStart2 (numberToString s))%string.

(** The number a string of decimal digits stands for, leading zeros
    allowed. *)
Definition readDecimal (s : string) : option Z :=
  option_map Z.of_uint (NilZero.uint_of_string s).

(** ** Frame compositor: [drawBackground], [drawParticles], [drawLogo], [drawFrame] *)

(** [LogoConfig]; [x] and [y] are taken by [Particle]. *)
Record LogoConfig : Type := mkLogoConfig {
  size : Q;
  logoX : Q;
  logoY : Q;
  bounce : Q
}.

Record BackgroundConfig : Type := mkBackgroundConfig {
  zoom : Q;
  pulse : Q
}.

(** An [HTMLImageElement], with the two properties the code reads. *)
Record Image : Type := mkImage {
  naturalWidth : nat;
  naturalHeight : nat
}.

(** [RendererProps]; in a module because [isPlaying], [particleConfig]
    and [visualizerConfig] name fields of other records as well. *)
Module Props.
Record t : Type := make {
  audioData : option (list Z);
  logoImage : option Image;
  backgroundImage : option Image;
  isPlaying : bool;
  logoConfig : LogoConfig;
  backgroundConfig : BackgroundConfig;
  visualizerConfig : VisualizerConfig;
  particleConfig : ParticleConfig;
  textConfig : TextConfig
}.
End Props.

(** The calls of a whole frame: those of the visualizer and of the text
    (wrapped in [Ctx]) and the ones only the other layers make. *)
Inductive FrameOp : Type :=
| ClearRect (width height : nat)          (* [clearRect(0, 0, width, height)] *)
| Ctx (op : CanvasOp)
| Scale (sx sy : num)
| DrawImageCropped (image : Image) (sx sy sw sh : num) (width height : nat)
    (* [drawImage(image, sx, sy, sw, sh, 0, 0, width, height)] *)
| LinearGradientFillStyle (width height : nat) (stops : list (Q * string))
    (* the gradient from (0, 0) to (width, height), set as fill style *)
| FillRect (width height : nat)           (* [fillRect(0, 0, width, height)] *)
| ShadowColor (colour : string)
| ShadowBlur (blur : num)
| GlobalAlpha (a : Q)
| Arc (px py : num) (radius startPi endPi : Q)   (* angles as coefficients of pi *)
| Fill
| DrawImage (image : Image) (r : Rect)
| FontBoldSansSerif (sizePx : Q).         (* [`bold ${sizePx}px sans-serif`] *)

(** The source rectangle of the background image. *)
Record Crop : Type := mkCrop { sx : num; sy : num; sw : num; sh : num }.

Local Open Scope Q_scope.

(** The crop of [drawBackground]: the largest centred part of the image
    with the proportions of the canvas. *)
Definition coverCrop (image : Image) (width height : nat) : Crop :=
  let imgRatio := numDiv (ofZ (Z.of_nat (naturalWidth image)))
                         (ofZ (Z.of_nat (naturalHeight image))) in
  let canvasRatio := numDiv (ofZ (Z.of_nat width)) (ofZ (Z.of_nat height)) in
  if numGt imgRatio canvasRatio then
    let sh := ofZ (Z.of_nat (naturalHeight image)) in
    let sw := numMul sh canvasRatio in
    let sx := numDiv (numSub (ofZ (Z.of_nat (naturalWidth image))) sw) (ofZ 2) in
    mkCrop sx (ofZ 0) sw sh
  else
    let sw := ofZ (Z.of_nat (naturalWidth image)) in
    let sh := numDiv sw canvasRatio in
    let sy := numDiv (numSub (ofZ (Z.of_nat (naturalHeight image))) sh) (ofZ 2) in
    mkCrop (ofZ 0) sy sw sh.

Definition drawBackground (width height : nat) (image : option Image)
    (config : BackgroundConfig) (pulse : num) : list FrameOp :=
  [Ctx Save]
  ++ match image with
     | Some image =>
         let crop := coverCrop image width height in
         let scale := numMul (Fin (zoom config)) pulse in
         [Ctx (Translate (inject_Z (Z.of_nat width) / 2) (inject_Z (Z.of_nat height) / 2));
          Scale scale scale;
          Ctx (Translate (- inject_Z (Z.of_nat width) / 2) (- inject_Z (Z.of_nat height) / 2));
          DrawImageCropped image (sx crop) (sy crop) (sw crop) (sh crop) width height]
     | None =>
         [LinearGradientFillStyle width height
            [(0, "#0f0c29"%string); (1#2, "#302b63"%string); (1, "#24243e"%string)];
          FillRect width height]
     end
  ++ [Ctx Restore].

Definition drawParticles (particles : list ParticleObj) (config : ParticleConfig)
    : list FrameOp :=
  [Ctx Save; Ctx (FillStyle (color config)); ShadowColor (color config);
   ShadowBlur (Fin (blur config)); GlobalAlpha (7#10)]
  ++ flat_map (fun p => [Ctx BeginPath; Arc (x (fields p)) (y (fields p)) 2 0 2; Fill])
              particles
  ++ [Ctx Restore].

Definition drawLogo (image : option Image) (rect : Rect) (bass : num) : list FrameOp :=
  [Ctx Save]
  ++ match image with
     | Some image =>
         [ShadowColor "rgba(124, 58, 237, 0.7)";
          ShadowBlur (numMul (ofZ 30) (numDiv bass (ofZ 255)));
          DrawImage image rect]
     | None =>
         [Ctx (FillStyle "rgba(255, 255, 255, 0.7)");
          FontBoldSansSerif (Qminq (rw rect) (rh rect) * (2#10));
          Ctx TextAlignCenter; Ctx TextBaselineMiddle;
          Ctx (FillText "Upload Logo" (rx rect + rw rect / 2) (ry rect + rh rect / 2))]
     end
  ++ [Ctx Restore].

(** [1 + (mids / 255) * 0.05 * backgroundConfig.pulse] *)
Definition bgPulseAmountOf (mids : num) (config : BackgroundConfig) : num :=
  numAdd (ofZ 1) (numMul (numMul (numDiv mids (ofZ 255)) (Fin (5#100))) (Fin (pulse config))).

(** [1 + (bass / 255) * 0.1 * logoConfig.bounce] *)
Definition logoBounceAmountOf (bass : num) (config : LogoConfig) : num :=
  numAdd (ofZ 1) (numMul (numMul (numDiv bass (ofZ 255)) (Fin (1#10))) (Fin (bounce config))).

Definition logoRectOf (width height : nat) (config : LogoConfig) : Rect :=
  let logoBaseSize :=
    Qminq (inject_Z (Z.of_nat width)) (inject_Z (Z.of_nat height)) * (2#10) * size config in
  mkRect (inject_Z (Z.of_nat width) / 2 - logoBaseSize / 2 + logoX config)
         (inject_Z (Z.of_nat height) / 2 - logoBaseSize / 2 + logoY config)
         logoBaseSize logoBaseSize.

Definition drawFrame (width height : nat) (supportsLetterSpacing : bool)
    (props : Props.t) (particles : list ParticleObj) : list FrameOp :=
  let averages := getAudioAverages (Props.audioData props) in
  let bgPulseAmount := bgPulseAmountOf (mids averages) (Props.backgroundConfig props) in
  let logoBounceAmount := logoBounceAmountOf (bass averages) (Props.logoConfig props) in
  let logoRect := logoRectOf width height (Props.logoConfig props) in
  [ClearRect width height]
  ++ drawBackground width height (Props.backgroundImage props)
       (Props.backgroundConfig props) bgPulseAmount
  ++ (if enabled (Props.particleConfig props)
      then drawParticles particles (Props.particleConfig props) else [])
  ++ [Ctx Save;
      Ctx (Translate (rx logoRect + rw logoRect / 2) (ry logoRect + rh logoRect / 2));
      Scale logoBounceAmount logoBounceAmount;
      Ctx (Translate (- (rx logoRect + rw logoRect / 2))
                     (- (ry logoRect + rh logoRect / 2)))]
  ++ match Props.audioData props with
     | Some audioData =>
         map Ctx (drawCircularVisualizer audioData logoRect (Props.visualizerConfig props))
     | None => []
     end
  ++ drawLogo (Props.logoImage props) logoRect (bass averages)
  ++ [Ctx Restore]
  ++ map Ctx (drawText width height supportsLetterSpacing (Props.textConfig props)).

Local Close Scope Q_scope.

(** *** The live tick of [useCanvasRenderer] *)

(** One call of [render]: the particles move when they are enabled, then
    the frame is drawn from the particles of [particlesRef]. *)
Definition render (width height : nat) (supportsLetterSpacing : bool)
    (props : Props.t) (particles : list ParticleObj)
    : M (list ParticleObj * list FrameOp) :=
  particles' <-
    (if enabled (Props.particleConfig props)
     then updateParticles particles (Props.particleConfig props) width height
            (bassIntensityOf (Props.audioData props))
     else ret particles) ;;
  ret (particles', drawFrame width height supportsLetterSpacing props particles').

(** *** Readings of a frame *)

(** The level of the stack of saved states after the calls, from level
    [depth]; [None] when a [restore] finds nothing saved by these calls. *)
Fixpoint stackAfter (ops : list FrameOp) (depth : nat) : option nat :=
  match ops with
  | [] => Some depth
  | Ctx Save :: rest => stackAfter rest (S depth)
  | Ctx Restore :: rest =>
      match depth with
      | O => None
      | S d => stackAfter rest d
      end
  | _ :: rest => stackAfter rest depth
  end.

(** The centres of the discs drawn. *)
Definition discs (ops : list FrameOp) : list (num * num) :=
  flat_map (fun op => match op with Arc px py _ _ _ => [(px, py)] | _ => [] end) ops.




(** A finite number within [lo, hi]. *)
Definition within (lo hi : Q) (a : num) : Prop :=
  match a with Fin q => (lo <= q <= hi)%Q | _ => False end.

(** Calls that leave the stack of saved states as they found it, and
    never restore a state they did not save. *)
Definition balanced (ops : list FrameOp) : Prop :=
  forall depth : nat, stackAfter ops depth = Some depth.

(** The spectrum, when there is one, is made of bytes. *)
Definition byteSpectrum (audioData : option (list Z)) : Prop :=
  match audioData with
  | Some data => Forall isByte data
  | None => True
  end.

(** The initial state of [App]. *)
Definition defaultLogoConfig : LogoConfig := mkLogoConfig 1 0 0 1.

Definition defaultBackgroundConfig : BackgroundConfig := mkBackgroundConfig 1 (1#2).

Definition appProps (audioData : option (list Z)) (logoImage backgroundImage : option Image)
    : Props.t :=
  Props.make audioData logoImage backgroundImage false
             defaultLogoConfig defaultBackgroundConfig
             defaultVisualizerConfig defaultParticleConfig defaultTextConfig.

(** The centre of the disc of a particle. *)
Definition centre (p : ParticleObj) : num * num := (x (fields p), y (fields p)).

(** ** Proof steps of the geometry and of the compositor *)

Ltac same_direction k := exists k; cbn [inject_Z]; field.

Ltac twin_at x' :=
  exists x'; split;
  [ cbn [In]; auto 12
  | first [ same_direction 0 | same_direction 1 | same_direction (-1)
          | same_direction 2 | same_direction (-2) ] ].


(** * Properties *)

(** ** Doubles: rounding to the nearest *)

Local Open Scope Q_scope.

(** ** Powers of two *)

Lemma pow2_pos (e : Z) : 0 < pow2 e.
Proof. unfold pow2. apply Qpower_0_lt. reflexivity. Qed.

Lemma pow2_nonzero (e : Z) : ~ pow2 e == 0.
Proof. pose proof (pow2_pos e). lra. Qed.

Lemma pow2_add (a b : Z) : pow2 (a + b) == pow2 a * pow2 b.
Proof. unfold pow2. apply Qpower_plus. discriminate. Qed.

Lemma pow2_sub (a b : Z) : pow2 (a - b) == pow2 a / pow2 b.
Proof. unfold pow2. apply Qpower_minus. discriminate. Qed.

Lemma pow2_le (a b : Z) : (a <= b)%Z -> pow2 a <= pow2 b.
Proof. intros H. unfold pow2. apply Qpower_le_compat_l; [exact H | discriminate]. Qed.

Lemma pow2_lt (a b : Z) : (a < b)%Z -> pow2 a < pow2 b.
Proof. intros H. unfold pow2. apply Qpower_lt_compat_l; [exact H | reflexivity]. Qed.

Lemma pow2_lt_inv (a b : Z) : pow2 a < pow2 b -> (a < b)%Z.
Proof.
  intros H. destruct (Z_lt_le_dec a b) as [L | L]; [exact L |].
  apply pow2_le in L. lra.
Qed.

Lemma pow2_Z (e : Z) : (0 <= e)%Z -> pow2 e == inject_Z (2 ^ e).
Proof. intros H. unfold pow2. symmetry. apply (Zpower_Qpower 2 e H). Qed.

Lemma pow2_0 : pow2 0 == 1.
Proof. reflexivity. Qed.

Lemma pow2_succ (e : Z) : pow2 (e + 1) == 2 * pow2 e.
Proof. rewrite pow2_add. change (pow2 1) with 2. ring. Qed.

(** ** Rounding to the nearest integer *)

Lemma floor_bounds (q : Q) : inject_Z (Qfloor q) <= q /\ q < inject_Z (Qfloor q) + 1.
Proof.
  split; [apply Qfloor_le |].
  pose proof (Qlt_floor q) as H. rewrite inject_Z_plus in H. exact H.
Qed.

Lemma floor_unique (q : Q) (n : Z) : inject_Z n <= q -> q < inject_Z n + 1 -> Qfloor q = n.
Proof.
  intros L U. destruct (floor_bounds q) as [L' U'].
  assert (A : inject_Z n < inject_Z (Qfloor q) + 1) by lra.
  assert (B : inject_Z (Qfloor q) < inject_Z n + 1) by lra.
  change 1 with (inject_Z 1) in A, B.
  rewrite <- inject_Z_plus in A, B. rewrite <- Zlt_Qlt in A, B. lia.
Qed.

Lemma roundHalfEven_comp (q q' : Q) : q == q' -> roundHalfEven q = roundHalfEven q'.
Proof.
  intros E. unfold roundHalfEven. rewrite (Qfloor_comp _ _ E).
  assert (C : Qcompare (q - inject_Z (Qfloor q')) (1#2) = Qcompare (q' - inject_Z (Qfloor q')) (1#2)).
  { apply Qcompare_comp; [rewrite E; reflexivity | reflexivity]. }
  rewrite C. reflexivity.
Qed.

Lemma roundHalfEven_near (q : Q) :
  inject_Z (roundHalfEven q) - (1#2) <= q /\ q <= inject_Z (roundHalfEven q) + (1#2).
Proof.
  unfold roundHalfEven. destruct (floor_bounds q) as [L U].
  destruct (Qcompare_spec (q - inject_Z (Qfloor q)) (1#2)) as [E | E | E];
    [destruct (Z.even (Qfloor q)) | |]; rewrite ?inject_Z_plus; change (inject_Z 1) with 1; lra.
Qed.

Lemma roundHalfEven_Z (n : Z) : roundHalfEven (inject_Z n) = n.
Proof.
  unfold roundHalfEven. rewrite Qfloor_Z.
  destruct (Qcompare_spec (inject_Z n - inject_Z n) (1#2)) as [E | E | E]; [lra | reflexivity | lra].
Qed.

Lemma roundHalfEven_mono (a b : Q) : a <= b -> (roundHalfEven a <= roundHalfEven b)%Z.
Proof.
  intros H. pose proof (Qfloor_resp_le _ _ H) as F.
  destruct (Z.eq_dec (Qfloor a) (Qfloor b)) as [E | N].
  - unfold roundHalfEven. rewrite E.
    destruct (Qcompare_spec (a - inject_Z (Qfloor b)) (1#2)) as [A | A | A];
      destruct (Qcompare_spec (b - inject_Z (Qfloor b)) (1#2)) as [B | B | B];
      try destruct (Z.even (Qfloor b)); try lia; lra.
  - assert (U : (roundHalfEven a <= Qfloor a + 1)%Z).
    { unfold roundHalfEven. destruct (Qcompare (a - inject_Z (Qfloor a)) (1#2));
        try destruct (Z.even (Qfloor a)); lia. }
    assert (L : (Qfloor b <= roundHalfEven b)%Z).
    { unfold roundHalfEven. destruct (Qcompare (b - inject_Z (Qfloor b)) (1#2));
        try destruct (Z.even (Qfloor b)); lia. }
    lia.
Qed.

Lemma roundHalfEven_nonneg (q : Q) : 0 <= q -> (0 <= roundHalfEven q)%Z.
Proof.
  intros H. rewrite <- (roundHalfEven_Z 0). apply roundHalfEven_mono. exact H.
Qed.

(** ** The binary logarithm *)

Lemma Qdiv_lt_cross (a b c d : Q) : 0 < b -> 0 < d -> a * d < c * b -> a / b < c / d.
Proof.
  intros B D H. apply Qlt_shift_div_l; [exact D |].
  setoid_replace (a / b * d) with (a * d / b) by (field; lra).
  apply Qlt_shift_div_r; [exact B | exact H].
Qed.

Lemma ilog2_rough (q : Q) : 0 < q ->
  let l := (Z.log2 (Qnum q) - Z.log2 (Zpos (Qden q)))%Z in
  pow2 (l - 1) < q /\ q < pow2 (l + 1).
Proof.
  intros H l. destruct q as [n d]. cbn [Qnum Qden] in l.
  assert (N : (0 < n)%Z) by (unfold Qlt in H; cbn in H; lia).
  destruct (Z.log2_spec n N) as [Pl Pu].
  destruct (Z.log2_spec (Zpos d) (eq_refl)) as [Dl Du].
  pose proof (Z.log2_nonneg n) as Ln. pose proof (Z.log2_nonneg (Zpos d)) as Ld.
  set (ln := Z.log2 n) in *. set (ld := Z.log2 (Zpos d)) in *.
  assert (Q0 : n # d == inject_Z n / inject_Z (Zpos d)) by apply Qmake_Qdiv.
  assert (Dp : 0 < inject_Z (Zpos d)) by (change 0 with (inject_Z 0); rewrite <- Zlt_Qlt; lia).
  assert (Np : 0 < inject_Z n) by (change 0 with (inject_Z 0); rewrite <- Zlt_Qlt; lia).
  rewrite Zle_Qle, <- pow2_Z in Pl, Dl by lia.
  rewrite Zlt_Qlt, <- pow2_Z in Pu, Du by lia.
  replace (Z.succ ln) with (ln + 1)%Z in Pu by lia.
  replace (Z.succ ld) with (ld + 1)%Z in Du by lia.
  pose proof (pow2_pos ln) as A. pose proof (pow2_pos ld) as B.
  rewrite pow2_succ in Pu, Du.
  split; rewrite Q0.
  - replace (l - 1)%Z with (ln - (ld + 1))%Z by (unfold l; lia).
    rewrite pow2_sub, pow2_succ.
    apply Qdiv_lt_cross; [lra | exact Dp |].
    apply Qlt_le_trans with (pow2 ln * (2 * pow2 ld)).
    + apply Qmult_lt_l; [exact A | exact Du].
    + apply Qmult_le_compat_r; [exact Pl | lra].
  - replace (l + 1)%Z with ((ln + 1) - ld)%Z by (unfold l; lia).
    rewrite pow2_sub, pow2_succ.
    apply Qdiv_lt_cross; [exact Dp | exact B |].
    apply Qlt_le_trans with (2 * pow2 ln * pow2 ld).
    + apply Qmult_lt_r; [exact B | exact Pu].
    + apply Qmult_le_l; [lra | exact Dl].
Qed.

Lemma ilog2_spec (q : Q) : 0 < q -> pow2 (ilog2 q) <= q /\ q < pow2 (ilog2 q + 1).
Proof.
  intros H. destruct (ilog2_rough q H) as [L U]. unfold ilog2.
  set (l := (Z.log2 (Qnum q) - Z.log2 (Zpos (Qden q)))%Z) in *.
  destruct (Qle_bool (pow2 l) q) eqn:T.
  - apply Qle_bool_iff in T. split; [exact T | exact U].
  - assert (T' : q < pow2 l).
    { apply Qnot_le_lt. intros C. apply Qle_bool_iff in C. congruence. }
    replace (l - 1 + 1)%Z with l by lia. split; [lra | exact T'].
Qed.

Lemma ilog2_unique (q : Q) (l : Z) : pow2 l <= q -> q < pow2 (l + 1) -> ilog2 q = l.
Proof.
  intros L U. assert (H : 0 < q) by (pose proof (pow2_pos l); lra).
  destruct (ilog2_spec q H) as [L' U'].
  assert (A : (l < ilog2 q + 1)%Z) by (apply pow2_lt_inv; lra).
  assert (B : (ilog2 q < l + 1)%Z) by (apply pow2_lt_inv; lra).
  lia.
Qed.

Lemma ilog2_comp (q q' : Q) : 0 < q -> q == q' -> ilog2 q = ilog2 q'.
Proof.
  intros H E. assert (H' : 0 < q') by lra.
  destruct (ilog2_spec q' H') as [L U]. apply ilog2_unique; lra.
Qed.

Lemma ilog2_mono (a b : Q) : 0 < a -> a <= b -> (ilog2 a <= ilog2 b)%Z.
Proof.
  intros H L. assert (H' : 0 < b) by lra.
  destruct (ilog2_spec a H) as [La Ua]. destruct (ilog2_spec b H') as [Lb Ub].
  assert (A : (ilog2 a < ilog2 b + 1)%Z) by (apply pow2_lt_inv; lra). lia.
Qed.

(** ** The last place *)

Lemma exponentOf_comp (q q' : Q) : 0 < q -> q == q' -> exponentOf q = exponentOf q'.
Proof. intros H E. unfold exponentOf. rewrite (ilog2_comp q q' H E). reflexivity. Qed.

Lemma exponentOf_mono (a b : Q) : 0 < a -> a <= b -> (exponentOf a <= exponentOf b)%Z.
Proof. intros H L. unfold exponentOf. pose proof (ilog2_mono a b H L). lia. Qed.

Lemma exponentOf_min (q : Q) : (-1074 <= exponentOf q)%Z.
Proof. unfold exponentOf. lia. Qed.

Lemma exponentOf_upper (q : Q) : 0 < q -> q < pow2 (exponentOf q + 53).
Proof.
  intros H. destruct (ilog2_spec q H) as [_ U].
  apply Qlt_le_trans with (1 := U). apply pow2_le. unfold exponentOf. lia.
Qed.

Lemma exponentOf_lower (q : Q) : 0 < q -> (-1074 < exponentOf q)%Z -> pow2 (exponentOf q + 52) <= q.
Proof.
  intros H N. destruct (ilog2_spec q H) as [L _].
  apply Qle_trans with (2 := L). apply pow2_le. unfold exponentOf in *. lia.
Qed.

(** ** Rounding a positive rational *)

Lemma scaled_upper (q : Q) : 0 < q -> q / pow2 (exponentOf q) < inject_Z (2 ^ 53).
Proof.
  intros H. apply Qlt_shift_div_r; [apply pow2_pos |].
  rewrite <- pow2_Z by lia. rewrite <- pow2_add. rewrite Z.add_comm. apply exponentOf_upper. exact H.
Qed.

Lemma scaled_lower (q : Q) : 0 < q -> (-1074 < exponentOf q)%Z ->
  inject_Z (2 ^ 52) <= q / pow2 (exponentOf q).
Proof.
  intros H N. apply Qle_shift_div_l; [apply pow2_pos |].
  rewrite <- pow2_Z by lia. rewrite <- pow2_add. rewrite Z.add_comm. apply exponentOf_lower; assumption.
Qed.

Lemma magnitude_comp (q q' : Q) : 0 < q -> q == q' -> magnitude q == magnitude q'.
Proof.
  intros H E. unfold magnitude. rewrite (exponentOf_comp q q' H E).
  rewrite (roundHalfEven_comp (q / pow2 (exponentOf q')) (q' / pow2 (exponentOf q'))).
  - reflexivity.
  - rewrite E. reflexivity.
Qed.

Lemma magnitude_nonneg (q : Q) : 0 < q -> 0 <= magnitude q.
Proof.
  intros H. unfold magnitude. apply Qmult_le_0_compat.
  - change 0 with (inject_Z 0). rewrite <- Zle_Qle. apply roundHalfEven_nonneg.
    apply Qle_shift_div_l; [apply pow2_pos | lra].
  - apply Qlt_le_weak, pow2_pos.
Qed.

Lemma magnitude_upper (q : Q) : 0 < q -> magnitude q <= pow2 (exponentOf q + 53).
Proof.
  intros H. unfold magnitude. rewrite pow2_add, (Qmult_comm (pow2 (exponentOf q))).
  apply Qmult_le_compat_r; [| apply Qlt_le_weak, pow2_pos].
  rewrite (pow2_Z 53) by lia. rewrite <- Zle_Qle.
  rewrite <- (roundHalfEven_Z (2 ^ 53)). apply roundHalfEven_mono.
  apply Qlt_le_weak, scaled_upper, H.
Qed.

Lemma magnitude_lower (q : Q) : 0 < q -> (-1074 < exponentOf q)%Z ->
  pow2 (exponentOf q + 52) <= magnitude q.
Proof.
  intros H N. unfold magnitude. rewrite pow2_add, (Qmult_comm (pow2 (exponentOf q))).
  apply Qmult_le_compat_r; [| apply Qlt_le_weak, pow2_pos].
  rewrite (pow2_Z 52) by lia. rewrite <- Zle_Qle.
  rewrite <- (roundHalfEven_Z (2 ^ 52)). apply roundHalfEven_mono.
  apply scaled_lower; assumption.
Qed.

Lemma magnitude_mono (a b : Q) : 0 < a -> a <= b -> magnitude a <= magnitude b.
Proof.
  intros H L. assert (H' : 0 < b) by lra.
  pose proof (exponentOf_mono a b H L) as E.
  destruct (Z.eq_dec (exponentOf a) (exponentOf b)) as [Q0 | N].
  - unfold magnitude. rewrite Q0.
    apply Qmult_le_compat_r; [| apply Qlt_le_weak, pow2_pos].
    rewrite <- Zle_Qle. apply roundHalfEven_mono.
    apply Qmult_le_compat_r; [exact L |]. apply Qlt_le_weak, Qinv_lt_0_compat, pow2_pos.
  - apply Qle_trans with (pow2 (exponentOf a + 53)); [apply magnitude_upper, H |].
    apply Qle_trans with (pow2 (exponentOf b + 52)); [apply pow2_le; lia |].
    apply magnitude_lower; [exact H' |]. pose proof (exponentOf_min a). lia.
Qed.

Lemma magnitude_near (q : Q) : 0 < q ->
  magnitude q - pow2 (exponentOf q) / 2 <= q /\ q <= magnitude q + pow2 (exponentOf q) / 2.
Proof.
  intros H. unfold magnitude. set (e := exponentOf q).
  destruct (roundHalfEven_near (q / pow2 e)) as [L U].
  pose proof (pow2_pos e) as P.
  assert (E : q == q / pow2 e * pow2 e) by (field; lra).
  set (x := q / pow2 e) in *. set (r := inject_Z (roundHalfEven x)) in *.
  split.
  - rewrite E. setoid_replace (r * pow2 e - pow2 e / 2) with ((r - (1#2)) * pow2 e) by (field).
    apply Qmult_le_compat_r; lra.
  - rewrite E at 1. setoid_replace (r * pow2 e + pow2 e / 2) with ((r + (1#2)) * pow2 e) by (field).
    apply Qmult_le_compat_r; lra.
Qed.

(** A rational with a 53-bit numerator over a power of two no finer than
    the subnormal numbers is a double, and rounds to itself. *)
Lemma magnitude_exact (q : Q) (m e : Z) :
  0 < q -> q == inject_Z m * pow2 e -> (m < 2 ^ 53)%Z -> (-1074 <= e)%Z -> magnitude q == q.
Proof.
  intros H E M N.
  assert (Le : (exponentOf q <= e)%Z).
  { destruct (Z_le_gt_dec (exponentOf q) e) as [L | G]; [exact L | exfalso].
    assert (G' : (-1074 < exponentOf q)%Z) by lia.
    pose proof (exponentOf_lower q H G') as L.
    assert (U : q < pow2 (e + 53)).
    { rewrite E, pow2_add, Qmult_comm, (pow2_Z 53) by lia.
      apply Qmult_lt_l; [apply pow2_pos |]. rewrite <- Zlt_Qlt. exact M. }
    assert (C : (exponentOf q + 52 < e + 53)%Z) by (apply pow2_lt_inv; lra). lia. }
  unfold magnitude. set (x := exponentOf q) in *.
  assert (S : q / pow2 x == inject_Z (m * 2 ^ (e - x))).
  { rewrite inject_Z_mult, <- pow2_Z, pow2_sub, E by lia. field. apply pow2_nonzero. }
  rewrite (roundHalfEven_comp _ _ S), roundHalfEven_Z, <- S. field. apply pow2_nonzero.
Qed.

(** ** Rounding a rational *)

Lemma Qle_bool_false (a b : Q) : Qle_bool a b = false <-> b < a.
Proof.
  split.
  - intros H. apply Qnot_le_lt. intros C. apply Qle_bool_iff in C. congruence.
  - intros H. destruct (Qle_bool a b) eqn:E; [| reflexivity].
    apply Qle_bool_iff in E. lra.
Qed.

Lemma Qred_eq (a b : Q) : a == b -> Qred a = Qred b.
Proof. apply Qred_complete. Qed.

Lemma Qle_bool_comp (a a' b b' : Q) : a == a' -> b == b' -> Qle_bool a b = Qle_bool a' b'.
Proof.
  intros Ha Hb. destruct (Qle_bool a b) eqn:E1; destruct (Qle_bool a' b') eqn:E2;
    try reflexivity.
  - apply Qle_bool_iff in E1. apply Qle_bool_false in E2. lra.
  - apply Qle_bool_false in E1. apply Qle_bool_iff in E2. lra.
Qed.

Lemma rnd_pos (q : Q) : 0 < q ->
  rnd q = if Qle_bool (pow2 1024) (magnitude q) then PosInf else Fin (Qred (magnitude q)).
Proof.
  intros H. unfold rnd. destruct (Qcompare_spec q 0) as [E | E | E]; [lra | lra | reflexivity].
Qed.

Lemma rnd_neg (q : Q) : q < 0 ->
  rnd q = if Qle_bool (pow2 1024) (magnitude (- q)) then NegInf
          else Fin (Qred (- magnitude (- q))).
Proof.
  intros H. unfold rnd. destruct (Qcompare_spec q 0) as [E | E | E]; [lra | reflexivity | lra].
Qed.

Lemma rnd_zero (q : Q) : q == 0 -> rnd q = Fin 0.
Proof.
  intros H. unfold rnd. destruct (Qcompare_spec q 0) as [E | E | E]; [reflexivity | lra | lra].
Qed.

Lemma rnd_comp (q q' : Q) : q == q' -> rnd q = rnd q'.
Proof.
  intros E. destruct (Qcompare_spec q 0) as [Z0 | N | P].
  - rewrite !rnd_zero by lra. reflexivity.
  - assert (N' : q' < 0) by lra. rewrite (rnd_neg q N), (rnd_neg q' N').
    assert (M : magnitude (- q) == magnitude (- q')) by (apply magnitude_comp; lra).
    rewrite (Qle_bool_comp _ (pow2 1024) _ (magnitude (- q')) (Qeq_refl _) M).
    rewrite (Qred_eq (- magnitude (- q)) (- magnitude (- q'))) by (rewrite M; reflexivity).
    reflexivity.
  - assert (P' : 0 < q') by lra. rewrite (rnd_pos q P), (rnd_pos q' P').
    assert (M : magnitude q == magnitude q') by (apply magnitude_comp; lra).
    rewrite (Qle_bool_comp _ (pow2 1024) _ (magnitude q') (Qeq_refl _) M).
    rewrite (Qred_eq _ _ M). reflexivity.
Qed.

Lemma Qopp_opp (q : Q) : - - q = q.
Proof. destruct q as [n d]. unfold Qopp. cbn [Qnum Qden]. rewrite Z.opp_involutive. reflexivity. Qed.

Lemma Fin_inj (a b : Q) : Fin a = Fin b -> a = b.
Proof. intros H. injection H as H. exact H. Qed.

Lemma numNeg_involutive (a : num) : numNeg (numNeg a) = a.
Proof. destruct a; cbn; rewrite ?Qopp_opp; reflexivity. Qed.

Lemma rnd_opp (q : Q) : rnd (- q) = numNeg (rnd q).
Proof.
  destruct (Qcompare_spec q 0) as [Z0 | N | P].
  - rewrite !rnd_zero by lra. reflexivity.
  - assert (P : 0 < - q) by lra. rewrite (rnd_pos _ P), (rnd_neg _ N).
    destruct (Qle_bool (pow2 1024) (magnitude (- q))); cbn [numNeg]; [reflexivity |].
    f_equal. rewrite Qred_opp, Qopp_opp. reflexivity.
  - assert (N : - q < 0) by lra. rewrite (rnd_pos _ P), (rnd_neg _ N).
    assert (M : magnitude (- - q) == magnitude q) by (apply magnitude_comp; lra).
    rewrite (Qle_bool_comp _ (pow2 1024) _ (magnitude q) (Qeq_refl _) M).
    destruct (Qle_bool (pow2 1024) (magnitude q)); cbn [numNeg]; [reflexivity |].
    f_equal. rewrite Qred_opp. f_equal. apply Qred_eq, M.
Qed.

(** *** The order of the numbers *)

Lemma numLe_refl (q : Q) : numLe (Fin q) (Fin q) = true.
Proof. cbn. apply Qle_bool_iff. apply Qle_refl. Qed.

Lemma numLe_Fin (a b : Q) : numLe (Fin a) (Fin b) = true <-> a <= b.
Proof. cbn. apply Qle_bool_iff. Qed.

Lemma numLe_trans (a b c : num) :
  numLe a b = true -> numLe b c = true -> numLe a c = true.
Proof.
  destruct a as [x | | |], b as [y | | |], c as [z | | |]; cbn;
    try discriminate; try reflexivity.
  rewrite !Qle_bool_iff. apply Qle_trans.
Qed.

Lemma numLe_neg (a b : num) : numLe a b = true -> numLe (numNeg b) (numNeg a) = true.
Proof.
  destruct a as [x | | |], b as [y | | |]; cbn; try discriminate; try reflexivity.
  rewrite !Qle_bool_iff. intros H. lra.
Qed.

Lemma numLt_numLe (a b : num) : numLt a b = true -> numLe a b = true.
Proof.
  destruct a as [x | | |], b as [y | | |]; cbn; try discriminate; try reflexivity.
  unfold Qltb. rewrite negb_true_iff, Qle_bool_false, Qle_bool_iff. apply Qlt_le_weak.
Qed.


Lemma numLt_Fin_false (a b : Q) : numLt (Fin a) (Fin b) = false <-> b <= a.
Proof. cbn. unfold Qltb. rewrite negb_false_iff. apply Qle_bool_iff. Qed.

(** [a < b] fails exactly when [b <= a], for numbers that are not [NaN]. *)
Lemma numLt_false (a b : num) :
  isNaN a = false -> isNaN b = false -> numLt a b = false -> numLe b a = true.
Proof.
  destruct a as [x | | |], b as [y | | |]; cbn; try discriminate; try reflexivity.
  intros _ _. unfold Qltb. rewrite negb_false_iff. trivial.
Qed.



(** *** Rounding keeps the order *)

Lemma rnd_not_NaN (q : Q) : isNaN (rnd q) = false.
Proof.
  unfold rnd. destruct (Qcompare q 0); [reflexivity | |];
    match goal with |- context [if ?c then _ else _] => destruct c end; reflexivity.
Qed.

Lemma rnd_pos_nonneg (q : Q) : 0 < q -> numLe (Fin 0) (rnd q) = true.
Proof.
  intros H. rewrite (rnd_pos q H).
  destruct (Qle_bool (pow2 1024) (magnitude q)); [reflexivity |].
  apply numLe_Fin. rewrite Qred_correct. apply magnitude_nonneg, H.
Qed.

Lemma rnd_mono_pos (a b : Q) : 0 < a -> a <= b -> numLe (rnd a) (rnd b) = true.
Proof.
  intros H L. assert (H' : 0 < b) by lra.
  pose proof (magnitude_mono a b H L) as M.
  rewrite (rnd_pos a H), (rnd_pos b H').
  destruct (Qle_bool (pow2 1024) (magnitude a)) eqn:Oa;
    destruct (Qle_bool (pow2 1024) (magnitude b)) eqn:Ob; try reflexivity.
  - apply Qle_bool_iff in Oa. apply Qle_bool_false in Ob. lra.
  - apply numLe_Fin. rewrite !Qred_correct. exact M.
Qed.

Lemma rnd_mono (a b : Q) : a <= b -> numLe (rnd a) (rnd b) = true.
Proof.
  intros L.
  assert (Neg : forall q, q < 0 -> numLe (rnd q) (Fin 0) = true).
  { intros q Hq. assert (P : 0 < - q) by lra.
    pose proof (numLe_neg _ _ (rnd_pos_nonneg _ P)) as N.
    rewrite <- rnd_opp, Qopp_opp in N. exact N. }
  destruct (Qcompare_spec a 0) as [Za | Na | Pa].
  - rewrite (rnd_zero a Za).
    destruct (Qcompare_spec b 0) as [Zb | Nb | Pb]; [| lra |].
    + rewrite (rnd_zero b Zb). apply numLe_refl.
    + apply rnd_pos_nonneg, Pb.
  - destruct (Qcompare_spec b 0) as [Zb | Nb | Pb].
    + rewrite (rnd_zero b Zb). apply Neg, Na.
    + assert (P : 0 < - b) by lra. assert (L' : - b <= - a) by lra.
      pose proof (numLe_neg _ _ (rnd_mono_pos _ _ P L')) as N.
      rewrite <- !rnd_opp, !Qopp_opp in N. exact N.
    + apply numLe_trans with (Fin 0); [apply Neg, Na | apply rnd_pos_nonneg, Pb].
  - apply rnd_mono_pos; assumption.
Qed.

(** *** Doubles round to themselves *)

Lemma rnd_exact_pos (q : Q) (m e : Z) :
  0 < q -> q == inject_Z m * pow2 e -> (m < 2 ^ 53)%Z -> (-1074 <= e)%Z ->
  q < pow2 1024 -> rnd q = Fin (Qred q).
Proof.
  intros H E M N U. pose proof (magnitude_exact q m e H E M N) as X.
  rewrite (rnd_pos q H).
  rewrite (Qle_bool_comp _ (pow2 1024) _ q (Qeq_refl _) X).
  destruct (Qle_bool (pow2 1024) q) eqn:O.
  - apply Qle_bool_iff in O. lra.
  - f_equal. apply Qred_eq, X.
Qed.

(** A rational [m * 2 ^ e] with [|m| < 2 ^ 53] and [e >= -1074], of a
    magnitude below [2 ^ 1024], is a double. *)
Lemma rnd_exact (q : Q) (m e : Z) :
  q == inject_Z m * pow2 e -> (Z.abs m < 2 ^ 53)%Z -> (-1074 <= e)%Z ->
  - pow2 1024 < q -> q < pow2 1024 -> rnd q = Fin (Qred q).
Proof.
  intros E M N L U. destruct (Qcompare_spec q 0) as [Z0 | Ng | P].
  - rewrite (rnd_zero q Z0). f_equal. symmetry. apply (Qred_eq q 0 Z0).
  - assert (P : 0 < - q) by lra.
    assert (E' : - q == inject_Z (- m) * pow2 e) by (rewrite inject_Z_opp, E; ring).
    pose proof (rnd_exact_pos (- q) (- m) e P E' ltac:(lia) N ltac:(lra)) as X.
    rewrite rnd_opp in X. apply (f_equal numNeg) in X.
    rewrite numNeg_involutive in X. rewrite X. cbn [numNeg].
    rewrite Qred_opp, Qopp_opp. reflexivity.
  - apply (rnd_exact_pos q m e); try assumption. lia.
Qed.

Lemma Qred_inject_Z (z : Z) : Qred (inject_Z z) = inject_Z z.
Proof.
  unfold Qred, inject_Z.
  pose proof (Z.ggcd_gcd z 1) as G. pose proof (Z.ggcd_correct_divisors z 1) as C.
  destruct (Z.ggcd z 1) as [g [aa bb]]. cbn [fst snd] in *.
  rewrite Z.gcd_1_r in G. subst g. destruct C as [Ca Cb].
  assert (A : aa = z) by lia. assert (B : bb = 1%Z) by lia. subst aa bb. reflexivity.
Qed.

(** Whole numbers up to [2 ^ 53] are doubles. *)
Lemma rnd_Z (z : Z) : (Z.abs z <= 2 ^ 53)%Z -> rnd (inject_Z z) = Fin (inject_Z z).
Proof.
  intros H. rewrite <- (Qred_inject_Z z) at 2.
  assert (B : - pow2 1024 < inject_Z z /\ inject_Z z < pow2 1024).
  { assert (A : - inject_Z (2 ^ 53) <= inject_Z z <= inject_Z (2 ^ 53)).
    { rewrite <- inject_Z_opp, <- !Zle_Qle. lia. }
    assert (P : inject_Z (2 ^ 53) < pow2 1024).
    { rewrite <- (pow2_Z 53) by lia. apply pow2_lt. lia. }
    lra. }
  destruct (Z.eq_dec (Z.abs z) (2 ^ 53)) as [E | NE].
  - apply (rnd_exact _ (z / 2) 1); try tauto; try lia.
    + assert (Z2 : (z = z / 2 * 2)%Z).
      { assert (C : (z = 2 ^ 53 \/ z = - 2 ^ 53)%Z) by lia.
        destruct C as [-> | ->]; reflexivity. }
      rewrite Z2 at 1. rewrite inject_Z_mult. reflexivity.
    + assert (C : (z = 2 ^ 53 \/ z = - 2 ^ 53)%Z) by lia.
      destruct C as [-> | ->]; reflexivity.
  - apply (rnd_exact _ z 0); try tauto; try lia.
    change (pow2 0) with 1. ring.
Qed.

Lemma nearest_ofZ (z : Z) : (Z.abs z <= 2 ^ 53)%Z -> nearest (ofZ z) = ofZ z.
Proof. apply rnd_Z. Qed.

(** What [rnd] returns is a double in lowest terms. *)
Lemma rnd_idem (q r : Q) : rnd q = Fin r -> rnd r = Fin r.
Proof.
  assert (Pos : forall q r, 0 < q -> rnd q = Fin r -> rnd r = Fin r).
  { clear q r. intros q r H R. rewrite (rnd_pos q H) in R.
    destruct (Qle_bool (pow2 1024) (magnitude q)) eqn:O; [discriminate R |].
    apply Fin_inj in R. apply Qle_bool_false in O.
    assert (Rq : r == magnitude q) by (rewrite <- R; apply Qred_correct).
    assert (Rr : Qred r = r) by (rewrite <- R; apply Qred_complete, Qred_correct).
    rewrite <- Rr at 2.
    set (M := roundHalfEven (q / pow2 (exponentOf q))).
    assert (EM : magnitude q == inject_Z M * pow2 (exponentOf q)) by reflexivity.
    assert (M0 : (0 <= M)%Z).
    { apply roundHalfEven_nonneg. apply Qle_shift_div_l; [apply pow2_pos | lra]. }
    assert (MU : (M <= 2 ^ 53)%Z).
    { subst M. rewrite <- (roundHalfEven_Z (2 ^ 53)). apply roundHalfEven_mono.
      apply Qlt_le_weak, scaled_upper, H. }
    pose proof (exponentOf_min q) as Em.
    pose proof (pow2_pos 1024) as P1024.
    pose proof (magnitude_nonneg q H) as Mq.
    destruct (Z.eq_dec M (2 ^ 53)) as [E53 | N53].
    - apply (rnd_exact r (2 ^ 52) (exponentOf q + 1)); try lia; try lra.
      rewrite Rq, EM, E53, pow2_succ.
      change (inject_Z (2 ^ 53)) with (2 * inject_Z (2 ^ 52)). ring.
    - apply (rnd_exact r M (exponentOf q)); try lia; lra. }
  intros R. destruct (Qcompare_spec q 0) as [Z0 | N | P].
  - rewrite (rnd_zero q Z0) in R. apply Fin_inj in R. subst r. reflexivity.
  - assert (P : 0 < - q) by lra.
    assert (R' : rnd (- q) = Fin (- r)) by (rewrite rnd_opp, R; reflexivity).
    pose proof (Pos _ _ P R') as X. rewrite rnd_opp in X.
    apply (f_equal numNeg) in X. rewrite numNeg_involutive in X.
    rewrite X. cbn [numNeg]. rewrite Qopp_opp. reflexivity.
  - apply (Pos q r P R).
Qed.

Lemma nearest_idem (a : num) : nearest (nearest a) = nearest a.
Proof.
  destruct a as [q | | |]; try reflexivity. cbn [nearest].
  destruct (rnd q) as [r | | |] eqn:R; try reflexivity.
  cbn [nearest]. apply (rnd_idem q r R).
Qed.

Lemma isDouble_rnd (q r : Q) : rnd q = Fin r -> isDouble r.
Proof. intros R. unfold isDouble. rewrite (rnd_idem q r R). cbn. reflexivity. Qed.

Lemma isDouble_Z (z : Z) : (Z.abs z <= 2 ^ 53)%Z -> isDouble (inject_Z z).
Proof. intros H. unfold isDouble. rewrite (rnd_Z z H). cbn. reflexivity. Qed.

(** A rational between two doubles rounds to a double between them. *)
Lemma rnd_between (lo hi q : Q) :
  isDouble lo -> isDouble hi -> lo <= q <= hi ->
  exists r : Q, rnd q = Fin r /\ lo <= r <= hi.
Proof.
  unfold isDouble. intros Dl Dh [L U].
  pose proof (rnd_mono lo q L) as M1. pose proof (rnd_mono q hi U) as M2.
  destruct (rnd lo) as [l | | |]; cbn [numEq] in Dl; try contradiction.
  destruct (rnd hi) as [h | | |]; cbn [numEq] in Dh; try contradiction.
  destruct (rnd q) as [r | | |]; cbn in M1, M2; try discriminate.
  apply Qle_bool_iff in M1. apply Qle_bool_iff in M2.
  exists r. split; [reflexivity |]. lra.
Qed.

Lemma rnd_lower (lo q : Q) :
  isDouble lo -> lo <= q -> numLe (Fin lo) (rnd q) = true.
Proof.
  unfold isDouble. intros Dl L. pose proof (rnd_mono lo q L) as M.
  destruct (rnd lo) as [l | | |]; cbn [numEq] in Dl; try contradiction.
  destruct (rnd q) as [r | | |]; cbn in M |- *; try discriminate; try reflexivity.
  apply Qle_bool_iff in M. apply Qle_bool_iff. lra.
Qed.

Lemma rnd_upper (hi q : Q) :
  isDouble hi -> q <= hi -> numLe (rnd q) (Fin hi) = true.
Proof.
  unfold isDouble. intros Dh U. pose proof (rnd_mono q hi U) as M.
  destruct (rnd hi) as [h | | |]; cbn [numEq] in Dh; try contradiction.
  destruct (rnd q) as [r | | |]; cbn in M |- *; try discriminate; try reflexivity.
  apply Qle_bool_iff in M. apply Qle_bool_iff. lra.
Qed.

(** *** The error of rounding *)

(** A rational below [2 ^ k] is rounded to a double no further than
    [2 ^ (k - 54)], half a unit of the last place, from it. *)
Lemma rnd_near (q : Q) (k : Z) :
  0 <= q -> q < pow2 k -> (-1021 <= k <= 1023)%Z ->
  exists r : Q, rnd q = Fin r /\ r - pow2 (k - 54) <= q /\ q <= r + pow2 (k - 54).
Proof.
  intros H0 U K. pose proof (pow2_pos (k - 54)) as P.
  destruct (Qcompare_spec q 0) as [Z0 | N | Pq]; [| lra |].
  - exists 0. rewrite (rnd_zero q Z0). split; [reflexivity |]. lra.
  - destruct (magnitude_near q Pq) as [L R].
    destruct (ilog2_spec q Pq) as [IL _].
    assert (I : (ilog2 q < k)%Z) by (apply pow2_lt_inv; lra).
    assert (E : pow2 (exponentOf q) / 2 <= pow2 (k - 54)).
    { setoid_replace (pow2 (exponentOf q) / 2) with (pow2 (exponentOf q - 1)).
      - apply pow2_le. unfold exponentOf. lia.
      - rewrite pow2_sub. reflexivity. }
    assert (O : magnitude q < pow2 1024).
    { assert (A : pow2 (k - 54) < pow2 k) by (apply pow2_lt; lia).
      assert (B : pow2 (k + 1) <= pow2 1024) by (apply pow2_le; lia).
      rewrite pow2_succ in B. lra. }
    exists (Qred (magnitude q)). rewrite (rnd_pos q Pq).
    destruct (Qle_bool (pow2 1024) (magnitude q)) eqn:T.
    + apply Qle_bool_iff in T. lra.
    + split; [reflexivity |]. rewrite Qred_correct. lra.
Qed.

Local Close Scope Q_scope.

(** ** Numbers *)

Lemma Qltb_true (a b : Q) : Qltb a b = true <-> (a < b)%Q.
Proof.
  unfold Qltb. rewrite negb_true_iff.
  destruct (Qle_bool b a) eqn:E.
  - apply Qle_bool_iff in E. split; [discriminate | intro; lra].
  - split; [intros _ | reflexivity].
    destruct (Qlt_le_dec a b) as [L | L]; [exact L |].
    apply Qle_bool_iff in L. congruence.
Qed.

Lemma Qltb_false (a b : Q) : Qltb a b = false <-> (b <= a)%Q.
Proof.
  unfold Qltb. rewrite negb_false_iff. apply Qle_bool_iff.
Qed.

Lemma numAdd_ofZ (a b : Z) : numAdd (ofZ a) (ofZ b) = ofZ (a + b).
Proof.
  unfold ofZ, inject_Z. simpl. unfold Qplus. simpl.
  rewrite !Z.mul_1_r. reflexivity.
Qed.

Lemma inject_Z_eq0 (z : Z) : Qeq_bool (inject_Z z) 0 = (z =? 0).
Proof.
  unfold Qeq_bool, inject_Z. simpl. rewrite Z.mul_1_r.
  reflexivity.
Qed.

Lemma Qfloor_tenths (n : Z) (k : positive) :
  Qfloor (inject_Z n * (Zpos k # 10)) = n * Zpos k / 10.
Proof. reflexivity. Qed.

(** ** Feature extractor *)

Lemma nil_or_not {A : Type} (l : list A) : l = [] \/ l <> [].
Proof. destruct l; [left | right]; congruence. Qed.

Lemma skipn_nth_error {A : Type} (l : list A) (i : nat) (v : A) :
  nth_error l i = Some v -> skipn i l = v :: skipn (S i) l.
Proof.
  revert i. induction l as [| a l IH]; intros [| i] H; simpl in *; try discriminate.
  - injection H as ->. reflexivity.
  - apply IH in H. rewrite H. destruct l; reflexivity.
Qed.

Lemma sumLoop_ofZ (data : list Z) (iters i : nat) (a : Z) :
  (i + iters <= length data)%nat ->
  sumLoop data i iters (ofZ a) = ofZ (a + sumZ (firstn iters (skipn i data))).
Proof.
  revert i a. induction iters as [| k IH]; intros i a H; cbn [sumLoop].
  - simpl. rewrite Z.add_0_r. reflexivity.
  - destruct (nth_error data i) as [v |] eqn:E.
    + unfold readByte. rewrite E, numAdd_ofZ, IH by lia.
      rewrite (skipn_nth_error _ _ _ E). simpl. f_equal. lia.
    + apply nth_error_None in E. lia.
Qed.

Lemma sumZ_bounds (l : list Z) :
  Forall isByte l -> 0 <= sumZ l <= 255 * Z.of_nat (length l).
Proof.
  induction 1 as [| v l Hv _ IH]; simpl length; simpl sumZ; [lia |].
  unfold isByte in Hv. lia.
Qed.

Lemma mean_nonempty (l : list Z) :
  l <> [] -> mean l = (inject_Z (sumZ l) / inject_Z (Z.of_nat (length l)))%Q.
Proof. destruct l; [congruence | reflexivity]. Qed.

Lemma mean_bounds (l : list Z) : Forall isByte l -> (0 <= mean l <= 255)%Q.
Proof.
  intros H. destruct l as [| v l].
  - simpl. lra.
  - rewrite mean_nonempty by discriminate.
    pose proof (sumZ_bounds _ H) as B.
    set (s := sumZ (v :: l)) in *. set (n := Z.of_nat (length (v :: l))) in *.
    assert (Hn : 0 < n) by (subst n; simpl length; lia).
    assert (Hq : (0 < inject_Z n)%Q).
    { change 0%Q with (inject_Z 0). rewrite <- Zlt_Qlt. exact Hn. }
    split.
    + apply Qle_shift_div_l; [exact Hq |].
      rewrite Qmult_0_l. change 0%Q with (inject_Z 0). rewrite <- Zle_Qle. lia.
    + apply Qle_shift_div_r; [exact Hq |].
      change 255%Q with (inject_Z 255). rewrite <- inject_Z_mult, <- Zle_Qle. lia.
Qed.

Lemma mean_zeros (l : list Z) : (forall v, In v l -> v = 0) -> (mean l == 0)%Q.
Proof.
  intros H. destruct l as [| v l]; [reflexivity |].
  rewrite mean_nonempty by discriminate.
  assert (E : sumZ (v :: l) = 0).
  { clear - H. induction (v :: l) as [| a r IH]; [reflexivity |].
    simpl. rewrite (H a) by (left; reflexivity).
    rewrite IH; [reflexivity |]. intros w Hw. apply H. right. exact Hw. }
  rewrite E. unfold Qdiv. apply Qmult_0_l.
Qed.

(** The quotient the code forms for one band is the mean of the band. *)
Lemma band_average (data : list Z) (lo hi d : Z) :
  0 <= lo <= hi -> hi <= Z.of_nat (length data) -> d = hi - lo ->
  numEq (nanToZero (numDiv (sumFromTo data lo hi) (ofZ d)))
        (Fin (mean (band (Z.to_nat lo) (Z.to_nat hi) data))).
Proof.
  intros Hlo Hhi ->. unfold sumFromTo, band.
  rewrite sumLoop_ofZ by lia. rewrite Z.add_0_l.
  replace (Z.to_nat hi - Z.to_nat lo)%nat with (Z.to_nat (hi - lo)) by lia.
  set (l := firstn (Z.to_nat (hi - lo)) (skipn (Z.to_nat lo) data)).
  assert (Hlen : Z.of_nat (length l) = hi - lo).
  { subst l. rewrite length_firstn, length_skipn. lia. }
  unfold numDiv, ofZ. rewrite !inject_Z_eq0.
  destruct (Z.eqb_spec (hi - lo) 0) as [E | E].
  - assert (l = []) as -> by (destruct l; [reflexivity | simpl in Hlen; lia]).
    simpl. reflexivity.
  - assert (l <> []) by (intros ->; simpl in Hlen; lia).
    rewrite mean_nonempty, Hlen by assumption. simpl. reflexivity.
Qed.

Lemma bassEnd_le_midsEnd (n : Z) : 0 <= n -> 0 <= n * 1 / 10 <= n * 4 / 10 /\ n * 4 / 10 <= n.
Proof.
  intros H. repeat split.
  - apply Z.div_pos; lia.
  - apply Z.div_le_mono; lia.
  - apply Z.div_le_upper_bound; lia.
Qed.

Lemma getAudioAverages_unfold (data : list Z) :
  data <> [] ->
  let len := Z.of_nat (length data) in
  getAudioAverages (Some data) =
  mkAverages
    (nanToZero (numDiv (sumFromTo data 0 (len * 1 / 10)) (ofZ (len * 1 / 10))))
    (nanToZero (numDiv (sumFromTo data (len * 1 / 10) (len * 4 / 10))
                       (ofZ (len * 4 / 10 - len * 1 / 10))))
    (nanToZero (numDiv (sumFromTo data 0 len) (ofZ len))).
Proof.
  intros H len. unfold getAudioAverages.
  destruct data as [| v data]; [congruence |].
  change (length (v :: data) =? 0)%nat with false. cbv iota.
  fold len. rewrite (Qfloor_tenths len 1), (Qfloor_tenths len 4). reflexivity.
Qed.

Lemma band_all (l : list Z) : band 0 (length l) l = l.
Proof. unfold band. rewrite Nat.sub_0_r. simpl. apply firstn_all. Qed.

(** The three outputs as means of bands, for any array. *)
Lemma averages_are_means (spectrum : list Z) :
  let N := length spectrum in
  let r := getAudioAverages (Some spectrum) in
  numEq (bass r) (Fin (mean (band 0 (bassEndOf N) spectrum))) /\
  numEq (mids r) (Fin (mean (band (bassEndOf N) (midsEndOf N) spectrum))) /\
  numEq (overall r) (Fin (mean (band 0 N spectrum))).
Proof.
  intros N r.
  destruct (nil_or_not spectrum) as [-> | Hne].
  - simpl. repeat split; reflexivity.
  - subst r. rewrite (getAudioAverages_unfold _ Hne). cbn [bass mids overall].
    unfold bassEndOf, midsEndOf. fold N.
    rewrite (Qfloor_tenths (Z.of_nat N) 1), (Qfloor_tenths (Z.of_nat N) 4).
    destruct (bassEnd_le_midsEnd (Z.of_nat N)) as [[B1 B2] B3]; [lia |].
    repeat split.
    + change 0%nat with (Z.to_nat 0). apply band_average; lia.
    + apply band_average; lia.
    + pose proof (band_average spectrum 0 (Z.of_nat N) (Z.of_nat N)) as A.
      rewrite Nat2Z.id in A. apply A; lia.
Qed.

Lemma numEq_inByteRange (a : num) (q : Q) :
  numEq a (Fin q) -> (0 <= q <= 255)%Q -> inByteRange a.
Proof.
  destruct a as [p | | |]; simpl; try contradiction.
  intros E B. rewrite E. exact B.
Qed.

Lemma numEq_not_NaN (a : num) (q : Q) : numEq a (Fin q) -> isNaN a = false.
Proof. destruct a; simpl; [reflexivity | contradiction ..]. Qed.

Lemma Forall_band (P : Z -> Prop) (lo hi : nat) (l : list Z) :
  Forall P l -> Forall P (band lo hi l).
Proof.
  intros H. unfold band. apply Forall_forall. intros v Hv.
  rewrite Forall_forall in H. apply H.
  rewrite <- (firstn_skipn lo l). apply in_or_app. right.
  rewrite <- (firstn_skipn (hi - lo) (skipn lo l)). apply in_or_app. left. exact Hv.
Qed.

(** C7. For a spectrum of length N the feature extractor returns the mean
    of the bins [0, floor(0.1 N)) as bass, of [floor(0.1 N), floor(0.4 N))
    as mid and of [0, N) as overall; a band without bins (and an empty or
    absent spectrum) gives 0, and no output is ever NaN. *)
Theorem getAudioAverages_band_means :
  forall spectrum : list Z,
    let N := length spectrum in
    let bassBand := band 0 (bassEndOf N) spectrum in
    let midBand := band (bassEndOf N) (midsEndOf N) spectrum in
    let r := getAudioAverages (Some spectrum) in
    (bassEndOf N = Z.to_nat (Z.of_nat N / 10)
     /\ midsEndOf N = Z.to_nat (Z.of_nat N * 4 / 10))
    /\ (numEq (bass r) (Fin (mean bassBand))
        /\ numEq (mids r) (Fin (mean midBand))
        /\ numEq (overall r) (Fin (mean spectrum)))
    /\ (mean [] = 0%Q
        /\ (bassBand = [] -> bass r = ofZ 0)
        /\ (midBand = [] -> mids r = ofZ 0)
        /\ (spectrum = [] -> r = mkAverages (ofZ 0) (ofZ 0) (ofZ 0))
        /\ getAudioAverages None = mkAverages (ofZ 0) (ofZ 0) (ofZ 0))
    /\ (isNaN (bass r) = false /\ isNaN (mids r) = false
        /\ isNaN (overall r) = false).
Proof.
  intros spectrum N bassBand midBand r.
  destruct (averages_are_means spectrum) as (Hb & Hm & Ho).
  rewrite band_all in Ho.
  fold N in Hb, Hm, Ho. fold r in Hb, Hm, Ho.
  fold bassBand in Hb. fold midBand in Hm.
  split; [| split; [| split]].
  - unfold bassEndOf, midsEndOf.
    rewrite (Qfloor_tenths (Z.of_nat N) 1), (Qfloor_tenths (Z.of_nat N) 4).
    rewrite Z.mul_1_r. split; reflexivity.
  - repeat split; assumption.
  - split; [reflexivity |]. split; [| split; [| split]].
    + intros E. rewrite E in Hb.
      destruct (nil_or_not spectrum) as [-> | Hne]; [reflexivity |].
      subst r. rewrite (getAudioAverages_unfold _ Hne) in *. cbn [bass] in *.
      fold N in Hb |- *.
      pose proof (f_equal (@length Z) E) as L. subst bassBand. unfold band, bassEndOf in L.
      rewrite (Qfloor_tenths (Z.of_nat N) 1) in L.
      rewrite length_firstn in L. simpl skipn in L. fold N in L. simpl length in L.
      destruct (bassEnd_le_midsEnd (Z.of_nat N)) as [[B1 B2] B3]; [lia |].
      assert (Z0 : Z.of_nat N * 1 / 10 = 0) by lia.
      rewrite Z0. reflexivity.
    + intros E.
      destruct (nil_or_not spectrum) as [-> | Hne]; [reflexivity |].
      subst r. rewrite (getAudioAverages_unfold _ Hne). cbn [mids].
      fold N.
      pose proof (f_equal (@length Z) E) as L. subst midBand.
      unfold band, bassEndOf, midsEndOf in L.
      rewrite (Qfloor_tenths (Z.of_nat N) 1), (Qfloor_tenths (Z.of_nat N) 4) in L.
      rewrite length_firstn, length_skipn in L. fold N in L. simpl length in L.
      destruct (bassEnd_le_midsEnd (Z.of_nat N)) as [[B1 B2] B3]; [lia |].
      assert (Z0 : Z.of_nat N * 4 / 10 = Z.of_nat N * 1 / 10) by lia.
      rewrite Z0. unfold sumFromTo. rewrite Z.sub_diag. reflexivity.
    + intros ->. reflexivity.
    + reflexivity.
  - repeat split; eapply numEq_not_NaN; eassumption.
Qed.

(** C8. For a spectrum of magnitudes in [0, 255] each of bass, mid and
    overall lies in [0, 255]; for an all-zero spectrum of any length all
    three are 0. *)
Theorem getAudioAverages_in_byte_range :
  forall spectrum : list Z,
    Forall isByte spectrum ->
    let r := getAudioAverages (Some spectrum) in
    (inByteRange (bass r) /\ inByteRange (mids r) /\ inByteRange (overall r))
    /\ forall n : nat,
         let z := getAudioAverages (Some (repeat 0 n)) in
         numEq (bass z) (ofZ 0) /\ numEq (mids z) (ofZ 0) /\ numEq (overall z) (ofZ 0).
Proof.
  intros spectrum H r. split.
  - destruct (averages_are_means spectrum) as (Hb & Hm & Ho). fold r in Hb, Hm, Ho.
    repeat split.
    + eapply numEq_inByteRange; [exact Hb |]. apply mean_bounds, Forall_band, H.
    + eapply numEq_inByteRange; [exact Hm |]. apply mean_bounds, Forall_band, H.
    + eapply numEq_inByteRange; [exact Ho |]. apply mean_bounds, Forall_band, H.
  - intros n z.
    destruct (averages_are_means (repeat 0 n)) as (Hb & Hm & Ho). fold z in Hb, Hm, Ho.
    assert (Z0 : forall lo hi v, In v (band lo hi (repeat 0 n)) -> v = 0).
    { intros lo hi v Hv. unfold band in Hv.
      assert (Hin : In v (repeat 0 n)).
      { rewrite <- (firstn_skipn lo (repeat 0 n)). apply in_or_app. right.
        rewrite <- (firstn_skipn (hi - lo) (skipn lo (repeat 0 n))).
        apply in_or_app. left. exact Hv. }
      apply repeat_spec in Hin. exact Hin. }
    assert (T : forall a q, numEq a (Fin q) -> (q == 0)%Q -> numEq a (ofZ 0)).
    { intros a q Ha Hq. destruct a; simpl in *; try contradiction.
      rewrite Ha, Hq. reflexivity. }
    repeat split; (eapply T; [eassumption | apply mean_zeros, Z0]).
Qed.

Lemma getAudioAverages_in_byte_range_witness :
  Forall isByte [10; 20; 30; 40; 50; 60; 70; 80; 90; 255]
  /\ inByteRange (bass (getAudioAverages (Some [10; 20; 30; 40; 50; 60; 70; 80; 90; 255]))).
Proof.
  assert (H : Forall isByte [10; 20; 30; 40; 50; 60; 70; 80; 90; 255])
    by (repeat constructor; unfold isByte; lia).
  split; [exact H |].
  exact (proj1 (proj1 (getAudioAverages_in_byte_range _ H))).
Defined.

(** ** Arithmetic on doubles *)

Lemma nearest_numEq (a b : num) : numEq a b -> nearest a = nearest b.
Proof.
  destruct a as [x | | |], b as [y | | |]; cbn [numEq nearest];
    try contradiction; try reflexivity.
  apply rnd_comp.
Qed.

Lemma Qeq_bool_comp (a a' b b' : Q) :
  (a == a')%Q -> (b == b')%Q -> Qeq_bool a b = Qeq_bool a' b'.
Proof.
  intros Ha Hb. destruct (Qeq_bool a b) eqn:E1; destruct (Qeq_bool a' b') eqn:E2;
    try reflexivity.
  - apply Qeq_bool_iff in E1. apply Qeq_bool_neq in E2. exfalso. apply E2.
    rewrite <- Ha, <- Hb. exact E1.
  - apply Qeq_bool_neq in E1. apply Qeq_bool_iff in E2. exfalso. apply E1.
    rewrite Ha, Hb. exact E2.
Qed.

Lemma numMul_comm (a b : num) : numEq (numMul a b) (numMul b a).
Proof.
  destruct a as [x | | |], b as [y | | |]; cbn [numMul numEq]; try exact I.
  - apply Qmult_comm.
  - unfold scaleInf. destruct (Qeq_bool x 0); [exact I |].
    destruct (Bool.eqb true (Qltb 0 x)); exact I.
  - unfold scaleInf. destruct (Qeq_bool x 0); [exact I |].
    destruct (Bool.eqb false (Qltb 0 x)); exact I.
  - unfold scaleInf. destruct (Qeq_bool y 0); [exact I |].
    destruct (Bool.eqb true (Qltb 0 y)); exact I.
  - unfold scaleInf. destruct (Qeq_bool y 0); [exact I |].
    destruct (Bool.eqb false (Qltb 0 y)); exact I.
Qed.

Lemma Double_mul_comm (a b : num) : Double.mul a b = Double.mul b a.
Proof. unfold Double.mul. apply nearest_numEq, numMul_comm. Qed.

Lemma isDouble_small (z : Z) : -1024 <= z <= 1024 -> isDouble (inject_Z z).
Proof. intros H. apply isDouble_Z. lia. Qed.

(** A number of the unit interval rounds into the unit interval. *)
Lemma rnd_unit (q : Q) :
  (0 <= q <= 1)%Q -> exists r : Q, rnd q = Fin r /\ (0 <= r <= 1)%Q.
Proof.
  apply (rnd_between 0 1 q); [apply (isDouble_small 0) | apply (isDouble_small 1)]; lia.
Qed.

(** ** Particle simulator *)

Lemma Qltb_comp (a a' b b' : Q) : (a == a')%Q -> (b == b')%Q -> Qltb a b = Qltb a' b'.
Proof.
  intros Ha Hb.
  destruct (Qltb a b) eqn:E1; destruct (Qltb a' b') eqn:E2; try reflexivity.
  - apply Qltb_true in E1. apply Qltb_false in E2. lra.
  - apply Qltb_false in E1. apply Qltb_true in E2. lra.
Qed.

(** The move of the code is the move of the specification: the two write
    the product [0.3 * bassIntensity] in opposite orders. *)
Lemma step_advance (pos vel : num) (config : ParticleConfig) (bassIntensity : num) :
  step pos vel config (speedMultiplierOf bassIntensity)
  = advance pos vel (speed config) bassIntensity.
Proof.
  unfold step, speedMultiplierOf, advance.
  rewrite (Double_mul_comm bassIntensity). reflexivity.
Qed.

Lemma bind_run {A B : Type} (m : M A) (f : A -> M B) (w : World) :
  (x <- m ;; f x) w = f (fst (m w)) (snd (m w)).
Proof. unfold bind. destruct (m w). reflexivity. Qed.

(** One particle, one tick: the move, and the respawn when it crosses. *)
Lemma updateParticle_law (config : ParticleConfig) (width height : nat)
    (bassIntensity : num) (p : Particle) (w : World) :
  updateParticle config width height (speedMultiplierOf bassIntensity) p w
  = if crosses config width height bassIntensity p
    then (respawned (direction config) width height (entropy w (drawn w)) p,
          mkWorld (entropy w) (S (drawn w)) (nextObject w))
    else (moved config bassIntensity p, w).
Proof.
  unfold updateParticle, crosses, moved, respawned. rewrite !step_advance.
  destruct (direction config);
    cbn [x y vx vy travelCoord exitsEdge travelExtent perpExtent oppositeEdge];
    unfold numGt;
    match goal with
    | |- (if ?a then _ else _) _ = (if ?b then _ else _) =>
        change a with b; destruct b; reflexivity
    end.
Qed.

Lemma forEachParticle_cons (f : Particle -> M Particle) (o : ParticleObj)
    (rest : list ParticleObj) (w : World) :
  forEachParticle f (o :: rest) w
  = (mkObj (ident o) (fst (f (fields o) w))
       :: fst (forEachParticle f rest (snd (f (fields o) w))),
     snd (forEachParticle f rest (snd (f (fields o) w)))).
Proof.
  cbn [forEachParticle]. unfold bind, ret.
  destruct (f (fields o) w) as [p' w1]. cbn [fst snd].
  destruct (forEachParticle f rest w1). reflexivity.
Qed.

(** A tick over the array, particle by particle: the [j]-th object is the
    [j]-th object of before, moved or put back, and a particle put back
    takes the value of the random source that the particles before it
    have left. *)
Lemma updateParticles_ticked (config : ParticleConfig) (width height : nat)
    (bassIntensity : num) (particles : list ParticleObj) (w : World) :
  let r := updateParticles particles config width height bassIntensity w in
  length (fst r) = length particles
  /\ (forall j o, nth_error particles j = Some o ->
        nth_error (fst r) j
        = Some (ticked config width height bassIntensity (entropy w)
                  (drawn w + length (crossing config width height bassIntensity
                                              (firstn j particles))) o))
  /\ snd r = mkWorld (entropy w)
               (drawn w + length (crossing config width height bassIntensity particles))
               (nextObject w).
Proof.
  unfold updateParticles. cbv zeta.
  revert w. induction particles as [| o rest IH]; intros w.
  - cbn. split; [reflexivity |]. split.
    + intros [| j] o H; discriminate H.
    + destruct w. cbn. f_equal. lia.
  - rewrite forEachParticle_cons, updateParticle_law. cbn [fst snd length].
    set (c := crosses config width height bassIntensity (fields o)).
    set (w1 := snd (if c
                    then (respawned (direction config) width height
                            (entropy w (drawn w)) (fields o),
                          mkWorld (entropy w) (S (drawn w)) (nextObject w))
                    else (moved config bassIntensity (fields o), w))).
    assert (W1 : w1 = mkWorld (entropy w) (drawn w + (if c then 1 else 0)) (nextObject w)).
    { subst w1. destruct c; cbn [snd]; [f_equal; lia |].
      destruct w. cbn. f_equal. lia. }
    destruct (IH w1) as (I1 & I2 & I3).
    split; [rewrite I1; reflexivity |]. split.
    + intros [| j] o' H; cbn [nth_error] in H |- *.
      * injection H as <-. f_equal. unfold ticked. fold c. cbn [firstn crossing filter length].
        rewrite Nat.add_0_r. destruct c; reflexivity.
      * rewrite (I2 j o' H). f_equal. rewrite W1. cbn [entropy drawn].
        cbn [firstn]. unfold crossing. cbn [filter]. fold c.
        f_equal. destruct c; cbn [length]; lia.
    + rewrite I3, W1. cbn [entropy drawn nextObject]. f_equal.
      unfold crossing. cbn [filter]. fold c. destruct c; cbn [length]; lia.
Qed.

Lemma bass_in_byte_range (spectrum : list Z) :
  Forall isByte spectrum -> inByteRange (bass (getAudioAverages (Some spectrum))).
Proof.
  intros H. destruct (averages_are_means spectrum) as (Hb & _).
  eapply numEq_inByteRange; [exact Hb |]. apply mean_bounds, Forall_band, H.
Qed.

(** A number of the byte range divided by 255, as the code divides the
    mean of the bass band, is a double between 0 and 1. *)
Lemma byte_fraction_unit (a : num) :
  inByteRange a ->
  exists b : Q, Double.div a (ofZ 255) = Fin b /\ (0 <= b <= 1)%Q.
Proof.
  destruct a as [q | | |]; cbn [inByteRange]; try contradiction. intros Hq.
  unfold Double.div. cbn [nearest ofZ].
  destruct (rnd_between 0 255 q) as (q' & Rq & Hq');
    [apply (isDouble_small 0); lia | apply (isDouble_small 255); lia | exact Hq |].
  rewrite Rq, (rnd_Z 255) by lia. cbn [numDiv]. cbv iota.
  change (Qeq_bool (inject_Z 255) 0) with false. cbv iota. cbn [nearest].
  apply rnd_unit. split.
  - apply Qle_shift_div_l; [reflexivity | lra].
  - apply Qle_shift_div_r; [reflexivity |]. change (inject_Z 255) with 255%Q. lra.
Qed.

(** The caller's [bass / 255] is a number between 0 and 1. *)
Lemma bassIntensity_unit (spectrum : list Z) :
  Forall isByte spectrum ->
  exists b : Q, bassIntensityOf (Some spectrum) = Fin b /\ (0 <= b <= 1)%Q.
Proof.
  intros H. unfold bassIntensityOf. apply byte_fraction_unit, bass_in_byte_range, H.
Qed.

(** C5. A tick over a spectrum of bytes runs with bassIntensity = bass / 255
    in [0, 1] and keeps the particles of the array, in their order.  A
    particle whose new position, position + velocity * speed * (1 + 0.3 *
    bassIntensity) in the doubles of the code, lies past its edge of travel
    by more than 5 is put on the opposite edge, its other coordinate the
    next unused value of the random source times the extent of the frame
    on that axis; every other particle is stored at the new position.
    Velocities are kept.  The random source is read exactly once for each
    particle that crosses, in the order of the array. *)
Theorem updateParticles_move_and_respawn :
  forall (config : ParticleConfig) (width height : nat) (spectrum : list Z)
         (particles : list ParticleObj) (w : World),
    Forall isByte spectrum ->
    let bassIntensity := bassIntensityOf (Some spectrum) in
    let r := updateParticles particles config width height bassIntensity w in
    let crossed := crossing config width height bassIntensity in
    (exists b : Q, bassIntensity = Fin b /\ (0 <= b <= 1)%Q)
    /\ length (fst r) = length particles
    /\ (forall j o, nth_error particles j = Some o ->
          nth_error (fst r) j
          = Some (mkObj (ident o)
                    (if crosses config width height bassIntensity (fields o)
                     then respawned (direction config) width height
                            (entropy w (drawn w + length (crossed (firstn j particles))))
                            (fields o)
                     else moved config bassIntensity (fields o))))
    /\ snd r = mkWorld (entropy w) (drawn w + length (crossed particles)) (nextObject w).
Proof.
  intros config width height spectrum particles w Hs bassIntensity r crossed.
  split; [apply bassIntensity_unit, Hs |].
  exact (updateParticles_ticked config width height bassIntensity particles w).
Qed.

(** *** The margin invariant *)

(** A number that is not negative: a rational from 0 on, or [+Infinity]. *)
Lemma nearest_nonneg (a : num) : numLe (Fin 0) a = true -> numLe (Fin 0) (nearest a) = true.
Proof.
  destruct a as [q | | |]; cbn [nearest]; try (intros H; exact H).
  intros H. apply numLe_Fin in H. apply rnd_lower; [apply (isDouble_small 0); lia | exact H].
Qed.

Lemma nearest_nonpos (a : num) : numLe a (Fin 0) = true -> numLe (nearest a) (Fin 0) = true.
Proof.
  destruct a as [q | | |]; cbn [nearest]; try (intros H; exact H).
  intros H. apply numLe_Fin in H. apply rnd_upper; [apply (isDouble_small 0); lia | exact H].
Qed.

Lemma Qeq_bool_false (a b : Q) : ~ (a == b)%Q -> Qeq_bool a b = false.
Proof.
  intros H. destruct (Qeq_bool a b) eqn:E; [| reflexivity].
  apply Qeq_bool_iff in E. contradiction.
Qed.

Lemma scaleInf_pos (positive : bool) (q : Q) :
  (0 < q)%Q -> scaleInf positive q = if positive then PosInf else NegInf.
Proof.
  intros H. unfold scaleInf.
  assert (E : Qeq_bool q 0 = false) by (apply Qeq_bool_false; lra).
  assert (L : Qltb 0 q = true) by (apply Qltb_true; exact H).
  rewrite E, L. destruct positive; reflexivity.
Qed.

Lemma scaleInf_neg (positive : bool) (q : Q) :
  (q < 0)%Q -> scaleInf positive q = if positive then NegInf else PosInf.
Proof.
  intros H. unfold scaleInf.
  assert (E : Qeq_bool q 0 = false) by (apply Qeq_bool_false; lra).
  assert (L : Qltb 0 q = false) by (apply Qltb_false; lra).
  rewrite E, L. destruct positive; reflexivity.
Qed.

(** The sign of a product with a positive or a negative rational. *)
Lemma numMul_pos_nonneg (y : Q) (a : num) :
  (0 < y)%Q -> numLe (Fin 0) a = true ->
  numLe (Fin 0) (numMul (Fin y) a) = true /\ numLe (Fin 0) (numMul a (Fin y)) = true.
Proof.
  intros Hy. destruct a as [x | | |]; cbn [numLe numMul]; try discriminate.
  - rewrite !Qle_bool_iff. intros Hx.
    split; [apply Qmult_le_0_compat | apply Qmult_le_0_compat]; lra.
  - intros _. rewrite (scaleInf_pos true y Hy). split; reflexivity.
Qed.

Lemma numMul_pos_nonpos (y : Q) (a : num) :
  (0 < y)%Q -> numLe a (Fin 0) = true -> numLe (numMul a (Fin y)) (Fin 0) = true.
Proof.
  intros Hy. destruct a as [x | | |]; cbn [numLe numMul]; try discriminate.
  - rewrite !Qle_bool_iff. intros Hx.
    assert (H : (0 <= (- x) * y)%Q) by (apply Qmult_le_0_compat; lra).
    assert (E : ((- x) * y == - (x * y))%Q) by ring.
    rewrite E in H. lra.
  - intros _. rewrite (scaleInf_pos false y Hy). reflexivity.
Qed.

Lemma numMul_neg_nonneg (y : Q) (a : num) :
  (y < 0)%Q -> numLe (Fin 0) a = true -> numLe (numMul (Fin y) a) (Fin 0) = true.
Proof.
  intros Hy. destruct a as [x | | |]; cbn [numLe numMul]; try discriminate.
  - rewrite !Qle_bool_iff. intros Hx.
    assert (H : (0 <= (- y) * x)%Q) by (apply Qmult_le_0_compat; lra).
    assert (E : ((- y) * x == - (y * x))%Q) by ring.
    rewrite E in H. lra.
  - intros _. rewrite (scaleInf_neg true y Hy). reflexivity.
Qed.

(** A sum with a term that is not negative stays above a double that one
    of its terms is above; likewise below. *)
Lemma Double_add_lower (lo : Q) (a b : num) :
  isDouble lo -> numLe (Fin lo) a = true -> numLe (Fin 0) b = true ->
  numLe (Fin lo) (Double.add a b) = true.
Proof.
  intros Dl Ha Hb. unfold Double.add.
  assert (Ha' : numLe (Fin lo) (nearest a) = true).
  { destruct a as [x | | |]; cbn [nearest]; try exact Ha.
    apply numLe_Fin in Ha. apply rnd_lower; assumption. }
  apply nearest_nonneg in Hb.
  destruct (nearest a) as [x | | |], (nearest b) as [y | | |];
    cbn [numLe] in Ha', Hb; try discriminate; cbn [numAdd nearest]; try reflexivity.
  apply Qle_bool_iff in Ha'. apply Qle_bool_iff in Hb.
  apply rnd_lower; [exact Dl | lra].
Qed.

Lemma Double_add_upper (hi : Q) (a b : num) :
  isDouble hi -> numLe a (Fin hi) = true -> numLe b (Fin 0) = true ->
  numLe (Double.add a b) (Fin hi) = true.
Proof.
  intros Dh Ha Hb. unfold Double.add.
  assert (Ha' : numLe (nearest a) (Fin hi) = true).
  { destruct a as [x | | |]; cbn [nearest]; try exact Ha.
    apply numLe_Fin in Ha. apply rnd_upper; assumption. }
  apply nearest_nonpos in Hb.
  destruct (nearest a) as [x | | |], (nearest b) as [y | | |];
    cbn [numLe] in Ha', Hb; try discriminate; cbn [numAdd nearest]; try reflexivity.
  apply Qle_bool_iff in Ha'. apply Qle_bool_iff in Hb.
  apply rnd_upper; [exact Dh | lra].
Qed.

(** [1 + bassIntensity * 0.3] is a double between 1 and 2. *)
Lemma speedMultiplier_range (b : Q) :
  (0 <= b <= 1)%Q ->
  exists m : Q, speedMultiplierOf (Fin b) = Fin m /\ (1 <= m <= 2)%Q.
Proof.
  intros Hb. unfold speedMultiplierOf, Double.add, Double.mul, ofZ. cbn [nearest].
  destruct (rnd_unit b Hb) as (b' & -> & Hb').
  destruct (rnd_unit (3#10)) as (c & -> & Hc); [split; discriminate |].
  cbn [numMul nearest].
  assert (P : (0 <= b' * c <= 1)%Q).
  { split; [apply Qmult_le_0_compat; lra |].
    assert (T : (0 <= (1 - b') * c)%Q) by (apply Qmult_le_0_compat; lra).
    assert (E : ((1 - b') * c == c - b' * c)%Q) by ring. lra. }
  destruct (rnd_unit _ P) as (t & -> & Ht). cbn [nearest].
  destruct (rnd_unit t Ht) as (t' & -> & Ht').
  rewrite (rnd_Z 1) by lia. cbn [numAdd nearest].
  apply (rnd_between 1 2); [apply (isDouble_small 1); lia | apply (isDouble_small 2); lia |].
  change (inject_Z 1) with 1%Q. lra.
Qed.

(** The drift [velocity * speed * speedMultiplier] of a particle whose
    velocity is at least 1: not negative, and not [NaN] even when the
    product overflows. *)
Lemma drift_up (u s m : Q) :
  (1 <= u <= 2)%Q -> (0 <= s)%Q -> (1 <= m <= 2)%Q ->
  numLe (Fin 0) (Double.mul (Double.mul (Fin u) (Fin s)) (Fin m)) = true.
Proof.
  intros Hu Hs Hm. unfold Double.mul. cbn [nearest].
  destruct (rnd_between 1 2 u) as (u' & -> & Hu');
    [apply (isDouble_small 1); lia | apply (isDouble_small 2); lia | exact Hu |].
  destruct (rnd_between 1 2 m) as (m' & -> & Hm');
    [apply (isDouble_small 1); lia | apply (isDouble_small 2); lia | exact Hm |].
  assert (S0 : numLe (Fin 0) (rnd s) = true)
    by (apply rnd_lower; [apply (isDouble_small 0); lia | exact Hs]).
  apply nearest_nonneg. apply numMul_pos_nonneg; [lra |].
  apply nearest_nonneg, nearest_nonneg. apply numMul_pos_nonneg; [lra | exact S0].
Qed.

Lemma drift_down (u s m : Q) :
  (- (2) <= u <= - (1))%Q -> (0 <= s)%Q -> (1 <= m <= 2)%Q ->
  numLe (Double.mul (Double.mul (Fin u) (Fin s)) (Fin m)) (Fin 0) = true.
Proof.
  intros Hu Hs Hm. unfold Double.mul. cbn [nearest].
  destruct (rnd_between (- (2)) (- (1)) u) as (u' & -> & Hu');
    [apply (isDouble_small (-2)); lia | apply (isDouble_small (-1)); lia | exact Hu |].
  destruct (rnd_between 1 2 m) as (m' & -> & Hm');
    [apply (isDouble_small 1); lia | apply (isDouble_small 2); lia | exact Hm |].
  assert (S0 : numLe (Fin 0) (rnd s) = true)
    by (apply rnd_lower; [apply (isDouble_small 0); lia | exact Hs]).
  apply nearest_nonpos. apply numMul_pos_nonpos; [lra |].
  apply nearest_nonpos, nearest_nonpos. apply numMul_neg_nonneg; [lra | exact S0].
Qed.

Lemma extent_nonneg (n : nat) : (0 <= inject_Z (Z.of_nat n))%Q.
Proof. change 0%Q with (inject_Z 0). rewrite <- Zle_Qle. lia. Qed.

Lemma forEachParticle_Forall (P : Particle -> Prop) (f : Particle -> M Particle)
    (particles : list ParticleObj) :
  (forall p w, P p -> P (fst (f p w))) ->
  forall w, Forall (fun o => P (fields o)) particles ->
            Forall (fun o => P (fields o)) (fst (forEachParticle f particles w)).
Proof.
  intros Hf. induction particles as [| o rest IH]; intros w H.
  - constructor.
  - inversion H as [| ? ? Ho Hrest]; subst.
    rewrite forEachParticle_cons. cbn [fst]. constructor.
    + cbn [fields]. apply Hf, Ho.
    + apply IH, Hrest.
Qed.

Lemma spawn_entropy (config : ParticleConfig) (width height : nat) (w : World) :
  entropy (snd (spawn config width height w)) = entropy w.
Proof. unfold spawn. destruct (direction config); reflexivity. Qed.

Lemma spawnLoop_Forall (P : ParticleObj -> Prop) (config : ParticleConfig)
    (width height : nat) :
  forall iters acc w,
    (forall w', entropy w' = entropy w -> P (fst (spawn config width height w'))) ->
    Forall P acc ->
    Forall P (fst (spawnLoop config width height iters acc w)).
Proof.
  induction iters as [| k IH]; intros acc w Hsp Hacc.
  - exact Hacc.
  - cbn [spawnLoop]. rewrite bind_run. apply IH.
    + intros w' E. apply Hsp. rewrite E. apply spawn_entropy.
    + apply Forall_app. split; [exact Hacc |]. constructor; [| constructor].
      apply Hsp. reflexivity.
Qed.

Section Margin.

Variable config : ParticleConfig.
Variables width height : nat.

Hypothesis speed_nonneg : (0 <= speed config)%Q.
Hypothesis width_bound : Z.of_nat width < 2 ^ 32.
Hypothesis height_bound : Z.of_nat height < 2 ^ 32.

Let d := direction config.

Lemma edge_isDouble (n : nat) :
  Z.of_nat n < 2 ^ 32 -> isDouble (inject_Z (Z.of_nat n) + 5)%Q.
Proof.
  intros H. unfold isDouble.
  assert (E : (inject_Z (Z.of_nat n) + 5 == inject_Z (Z.of_nat n + 5))%Q)
    by (rewrite inject_Z_plus; reflexivity).
  rewrite (rnd_comp _ _ E), rnd_Z by lia. cbn [numEq]. symmetry. exact E.
Qed.

Lemma within_bounds (a : num) (lo hi : Q) :
  numLe (Fin lo) a = true -> numLe a (Fin hi) = true ->
  match a with Fin q => (lo <= q <= hi)%Q | _ => False end.
Proof.
  destruct a as [q | | |]; cbn [numLe]; try discriminate.
  rewrite !Qle_bool_iff. auto.
Qed.

Lemma numLe_not_NaN (a b : num) : numLe a b = true -> isNaN a = false /\ isNaN b = false.
Proof. destruct a, b; cbn; try discriminate; auto. Qed.

(** A coordinate that was within the margin and is not found beyond the
    edge after its move is within the margin. *)
Lemma stays_high (ext q : Q) (i : num) :
  (- (5) <= q <= ext + 5)%Q -> numLe (Fin 0) i = true ->
  numLt (Fin (ext + 5)%Q) (Double.add (Fin q) i) = false ->
  match Double.add (Fin q) i with
  | Fin r => (- (5) <= r <= ext + 5)%Q
  | _ => False
  end.
Proof.
  intros Hq Hi E.
  assert (L : numLe (Fin (- (5))%Q) (Double.add (Fin q) i) = true).
  { apply Double_add_lower; [apply (isDouble_small (-5)); lia | apply numLe_Fin; lra | exact Hi]. }
  destruct (numLe_not_NaN _ _ L) as [_ N].
  apply within_bounds; [exact L |]. apply numLt_false; [reflexivity | exact N | exact E].
Qed.

Lemma stays_low (ext q : Q) (i : num) :
  isDouble (ext + 5)%Q ->
  (- (5) <= q <= ext + 5)%Q -> numLe i (Fin 0) = true ->
  numLt (Double.add (Fin q) i) (Fin (- (5))%Q) = false ->
  match Double.add (Fin q) i with
  | Fin r => (- (5) <= r <= ext + 5)%Q
  | _ => False
  end.
Proof.
  intros D Hq Hi E.
  assert (L : numLe (Double.add (Fin q) i) (Fin (ext + 5)%Q) = true).
  { apply Double_add_upper; [exact D | apply numLe_Fin; lra | exact Hi]. }
  destruct (numLe_not_NaN _ _ L) as [N _].
  apply within_bounds; [| exact L]. apply numLt_false; [exact N | reflexivity | exact E].
Qed.

(** One tick keeps a particle on course. *)
Lemma updateParticle_keeps_course (b : Q) (p : Particle) (w : World) :
  (0 <= b <= 1)%Q ->
  onCourse d width height p ->
  onCourse d width height
    (fst (updateParticle config width height (speedMultiplierOf (Fin b)) p w)).
Proof.
  intros Hb [Hm Ha]. destruct p as [qx qy qvx qvy].
  destruct (speedMultiplier_range b Hb) as (m & Em & Hmul).
  pose proof (extent_nonneg width) as Hw. pose proof (extent_nonneg height) as Hh.
  pose proof (edge_isDouble width width_bound) as Dw.
  pose proof (edge_isDouble height height_bound) as Dh.
  unfold onCourse, withinMargin, aimed, updateParticle, d in *. rewrite Em.
  unfold numGt, step.
  change (numAdd (dim height) (ofZ 5)) with (Fin (inject_Z (Z.of_nat height) + 5)%Q).
  change (numAdd (dim width) (ofZ 5)) with (Fin (inject_Z (Z.of_nat width) + 5)%Q).
  change (ofZ (-5)) with (Fin (- (5))%Q).
  destruct (direction config); cbn [travelCoord travelVelocity x y vx vy] in *;
    unfold travelExtent in *.
  - destruct qy as [q | | |], qvy as [u | | |]; try contradiction.
    pose proof (drift_up u (speed config) m Ha speed_nonneg Hmul) as Hi.
    match goal with
    | |- context [if numLt ?a ?c then _ else _] => destruct (numLt a c) eqn:E
    end; cbn [fst snd bind ret mathRandom y vy]; (split; [| exact Ha]).
    + lra.
    + apply stays_high; assumption.
  - destruct qy as [q | | |], qvy as [u | | |]; try contradiction.
    pose proof (drift_down u (speed config) m Ha speed_nonneg Hmul) as Hi.
    match goal with
    | |- context [if numLt ?a ?c then _ else _] => destruct (numLt a c) eqn:E
    end; cbn [fst snd bind ret mathRandom y vy]; (split; [| exact Ha]).
    + lra.
    + apply stays_low; assumption.
  - destruct qx as [q | | |], qvx as [u | | |]; try contradiction.
    pose proof (drift_up u (speed config) m Ha speed_nonneg Hmul) as Hi.
    match goal with
    | |- context [if numLt ?a ?c then _ else _] => destruct (numLt a c) eqn:E
    end; cbn [fst snd bind ret mathRandom x vx]; (split; [| exact Ha]).
    + lra.
    + apply stays_high; assumption.
  - destruct qx as [q | | |], qvx as [u | | |]; try contradiction.
    pose proof (drift_down u (speed config) m Ha speed_nonneg Hmul) as Hi.
    match goal with
    | |- context [if numLt ?a ?c then _ else _] => destruct (numLt a c) eqn:E
    end; cbn [fst snd bind ret mathRandom x vx]; (split; [| exact Ha]).
    + lra.
    + apply stays_low; assumption.
Qed.

(** So does any run of ticks with bass intensities between 0 and 1. *)
Lemma runTicks_keeps_course (bassIntensities : list num) :
  Forall (fun a => exists b : Q, a = Fin b /\ (0 <= b <= 1)%Q) bassIntensities ->
  forall particles w,
    Forall (fun o => onCourse d width height (fields o)) particles ->
    Forall (fun o => onCourse d width height (fields o))
           (fst (runTicks particles config width height bassIntensities w)).
Proof.
  induction 1 as [| a rest Ha _ IH]; intros particles w H.
  - exact H.
  - cbn [runTicks]. rewrite bind_run. apply IH.
    destruct Ha as (b & -> & Hb).
    unfold updateParticles.
    apply (forEachParticle_Forall (onCourse d width height)); [| exact H].
    intros p w0 Hp. apply updateParticle_keeps_course; assumption.
Qed.

(** A new particle starts on course, whatever the speed. *)
Lemma spawn_on_course (w : World) :
  (forall k, 0 <= entropy w k < 1)%Q ->
  onCourse d width height (fields (fst (spawn config width height w))).
Proof.
  intros He.
  pose proof (He (drawn w)) as H0. pose proof (He (S (drawn w))) as H1.
  pose proof (He (S (S (drawn w)))) as H2.
  pose proof (extent_nonneg width) as Hw. pose proof (extent_nonneg height) as Hh.
  assert (Px : forall r e : Q, (0 <= r < 1 -> 0 <= e -> 0 <= r * e <= e)%Q).
  { intros r e Hr Hx. split.
    - apply Qmult_le_0_compat; lra.
    - assert (T : (e - r * e == (1 - r) * e)%Q) by ring.
      assert (T2 : (0 <= (1 - r) * e)%Q) by (apply Qmult_le_0_compat; lra).
      lra. }
  pose proof (Px _ _ H0 Hw) as Bx. pose proof (Px _ _ H1 Hh) as By.
  unfold spawn, onCourse, withinMargin, aimed, d.
  destruct (direction config);
    cbn [bind mathRandom newObject fst snd fields entropy drawn nextObject
         travelCoord travelVelocity x y vx vy numMul numAdd numSub numNeg dim ofZ];
    unfold travelExtent;
    change (inject_Z 1) with 1%Q; change (inject_Z (-1)) with (- (1))%Q;
    split; lra.
Qed.

Lemma initParticles_on_course (old : list ParticleObj) (w : World) :
  (forall k, 0 <= entropy w k < 1)%Q ->
  Forall (fun o => onCourse d width height (fields o))
         (fst (initParticles old config width height w)).
Proof.
  intros He. unfold initParticles. apply spawnLoop_Forall; [| constructor].
  intros w' E. apply spawn_on_course. intros k. rewrite E. apply He.
Qed.

End Margin.

(** C6. Start from any initialised particle set, in any of the four
    directions, and run any sequence of update ticks (each with the bass
    intensity of a spectrum of bytes): after the last update, hence after
    every update, the coordinate of every particle on the axis of travel is
    within [-5, dimension + 5].  The speed is not negative, the random
    source yields values in [0, 1), and the frame has the dimensions of a
    canvas, unsigned integers of 32 bits. *)
Theorem particles_stay_within_margin :
  forall (config : ParticleConfig) (width height : nat)
         (old : list ParticleObj) (spectra : list (list Z)) (w : World),
    (forall k, 0 <= entropy w k < 1)%Q ->
    (0 <= speed config)%Q ->
    Z.of_nat width < 2 ^ 32 -> Z.of_nat height < 2 ^ 32 ->
    Forall (Forall isByte) spectra ->
    let started := initParticles old config width height w in
    let final := runTicks (fst started) config width height
                   (map (fun s => bassIntensityOf (Some s)) spectra) (snd started) in
    Forall (fun o => withinMargin (direction config) width height (fields o))
           (fst final).
Proof.
  intros config width height old spectra w He Hs Hw Hh Hsp started final.
  assert (Hb : Forall (fun a => exists b : Q, a = Fin b /\ (0 <= b <= 1)%Q)
                      (map (fun s => bassIntensityOf (Some s)) spectra)).
  { apply Forall_map. eapply Forall_impl; [| exact Hsp].
    intros s Hbytes. apply bassIntensity_unit, Hbytes. }
  pose proof (runTicks_keeps_course config width height Hs Hw Hh _ Hb
                (fst started) (snd started)
                (initParticles_on_course config width height old w He)) as H.
  fold final in H. eapply Forall_impl; [| exact H].
  intros o [Hm _]. exact Hm.
Qed.

(** *** Reinitialisation *)

Lemma spawn_world (config : ParticleConfig) (width height : nat) (w : World) :
  snd (spawn config width height w)
  = mkWorld (entropy w) (drawn w + 3) (nextObject w + 1).
Proof.
  unfold spawn. destruct (direction config);
    cbn [bind mathRandom newObject fst snd entropy drawn nextObject];
    f_equal; lia.
Qed.

Lemma spawnLoop_spec (config : ParticleConfig) (width height : nat) :
  forall iters acc w,
    spawnLoop config width height iters acc w
    = (acc ++ map (spawned config width height w) (seq 0 iters),
       mkWorld (entropy w) (drawn w + 3 * iters) (nextObject w + iters)).
Proof.
  induction iters as [| k IH]; intros acc w.
  - cbn [spawnLoop seq map]. rewrite app_nil_r, Nat.mul_0_r, !Nat.add_0_r.
    destruct w; reflexivity.
  - cbn [spawnLoop]. rewrite bind_run, IH, spawn_world.
    cbn [entropy drawn nextObject]. f_equal.
    + rewrite <- app_assoc. f_equal. cbn [seq map app].
      f_equal.
      * unfold spawned. do 2 f_equal. destruct w. cbn. f_equal; lia.
      * rewrite <- seq_shift, map_map. apply map_ext. intros j.
        unfold spawned. cbn [entropy drawn nextObject]. do 2 f_equal. f_equal; lia.
    + f_equal; lia.
Qed.

Lemma spawned_shape (config : ParticleConfig) (width height : nat) (w : World) (j : nat) :
  let o := spawned config width height w j in
  let r := entropy w (S (S (drawn w + 3 * j))) in
  ident o = (nextObject w + j)%nat
  /\ x (fields o) = Fin (entropy w (drawn w + 3 * j) * inject_Z (Z.of_nat width))%Q
  /\ y (fields o) = Fin (entropy w (S (drawn w + 3 * j)) * inject_Z (Z.of_nat height))%Q
  /\ (vx (fields o), vy (fields o))
     = match direction config with
       | Dir.top => (ofZ 0, Fin (1 + r)%Q)
       | Dir.bottom => (ofZ 0, Fin (-1 - r)%Q)
       | Dir.left => (Fin (1 + r)%Q, ofZ 0)
       | Dir.right => (Fin (-1 - r)%Q, ofZ 0)
       end.
Proof.
  unfold spawned, spawn.
  destruct (direction config);
    cbn [bind mathRandom newObject fst snd fields ident entropy drawn nextObject
         x y vx vy numMul numAdd numSub numNeg dim ofZ];
    repeat split; reflexivity.
Qed.

Lemma Dir_eqb_eq (a b : Dir.t) : Dir.eqb a b = true <-> a = b.
Proof. destruct a, b; cbn; split; congruence. Qed.

Lemma sameDeps_spec (a b : ParticleConfig) :
  sameDeps (particleDeps a) (particleDeps b) = true
  <-> count a = count b /\ direction a = direction b /\ enabled a = enabled b.
Proof.
  unfold sameDeps, particleDeps.
  rewrite !andb_true_iff, Z.eqb_eq, Dir_eqb_eq, Bool.eqb_true_iff. tauto.
Qed.

(** C9. On a change of the particle configuration, a new value of speed,
    colour or blur alone leaves the particle array as it is (the same
    objects with the same positions and velocities, no random value taken),
    while a new count, direction or enabled flag replaces it by [count]
    newly allocated particles whose positions and velocities come from fresh
    values of the random source. *)
Theorem particleEffect_reconfigure :
  forall (old config : ParticleConfig) (width height : nat)
         (particles : list ParticleObj) (w : World),
    Forall (fun o => (ident o < nextObject w)%nat) particles ->
    let r := particleEffect (Some old) config (Some (width, height)) particles w in
    let n := Z.to_nat (count config) in
    ((exists colour' blur' speed',
        config = mkParticleConfig (enabled old) (count old) colour' blur'
                                  (direction old) speed')
     -> r = (particles, w))
    /\ ((count config <> count old \/ direction config <> direction old
         \/ enabled config <> enabled old)
        -> fst r = map (spawned config width height w) (seq 0 n)
           /\ length (fst r) = n
           /\ snd r = mkWorld (entropy w) (drawn w + 3 * n) (nextObject w + n)
           /\ (forall o o', In o particles -> In o' (fst r) -> ident o <> ident o')
           /\ (forall j, (j < n)%nat ->
                 exists o, nth_error (fst r) j = Some o
                   /\ ident o = (nextObject w + j)%nat
                   /\ x (fields o)
                      = Fin (entropy w (drawn w + 3 * j) * inject_Z (Z.of_nat width))%Q
                   /\ y (fields o)
                      = Fin (entropy w (S (drawn w + 3 * j)) * inject_Z (Z.of_nat height))%Q
                   /\ travelVelocity (direction config) (fields o)
                      = match direction config with
                        | Dir.top | Dir.left =>
                            Fin (1 + entropy w (S (S (drawn w + 3 * j))))%Q
                        | Dir.bottom | Dir.right =>
                            Fin (-1 - entropy w (S (S (drawn w + 3 * j))))%Q
                        end)).
Proof.
  intros old config width height particles w Hold r n. split.
  - intros (c' & b' & s' & ->). subst r. unfold particleEffect.
    assert (E : sameDeps (particleDeps old)
                  (particleDeps (mkParticleConfig (enabled old) (count old) c' b'
                                                  (direction old) s')) = true)
      by (apply sameDeps_spec; cbn; auto).
    rewrite E. reflexivity.
  - intros Hdiff.
    assert (E : sameDeps (particleDeps old) (particleDeps config) = false).
    { destruct (sameDeps (particleDeps old) (particleDeps config)) eqn:S; [| reflexivity].
      apply sameDeps_spec in S. destruct S as (S1 & S2 & S3).
      destruct Hdiff as [D | [D | D]]; congruence. }
    assert (R : r = (map (spawned config width height w) (seq 0 n),
                     mkWorld (entropy w) (drawn w + 3 * n) (nextObject w + n))).
    { subst r. unfold particleEffect. rewrite E. cbn [negb].
      unfold initParticles. rewrite spawnLoop_spec. reflexivity. }
    rewrite R. cbn [fst snd]. split; [reflexivity |].
    split; [rewrite length_map, length_seq; reflexivity |].
    split; [reflexivity |]. split.
    + intros o o' Ho Ho' Eq. apply in_map_iff in Ho'. destruct Ho' as (j & <- & _).
      rewrite Forall_forall in Hold. apply Hold in Ho.
      destruct (spawned_shape config width height w j) as (Hid & _).
      rewrite Eq, Hid in Ho. lia.
    + intros j Hj. exists (spawned config width height w j).
      destruct (spawned_shape config width height w j) as (Hid & Hx & Hy & Hv).
      split.
      * rewrite nth_error_map, nth_error_seq.
        destruct (Nat.ltb_spec j n); [reflexivity | lia].
      * repeat split; try assumption.
        destruct (direction config); cbn [travelVelocity]; congruence.
Qed.

(** ** Visualizer geometry *)

Lemma opEq_refl (a : CanvasOp) : opEq a a.
Proof. destruct a; cbn; reflexivity. Qed.

Lemma sameCalls_refl (l : list CanvasOp) : sameCalls l l.
Proof. induction l; constructor; [apply opEq_refl | assumption]. Qed.

Lemma sameCalls_app (l1 l2 m1 m2 : list CanvasOp) :
  sameCalls l1 m1 -> sameCalls l2 m2 -> sameCalls (l1 ++ l2) (m1 ++ m2).
Proof. apply Forall2_app. Qed.

Lemma sameCalls_flat_map {A : Type} (f g : A -> list CanvasOp) (l : list A) :
  (forall i, In i l -> sameCalls (f i) (g i)) ->
  sameCalls (flat_map f l) (flat_map g l).
Proof.
  induction l as [| a l IH]; intros H; cbn [flat_map].
  - constructor.
  - apply sameCalls_app; [apply H; left; reflexivity |].
    apply IH. intros i Hi. apply H. right. exact Hi.
Qed.

(** The calls of one [save/rotate/drawBar/restore] group of the code are
    the calls that draw a bar of the table, as the specification has it. *)
Lemma barAt_sameCalls (radius a a' : Q) (h : num) :
  (a == a')%Q -> sameCalls (barAt radius a h) (barCallsAt radius a' h).
Proof.
  intros H. unfold barAt, drawBar, barCallsAt, visible.
  destruct (numLt h (ofZ 1)); cbn [app negb];
    (constructor; [reflexivity |]); (constructor; [exact H |]); apply sameCalls_refl.
Qed.

Create HintDb calls.
#[local] Hint Resolve opEq_refl sameCalls_refl sameCalls_app barAt_sameCalls : calls.

Lemma flat_map_ext_in {A B : Type} (f g : A -> list B) (l : list A) :
  (forall i, In i l -> f i = g i) -> flat_map f l = flat_map g l.
Proof.
  induction l as [| a l IH]; intros H; cbn [flat_map]; [reflexivity |].
  rewrite (H a) by (left; reflexivity). f_equal.
  apply IH. intros i Hi. apply H. right. exact Hi.
Qed.

Lemma flat_map_map {A B C : Type} (f : A -> list B) (g : B -> C) (l : list A) :
  map g (flat_map f l) = flat_map (fun i => map g (f i)) l.
Proof.
  induction l as [| a l IH]; cbn [flat_map map]; [reflexivity |].
  rewrite map_app, IH. reflexivity.
Qed.

Lemma flat_map_flat_map {A B C : Type} (f : A -> list B) (g : B -> list C) (l : list A) :
  flat_map g (flat_map f l) = flat_map (fun i => flat_map g (f i)) l.
Proof.
  induction l as [| a l IH]; cbn [flat_map]; [reflexivity |].
  rewrite flat_map_app, IH. reflexivity.
Qed.

Lemma flat_map_length_const {A B : Type} (f : A -> list B) (l : list A) (k : nat) :
  (forall i, length (f i) = k) -> length (flat_map f l) = (length l * k)%nat.
Proof.
  intros H. induction l as [| a l IH]; cbn [flat_map length]; [reflexivity |].
  rewrite length_app, H, IH. lia.
Qed.

Lemma in_indices (count : Z) (i : nat) : In i (indices count) -> (i < Z.to_nat count)%nat.
Proof. unfold indices. rewrite in_seq. lia. Qed.

Lemma readByte_slice0 (n : Z) (data : list Z) (i : nat) :
  (i < Z.to_nat n)%nat -> readByte (slice0 n data) i = readByte data i.
Proof.
  intros H. unfold readByte, slice0. rewrite nth_error_firstn.
  destruct (Nat.ltb_spec i (Z.to_nat n)); [reflexivity | lia].
Qed.

Lemma offsetTable_length (r : Reflection.t) (a : Q) :
  length (offsetTable (foldFactor r) a) = Z.to_nat (foldFactor r).
Proof. destruct r; reflexivity. Qed.

Lemma clampedBarCount_range (config : VisualizerConfig) :
  8 <= clampedBarCount config <= 128.
Proof. unfold clampedBarCount. lia. Qed.

Lemma distinctCount_pos (config : VisualizerConfig) : 1 <= distinctCount config.
Proof.
  unfold distinctCount. pose proof (clampedBarCount_range config) as H.
  destruct (reflection config); cbn [foldFactor].
  - rewrite Z.div_1_r. lia.
  - apply Z.div_le_lower_bound; lia.
  - apply Z.div_le_lower_bound; lia.
  - apply Z.div_le_lower_bound; lia.
Qed.

(** The calls of the code are the calls that draw the bars of the table. *)
Lemma drawCircularVisualizer_bars (audioData : list Z) (logoRect : Rect)
    (config : VisualizerConfig) :
  sameCalls (drawCircularVisualizer audioData logoRect config)
            (prologue logoRect config
             ++ barCalls (radiusOf logoRect config)
                         (placements audioData logoRect config)
             ++ [Restore]).
Proof.
  unfold drawCircularVisualizer, barCalls, placements.
  apply sameCalls_app; [auto with calls |].
  apply sameCalls_app; [| auto with calls].
  rewrite flat_map_flat_map.
  unfold distinctCount, baseAngle, distinctCount, specHeight.
  fold (clampedBarCount config).
  destruct (reflection config); cbn [foldFactor offsetTable];
    rewrite ?Z.div_1_r;
    apply sameCalls_flat_map; intros i Hi; apply in_indices in Hi;
    cbn [map flat_map fst snd]; rewrite app_nil_r;
    unfold barHeightOf, maxBarHeightOf; rewrite readByte_slice0 by exact Hi;
    unfold angleOf;
    repeat (apply sameCalls_app; [apply barAt_sameCalls |]);
    try apply barAt_sameCalls;
    try (apply Qmult_comp; reflexivity).
  all: try (match goal with
            | |- (_ == _)%Q =>
                set (t := (inject_Z (Z.of_nat i) / inject_Z _)%Q);
                change (inject_Z 2) with 2%Q; change (inject_Z 4) with 4%Q;
                change (inject_Z 8) with 8%Q; field
            end).
Qed.

Lemma placements_length (audioData : list Z) (logoRect : Rect) (config : VisualizerConfig) :
  length (placements audioData logoRect config)
  = Z.to_nat (distinctCount config * foldFactor (reflection config)).
Proof.
  unfold placements.
  rewrite (flat_map_length_const _ _ (Z.to_nat (foldFactor (reflection config)))).
  - unfold indices. rewrite length_seq.
    pose proof (distinctCount_pos config).
    rewrite Z2Nat.inj_mul; [reflexivity | lia |].
    destruct (reflection config); cbn; lia.
  - intros i. rewrite length_map. apply offsetTable_length.
Qed.

Lemma placements_indices (audioData : list Z) (logoRect : Rect) (config : VisualizerConfig) :
  map (fun b => fst (fst b)) (placements audioData logoRect config)
  = flat_map (fun i => repeat i (Z.to_nat (foldFactor (reflection config))))
             (indices (distinctCount config)).
Proof.
  unfold placements. rewrite flat_map_map. apply flat_map_ext_in. intros i _.
  rewrite map_map. cbn [fst].
  destruct (reflection config); reflexivity.
Qed.

Lemma filter_flat_map {A B : Type} (p : B -> bool) (f : A -> list B) (l : list A) :
  filter p (flat_map f l) = flat_map (fun j => filter p (f j)) l.
Proof.
  induction l as [| a l IH]; cbn [flat_map]; [reflexivity |].
  rewrite filter_app, IH. reflexivity.
Qed.

Lemma flat_map_pick {B : Type} (g : nat -> list B) (i : nat) (l : list nat) :
  NoDup l -> In i l ->
  flat_map (fun j => if Nat.eqb j i then g j else []) l = g i.
Proof.
  induction 1 as [| a l Ha Hl IH]; intros Hi; [contradiction |].
  cbn [flat_map]. destruct (Nat.eqb_spec a i) as [-> | Hne].
  - rewrite (flat_map_ext_in _ (fun _ => [])).
    + assert (N : flat_map (fun _ : nat => @nil B) l = [])
        by (clear; induction l; [reflexivity | assumption]).
      rewrite N. apply app_nil_r.
    + intros j Hj. destruct (Nat.eqb_spec j i) as [-> | _]; [contradiction | reflexivity].
  - destruct Hi as [E | Hi]; [contradiction |]. cbn [app]. apply IH, Hi.
Qed.

Lemma placements_of_index (audioData : list Z) (logoRect : Rect)
    (config : VisualizerConfig) (i : nat) :
  (i < Z.to_nat (distinctCount config))%nat ->
  map (fun b => snd (fst b))
      (filter (fun b => Nat.eqb (fst (fst b)) i) (placements audioData logoRect config))
  = offsetTable (foldFactor (reflection config)) (baseAngle config i).
Proof.
  intros Hi. unfold placements. rewrite filter_flat_map.
  rewrite (flat_map_ext_in _
             (fun j => if Nat.eqb j i
                       then map (fun a => (j, a, specHeight audioData logoRect config j))
                                (offsetTable (foldFactor (reflection config))
                                             (baseAngle config j))
                       else [])).
  - rewrite flat_map_pick.
    + rewrite map_map. cbn [fst snd]. apply map_id.
    + apply seq_NoDup.
    + unfold indices. apply in_seq. lia.
  - intros j _.
    induction (offsetTable (foldFactor (reflection config)) (baseAngle config j))
      as [| a t IH]; cbn [map filter fst].
    + destruct (Nat.eqb j i); reflexivity.
    + rewrite IH. destruct (Nat.eqb j i); reflexivity.
Qed.

Lemma drawCircularVisualizer_dropped_bins (audioData : list Z) (logoRect : Rect)
    (config : VisualizerConfig) :
  drawCircularVisualizer (firstn (Z.to_nat (distinctCount config)) audioData)
                         logoRect config
  = drawCircularVisualizer audioData logoRect config.
Proof.
  unfold drawCircularVisualizer, distinctCount, slice0.
  fold (clampedBarCount config).
  destruct (reflection config); cbn [foldFactor];
    rewrite ?Z.div_1_r, firstn_firstn, Nat.min_id; reflexivity.
Qed.

(** C3. With fold factor F (none 1, two 2, four 4, eight 8) the engine
    draws bars for the distinctCount = floor (barCount / F) base indices
    0 .. distinctCount - 1 only, so later bins of the spectrum are dropped;
    base bar i has base angle a_i = (i / distinctCount) * (2 pi / F) and is
    drawn at exactly the F angular offsets of the reflection table.
    [barCount] is the bar count of the configuration brought into
    [8, 128], as the code does on entry.  Between the set-up of the
    gradient and the final [restore], the calls of the engine are those
    of the bars of the table and no others, each bar in a frame of its
    own: [save], [rotate] to its angle, the line from the base radius to
    the base radius plus its height when the height is at least 1,
    [restore].  With reflection four and a bar count of 100 there are 25
    base bars at 100 angular positions. *)
Theorem drawCircularVisualizer_reflection_table :
  forall (audioData : list Z) (logoRect : Rect) (config : VisualizerConfig),
    let F := foldFactor (reflection config) in
    let n := distinctCount config in
    let bars := placements audioData logoRect config in
    n = clampedBarCount config / F
    /\ sameCalls (drawCircularVisualizer audioData logoRect config)
                 (prologue logoRect config
                  ++ barCalls (radiusOf logoRect config) bars ++ [Restore])
    /\ map (fun b => fst (fst b)) bars
       = flat_map (fun i => repeat i (Z.to_nat F)) (seq 0 (Z.to_nat n))
    /\ length bars = Z.to_nat (n * F)
    /\ (forall i, (i < Z.to_nat n)%nat ->
          map (fun b => snd (fst b))
              (filter (fun b => Nat.eqb (fst (fst b)) i) bars)
          = offsetTable F ((inject_Z (Z.of_nat i) / inject_Z n) * (2 / inject_Z F))%Q)
    /\ drawCircularVisualizer (firstn (Z.to_nat n) audioData) logoRect config
       = drawCircularVisualizer audioData logoRect config
    /\ (8 <= barCount config <= 128 -> clampedBarCount config = barCount config)
    /\ (reflection config = Reflection.four -> barCount config = 100 ->
        n = 25 /\ length bars = 100%nat).
Proof.
  intros audioData logoRect config F n bars.
  split; [reflexivity |].
  split; [apply drawCircularVisualizer_bars |].
  split; [apply placements_indices |].
  split; [apply placements_length |].
  split; [intros i Hi; apply placements_of_index, Hi |].
  split; [apply drawCircularVisualizer_dropped_bins |].
  split; [unfold clampedBarCount; lia |].
  intros Hr Hb. subst bars. rewrite placements_length. subst n F.
  unfold distinctCount, clampedBarCount. rewrite Hr, Hb. split; reflexivity.
Qed.

(** ** Text layer *)

(** C10. The text layer paints the author text only when the main text is
    not empty: with an empty main text it makes no call at all, whatever
    the author text is; with a main text it paints the main text and then
    the author text if that is not empty. *)
Theorem drawText_author_needs_main :
  forall (width height : nat) (supportsLetterSpacing : bool) (config : TextConfig),
    let calls := drawText width height supportsLetterSpacing config in
    (mainText config = EmptyString -> calls = [])
    /\ (mainText config <> EmptyString -> authorText config <> EmptyString ->
        textsDrawn calls = [mainText config; authorText config])
    /\ (mainText config <> EmptyString -> authorText config = EmptyString ->
        textsDrawn calls = [mainText config])
    /\ (textsDrawn calls <> [] -> mainText config <> EmptyString).
Proof.
  intros width height ls config calls. subst calls. unfold drawText.
  destruct (mainText config) as [| c m] eqn:Em.
  - cbn [truthy]. repeat split; try congruence.
    cbn. congruence.
  - cbn [truthy]. split; [discriminate |].
    destruct (authorText config) as [| c' a] eqn:Ea; cbn [truthy];
      destruct ls; cbn; repeat split; congruence.
Qed.

(** ** Smoothing filter *)

Lemma storeByte_length (arr : list Z) (j : nat) (v : num) :
  length (storeByte arr j v) = length arr.
Proof.
  revert j. induction arr as [| b rest IH]; intros [| k]; cbn; try reflexivity.
  rewrite IH. reflexivity.
Qed.

Lemma storeByte_nth_error (arr : list Z) (j i : nat) (v : num) :
  nth_error (storeByte arr j v) i
  = if Nat.eqb i j && Nat.ltb j (length arr) then Some (toUint8 v) else nth_error arr i.
Proof.
  revert j i. induction arr as [| b rest IH]; intros j i.
  - cbn [storeByte length]. destruct j; rewrite andb_false_r; reflexivity.
  - destruct j as [| k], i as [| i']; cbn [storeByte nth_error length]; try reflexivity.
    rewrite IH. reflexivity.
Qed.

Lemma smoothLoop_length (a : Q) (raw : list Z) (iters j : nat) (sm : list Z) :
  length (smoothLoop a raw j iters sm) = length sm.
Proof.
  revert j sm. induction iters as [| k IH]; intros j sm; cbn [smoothLoop]; [reflexivity |].
  rewrite IH. apply storeByte_length.
Qed.

Lemma smoothLoop_nth_error (a : Q) (raw : list Z) (iters j : nat) (sm : list Z) (i : nat) :
  nth_error (smoothLoop a raw j iters sm) i
  = if Nat.leb j i && Nat.ltb i (j + iters) && Nat.ltb i (length sm)
    then Some (blendAt a sm raw i) else nth_error sm i.
Proof.
  revert j sm. induction iters as [| k IH]; intros j sm; cbn [smoothLoop].
  - replace (Nat.leb j i && Nat.ltb i (j + 0)) with false; [reflexivity |].
    destruct (Nat.leb_spec j i), (Nat.ltb_spec i (j + 0)); cbn; try reflexivity; lia.
  - rewrite IH, storeByte_length, storeByte_nth_error.
    destruct (Nat.leb_spec (S j) i), (Nat.leb_spec j i), (Nat.ltb_spec i (S j + k)),
      (Nat.ltb_spec i (j + S k)), (Nat.ltb_spec i (length sm)),
      (Nat.eqb_spec i j), (Nat.ltb_spec j (length sm)); cbn [andb]; try lia; try reflexivity.
    + unfold blendAt, readByte. rewrite storeByte_nth_error.
      destruct (Nat.eqb_spec i j); [lia |]. reflexivity.
    + subst i. reflexivity.
Qed.

Lemma smooth_nth_error (a : Q) (sm raw : list Z) (i : nat) :
  nth_error (smooth a (length sm) sm raw) i
  = if Nat.ltb i (length sm) then Some (blendAt a sm raw i) else None.
Proof.
  unfold smooth. rewrite smoothLoop_nth_error. cbn [Nat.leb Nat.add andb].
  destruct (Nat.ltb_spec i (length sm)); cbn [andb]; [reflexivity |].
  apply nth_error_None. lia.
Qed.

Lemma readByte_nth (l : list Z) (i : nat) :
  (i < length l)%nat -> readByte l i = ofZ (nth i l 0).
Proof.
  intros H. unfold readByte.
  destruct (nth_error l i) as [v |] eqn:E.
  - rewrite (nth_error_nth _ _ 0 E). reflexivity.
  - apply nth_error_None in E. lia.
Qed.

Lemma blendAt_blend (a : Q) (sm raw : list Z) (i : nat) :
  (i < length sm)%nat -> (i < length raw)%nat ->
  blendAt a sm raw i = blend a (nth i sm 0) (nth i raw 0).
Proof.
  intros H1 H2. unfold blendAt, blend. rewrite !readByte_nth by assumption. reflexivity.
Qed.

Lemma Qtrunc_nonneg (q : Q) : (0 <= q)%Q -> Qtrunc q = Qfloor q.
Proof.
  intros H. unfold Qtrunc, Qfloor. destruct q as [n d]. cbn [Qnum Qden].
  apply Z.quot_div_nonneg; [| reflexivity].
  unfold Qle in H. cbn in H. lia.
Qed.

Lemma smoothedAfter_length (a : Q) (R : list Z) (n : nat) :
  length (smoothedAfter a R n) = length R.
Proof.
  induction n as [| n IH]; cbn [smoothedAfter].
  - apply repeat_length.
  - unfold smooth. rewrite smoothLoop_length. exact IH.
Qed.

Lemma smoothedAfter_level (a : Q) (R : list Z) (n i : nat) :
  (i < length R)%nat ->
  nth i (smoothedAfter a R n) 0 = level a (nth i R 0) n.
Proof.
  intros Hi. induction n as [| n IH].
  - cbn [smoothedAfter level]. unfold newUint8Array. apply nth_repeat.
  - cbn [smoothedAfter level]. rewrite <- IH.
    pose proof (smoothedAfter_length a R n) as L.
    apply nth_error_nth. rewrite <- L, smooth_nth_error.
    destruct (Nat.ltb_spec i (length (smoothedAfter a R n))); [| lia].
    rewrite blendAt_blend by lia. reflexivity.
Qed.

(** With factor 0 the blend is the raw byte: [0 * s + (1 - 0) * r] is
    exact in doubles. *)
Lemma blend_zero (s r : Z) : 0 <= s <= 255 -> 0 <= r <= 255 -> blend 0 s r = r.
Proof.
  intros Hs Hr. unfold blend, Double.add, Double.mul, Double.sub, ofZ. cbn [nearest].
  rewrite (rnd_Z s), (rnd_Z r), (rnd_Z 1), (rnd_zero 0) by (try reflexivity; lia).
  cbn [numSub numNeg numAdd numMul nearest].
  assert (E1 : (inject_Z 1 + - 0 == inject_Z 1)%Q) by ring.
  rewrite (rnd_comp _ _ E1), (rnd_Z 1) by lia. cbn [nearest].
  rewrite (rnd_Z 1) by lia. cbn [numMul nearest].
  assert (E2 : (0 * inject_Z s == 0)%Q) by ring.
  assert (E3 : (inject_Z 1 * inject_Z r == inject_Z r)%Q) by ring.
  rewrite (rnd_zero _ E2), (rnd_comp _ _ E3), (rnd_Z r) by lia. cbn [nearest].
  rewrite (rnd_zero 0), (rnd_Z r) by (try reflexivity; lia). cbn [numAdd nearest].
  assert (E4 : (0 + inject_Z r == inject_Z r)%Q) by ring.
  rewrite (rnd_comp _ _ E4), (rnd_Z r) by lia. cbn [toUint8].
  rewrite Qtrunc_nonneg by (change 0%Q with (inject_Z 0); rewrite <- Zle_Qle; lia).
  rewrite Qfloor_Z. apply Z.mod_small. lia.
Qed.

Lemma nth_isByte (l : list Z) (i : nat) : Forall isByte l -> 0 <= nth i l 0 <= 255.
Proof.
  intros H. destruct (Nat.ltb_spec i (length l)) as [Hi | Hi].
  - rewrite Forall_forall in H. apply H, nth_In, Hi.
  - rewrite nth_overflow by lia. lia.
Qed.

(** With factor 0 a tick stores the raw input, whatever the state was. *)
Lemma smooth_zero (sm raw : list Z) :
  length sm = length raw -> Forall isByte sm -> Forall isByte raw ->
  smooth 0 (length raw) sm raw = raw.
Proof.
  intros L Hs Hb. apply nth_error_ext. intros i. rewrite <- L, smooth_nth_error.
  destruct (Nat.ltb_spec i (length sm)) as [Hi | Hi].
  - rewrite blendAt_blend by lia.
    destruct (nth_error raw i) as [v |] eqn:E; [| apply nth_error_None in E; lia].
    rewrite (nth_error_nth _ _ 0 E). f_equal.
    apply blend_zero; [apply nth_isByte, Hs |].
    rewrite Forall_forall in Hb. apply Hb. exact (nth_error_In _ _ E).
  - symmetry. apply nth_error_None. lia.
Qed.

Lemma smoothedAfter_99_stays (n : nat) : smoothedAfter (99#100) [99] n = [0].
Proof.
  induction n as [| n IH]; [reflexivity |].
  cbn [smoothedAfter]. rewrite IH. vm_compute. reflexivity.
Qed.

Lemma smoothedAfter_half_stalls (n : nat) : smoothedAfter (1#2) [255] (8 + n) = [254].
Proof.
  induction n as [| n IH].
  - vm_compute. reflexivity.
  - rewrite Nat.add_succ_r. cbn [smoothedAfter]. rewrite IH. vm_compute. reflexivity.
Qed.

(** C4. The code does not reach what the claim promises.  The smoothed
    state is an array of bytes, and a store into it drops the fraction of
    the blend.  With the factor 0.99 and the constant raw value 99 the
    blend of the first tick is 0.9900000000000009 in doubles, the byte
    stored is 0, and the state is 0 after every tick; with the factor 1/2
    and the raw value 255 the state climbs to 254 in eight ticks and stays
    there.  In neither run does the state converge to the raw input.  The
    other half of the claim holds: with the factor 0 a tick over bytes
    stores the raw input, whatever the state was. *)
Theorem smoothing_does_not_converge :
  (forall n, smoothedAfter (99#100) [99] n = [0])
  /\ ~ convergesTo (99#100) [99]
  /\ (forall n, smoothedAfter (1#2) [255] (8 + n) = [254])
  /\ ~ convergesTo (1#2) [255]
  /\ (forall sm raw : list Z,
        length sm = length raw -> Forall isByte sm -> Forall isByte raw ->
        smooth 0 (length raw) sm raw = raw).
Proof.
  split; [exact smoothedAfter_99_stays |]. split.
  { intros C. destruct (C 1%Q) as (n0 & H); [reflexivity |].
    specialize (H n0 0%nat). rewrite smoothedAfter_99_stays in H.
    cbn [nth length] in H.
    assert (L : (Qabs (inject_Z 0 - inject_Z 99) < 1)%Q) by (apply H; lia).
    vm_compute in L. discriminate. }
  split; [exact smoothedAfter_half_stalls |]. split.
  { intros C. destruct (C (1#2)%Q) as (n0 & H); [reflexivity |].
    specialize (H (8 + n0)%nat 0%nat). rewrite smoothedAfter_half_stalls in H.
    cbn [nth length] in H.
    assert (L : (Qabs (inject_Z 254 - inject_Z 255) < 1#2)%Q) by (apply H; lia).
    vm_compute in L. discriminate. }
  exact smooth_zero.
Qed.

(** ** Offline render job *)

Lemma sampleTimes_app (l1 l2 : list Effect) :
  sampleTimes (l1 ++ l2) = sampleTimes l1 ++ sampleTimes l2.
Proof. apply flat_map_app. Qed.

Lemma frameTimestamps_app (l1 l2 : list Effect) :
  frameTimestamps (l1 ++ l2) = frameTimestamps l1 ++ frameTimestamps l2.
Proof. apply flat_map_app. Qed.

Lemma finalizes_app (l1 l2 : list Effect) :
  finalizes (l1 ++ l2) = finalizes l1 || finalizes l2.
Proof. apply existsb_app. Qed.

Lemma downloads_app (l1 l2 : list Effect) :
  downloads (l1 ++ l2) = downloads l1 || downloads l2.
Proof. apply existsb_app. Qed.

Section FrameLoop.

Variable frameRate : Z.
Variable totalFrames : num.
Variable env : RenderEnv.
Variables width height bins : nat.

(** One iteration that is not cancelled: one sample, one frame. *)
Lemma frameLoop_iteration (k : nat) (i : Z) (raw sm : list Z)
    (ps : list ParticleObj) (s : JobState) :
  keepsRendering env i = true ->
  exists raw' sm' ps' s1,
    frameLoop frameRate totalFrames env width height bins (S k) i raw sm ps s
    = frameLoop frameRate totalFrames env width height bins k (i + 1) raw' sm' ps' s1
    /\ effects s1 = effects s
                    ++ [SpectrumSampled (Double.div (ofZ i) (ofZ frameRate));
                        FrameEncoded (Double.div (Double.mul (ofZ i) (ofZ 1000000))
                                                 (ofZ frameRate)) sm' ps']
    /\ error (ui s1) = error (ui s).
Proof.
  intros Hk. cbn [frameLoop]. rewrite Hk. cbn [negb].
  unfold andThen, emit, setUi, inWorld, done. cbn [ui effects world].
  destruct (enabled (particleConfig env)).
  - match goal with
    | |- context [updateParticles ?a ?b ?c ?d ?e ?f] =>
        destruct (updateParticles a b c d e f) as [ps' w']
    end.
    do 4 eexists. split; [reflexivity |]. cbn [effects ui]. rewrite <- app_assoc.
    split; reflexivity.
  - do 4 eexists. split; [reflexivity |]. cbn [effects ui]. rewrite <- app_assoc.
    split; reflexivity.
Qed.

Lemma frameLoop_cancelled (k : nat) (i : Z) (raw sm : list Z)
    (ps : list ParticleObj) (s : JobState) :
  keepsRendering env i = false ->
  frameLoop frameRate totalFrames env width height bins (S k) i raw sm ps s
  = (Threw "Render cancelled"%string,
     mkJobState (ui s) (effects s ++ [ConsoleLog "Rendering cancelled by user."%string])
                (world s)).
Proof. intros Hk. cbn [frameLoop]. rewrite Hk. reflexivity. Qed.

(** What the frame loop adds to the effects, and how it ends. *)
Lemma frameLoop_run :
  forall (iters : nat) (i : Z) (raw sm : list Z) (ps : list ParticleObj) (s : JobState),
    let r := frameLoop frameRate totalFrames env width height bins iters i raw sm ps s in
    let k := framesDone env iters i in
    sampleTimes (effects (snd r))
    = sampleTimes (effects s)
      ++ map (fun j => Double.div (ofZ (i + Z.of_nat j)) (ofZ frameRate)) (seq 0 k)
    /\ frameTimestamps (effects (snd r))
       = frameTimestamps (effects s)
         ++ map (fun j => Double.div (Double.mul (ofZ (i + Z.of_nat j)) (ofZ 1000000))
                                     (ofZ frameRate))
                (seq 0 k)
    /\ finalizes (effects (snd r)) = finalizes (effects s)
    /\ downloads (effects (snd r)) = downloads (effects s)
    /\ error (ui (snd r)) = error (ui s)
    /\ fst r = if Nat.eqb k iters then Returned tt else Threw "Render cancelled"%string.
Proof.
  induction iters as [| n IH]; intros i raw sm ps s.
  - cbn. rewrite !app_nil_r. repeat split; reflexivity.
  - cbv zeta. cbn [framesDone].
    destruct (keepsRendering env i) eqn:Hk.
    + destruct (frameLoop_iteration n i raw sm ps s Hk)
        as (raw' & sm' & ps' & s1 & -> & He & Hu).
      specialize (IH (i + 1) raw' sm' ps' s1). cbv zeta in IH.
      destruct IH as (I1 & I2 & I3 & I4 & I5 & I6).
      rewrite I1, I2, I3, I4, I5, I6, He, Hu.
      rewrite sampleTimes_app, frameTimestamps_app, finalizes_app, downloads_app.
      cbn [sampleTimes frameTimestamps finalizes downloads flat_map existsb app orb].
      rewrite !orb_false_r, <- !app_assoc. cbn [app seq map].
      rewrite <- seq_shift, !map_map, Z.add_0_r.
      assert (E : forall j, i + 1 + Z.of_nat j = i + Z.of_nat (S j)) by (intros; lia).
      repeat split; try reflexivity.
      * do 2 f_equal. apply map_ext. intros j. rewrite E. reflexivity.
      * do 2 f_equal. apply map_ext. intros j. rewrite E. reflexivity.
    + rewrite (frameLoop_cancelled n i raw sm ps s Hk). cbn [fst snd effects ui].
      rewrite sampleTimes_app, frameTimestamps_app, finalizes_app, downloads_app.
      cbn. rewrite !app_nil_r, !orb_false_r. repeat split; reflexivity.
Qed.

Lemma framesDone_all (iters : nat) (i : Z) :
  (forall j, i <= j < i + Z.of_nat iters -> keepsRendering env j = true) ->
  framesDone env iters i = iters.
Proof.
  revert i. induction iters as [| n IH]; intros i H; [reflexivity |].
  cbn [framesDone]. rewrite H by lia. f_equal. apply IH. intros j Hj. apply H. lia.
Qed.

Lemma framesDone_first (iters : nat) (i : Z) (k : nat) :
  (k < iters)%nat ->
  (forall j, i <= j < i + Z.of_nat k -> keepsRendering env j = true) ->
  keepsRendering env (i + Z.of_nat k) = false ->
  framesDone env iters i = k.
Proof.
  revert i k. induction iters as [| n IH]; intros i k Hk Hgo Hstop; [lia |].
  cbn [framesDone]. destruct k as [| k].
  - rewrite Z.add_0_r in Hstop. rewrite Hstop. reflexivity.
  - rewrite Hgo by lia. f_equal. apply IH; [lia | |].
    + intros j Hj. apply Hgo. lia.
    + rewrite <- Hstop. f_equal. lia.
Qed.

End FrameLoop.

(** The job once it is set up: what it leaves in the effects, and how the
    [try] block ends. *)
Lemma renderJob_run (frameRate : Z) (env : RenderEnv) (width height : nat)
    (audioDuration : num) (bins : nat) (s : JobState) :
  decodeFailure env = None -> context2d env = true ->
  effects s = [AudioContextCreated] ->
  let r := renderJob frameRate env width height audioDuration bins s in
  let iters := iterations (totalFramesOf frameRate audioDuration) in
  let k := framesDone env iters 0 in
  sampleTimes (effects (snd r)) = timestamps frameRate k
  /\ length (frameTimestamps (effects (snd r))) = k
  /\ finalizes (effects (snd r)) = Nat.eqb k iters
  /\ downloads (effects (snd r)) = Nat.eqb k iters
  /\ error (ui (snd r)) = error (ui s)
  /\ fst r = if Nat.eqb k iters then Returned tt else Threw "Render cancelled"%string.
Proof.
  intros Hd Hc He r iters k. subst r. unfold renderJob. rewrite Hd, Hc.
  cbv [andThen emit setUi inWorld done throw]. cbn [ui effects world fst snd].
  rewrite He. cbn [app].
  set (pre := [AudioContextCreated; AudioDecoded; MuxerCreated width height frameRate;
               VideoEncoderConfigured width height frameRate;
               AudioEncoderConfigured; AudioEncoded; AudioEncoderFlushed;
               AudioPaused; AudioSeeked 0]).
  assert (P : sampleTimes pre = [] /\ frameTimestamps pre = []
              /\ finalizes pre = false /\ downloads pre = false)
    by (repeat split; reflexivity).
  destruct P as (P1 & P2 & P3 & P4).
  assert (G : forall (ps : list ParticleObj) (w : World),
    let s0 := mkJobState (setRenderMessage "Rendering video frames..."
                            (setRenderMessage "Encoding audio..." (ui s))) pre w in
    let r := match frameLoop frameRate (totalFramesOf frameRate audioDuration) env
                     width height bins iters 0 (newUint8Array bins) (newUint8Array bins)
                     ps s0 with
             | (Returned _, s') =>
                 (Returned tt,
                  mkJobState (setRenderMessage "Packing MP4 file..."
                                (setRenderMessage "Finalizing video..." (ui s')))
                    (((effects s' ++ [VideoEncoderFlushed]) ++ [MuxerFinalized])
                     ++ [FileDownloaded ("Success visualizer - "
                                         ++ orVideo (projectName env) ++ ".mp4")])
                    (world s'))
             | (Threw e, s') => (Threw e, s')
             end in
    sampleTimes (effects (snd r)) = timestamps frameRate k
    /\ length (frameTimestamps (effects (snd r))) = k
    /\ finalizes (effects (snd r)) = Nat.eqb k iters
    /\ downloads (effects (snd r)) = Nat.eqb k iters
    /\ error (ui (snd r)) = error (ui s)
    /\ fst r = if Nat.eqb k iters then Returned tt else Threw "Render cancelled"%string).
  { intros ps w s0.
    pose proof (frameLoop_run frameRate (totalFramesOf frameRate audioDuration) env
                  width height bins iters 0 (newUint8Array bins) (newUint8Array bins)
                  ps s0) as L.
    cbv zeta in L. fold k in L.
    destruct (frameLoop _ _ _ _ _ _ _ _ _ _ _ s0) as [out s2].
    cbn [fst snd] in L. destruct L as (L1 & L2 & L3 & L4 & L5 & L6).
    subst s0. cbn [effects ui] in L1, L2, L3, L4, L5.
    rewrite P1 in L1. rewrite P2 in L2. rewrite P3 in L3. rewrite P4 in L4.
    cbn [app] in L1, L2.
    assert (T : map (fun j => Double.div (ofZ (0 + Z.of_nat j)) (ofZ frameRate)) (seq 0 k)
                = timestamps frameRate k)
      by (apply map_ext; intros j; rewrite Z.add_0_l; reflexivity).
    rewrite T in L1. subst out.
    destruct (Nat.eqb k iters); cbn [fst snd effects ui].
    - rewrite !sampleTimes_app, !frameTimestamps_app, !finalizes_app, !downloads_app.
      cbn [sampleTimes frameTimestamps finalizes downloads flat_map existsb app].
      rewrite !app_nil_r, L1, L2, L3, L4, length_map, length_seq.
      repeat split; try reflexivity. exact L5.
    - rewrite L1, L2, L3, L4, length_map, length_seq.
      repeat split; try reflexivity. exact L5. }
  destruct (enabled (particleConfig env)).
  - match goal with
    | |- context [initParticles ?a ?b ?c ?d ?e] =>
        destruct (initParticles a b c d e) as [ps w]
    end.
    exact (G ps w).
  - exact (G [] (world s)).
Qed.

Lemma handleRenderVideoAt_run (frameRate : Z) (env : RenderEnv) (s : JobState)
    (width height : nat) (audioDuration : Q) (bins : nat) :
  starts env s width height audioDuration bins ->
  let s' := handleRenderVideoAt frameRate env s in
  let iters := iterations (totalFramesOf frameRate (Fin audioDuration)) in
  let k := framesDone env iters 0 in
  sampleTimes (effects s') = timestamps frameRate k
  /\ length (frameTimestamps (effects s')) = k
  /\ finalizes (effects s') = Nat.eqb k iters
  /\ downloads (effects s') = Nat.eqb k iters
  /\ error (ui s')
     = (if Nat.eqb k iters then None
        else Some "Rendering failed: Render cancelled. Check console for details."%string)
  /\ isRendering (ui s') = false.
Proof.
  intros (Hcv & Hau & Hf & Han & Hr & Hd & Hc & He) s' iters k.
  subst s'. unfold handleRenderVideoAt. rewrite Hcv, Hau, Hf, Han, Hr.
  cbn [durationOf]. cbv zeta.
  unfold tryCatchFinally.
  set (s0 := mkJobState _ (effects s ++ [AudioContextCreated]) (world s)).
  assert (E0 : effects s0 = [AudioContextCreated]) by (subst s0; cbn; rewrite He; reflexivity).
  pose proof (renderJob_run frameRate env width height (Fin audioDuration) bins s0 Hd Hc E0)
    as R.
  cbv zeta in R. fold iters in R. fold k in R.
  destruct (renderJob frameRate env width height (Fin audioDuration) bins s0) as [out s1].
  cbn [fst snd] in R. destruct R as (R1 & R2 & R3 & R4 & R5 & R6). subst out.
  destruct (Nat.eqb k iters); cbn [effects ui error isRendering setCurrentTime
    setRenderMessage setRenderProgress setIsRendering setError];
    rewrite ?sampleTimes_app, ?frameTimestamps_app, ?finalizes_app, ?downloads_app;
    cbn [sampleTimes frameTimestamps finalizes downloads flat_map existsb app];
    rewrite ?app_nil_r, ?orb_false_r, R1, R2, R3, R4;
    repeat split; try reflexivity.
  rewrite R5. reflexivity.
Qed.


Lemma inject_Z_pos (z : Z) : 0 < z -> (0 < inject_Z z)%Q.
Proof. intros H. change 0%Q with (inject_Z 0). rewrite <- Zlt_Qlt. exact H. Qed.

Lemma inject_Z_nonneg (z : Z) : 0 <= z -> (0 <= inject_Z z)%Q.
Proof. intros H. change 0%Q with (inject_Z 0). rewrite <- Zle_Qle. exact H. Qed.

(** The quotient of two whole numbers below 2^53, in doubles. *)
Lemma Double_div_Z (i r : Z) :
  0 <= i <= 2 ^ 53 -> 0 < r <= 2 ^ 53 ->
  Double.div (ofZ i) (ofZ r) = rnd (inject_Z i / inject_Z r).
Proof.
  intros Hi Hr. unfold Double.div, ofZ. cbn [nearest].
  rewrite (rnd_Z i), (rnd_Z r) by lia. cbn [numDiv].
  rewrite Qeq_bool_false; [reflexivity |].
  pose proof (inject_Z_pos r ltac:(lia)). lra.
Qed.




(** The frame count of an audio of up to 2^32 seconds at a frame rate of
    up to 2^16 is a whole number that is not negative. *)
Lemma totalFrames_finite (audioDuration : Q) (frameRate : Z) :
  (0 <= audioDuration <= inject_Z (2 ^ 32))%Q -> 0 < frameRate <= 2 ^ 16 ->
  exists totalFrames : Z,
    totalFramesOf frameRate (Fin audioDuration) = ofZ totalFrames
    /\ 0 <= totalFrames <= 2 ^ 48.
Proof.
  intros Hd Hr. unfold totalFramesOf, Double.mul, ofZ. cbn [nearest].
  assert (B : 2 ^ 16 < 2 ^ 53) by (apply Z.pow_lt_mono_r; lia).
  destruct (rnd_between 0 (inject_Z (2 ^ 32)) audioDuration) as (d' & -> & Hd');
    [apply (isDouble_small 0); lia | apply isDouble_Z; vm_compute; discriminate | exact Hd |].
  rewrite (rnd_Z frameRate) by lia. cbn [numMul nearest].
  assert (R0 : (0 < inject_Z frameRate <= inject_Z (2 ^ 16))%Q).
  { split; [apply inject_Z_pos; lia | rewrite <- Zle_Qle; lia]. }
  assert (P : (0 <= d' * inject_Z frameRate <= inject_Z (2 ^ 48))%Q).
  { split; [apply Qmult_le_0_compat; lra |].
    change (inject_Z (2 ^ 48)) with (inject_Z (2 ^ 32) * inject_Z (2 ^ 16))%Q.
    apply Qle_trans with (inject_Z (2 ^ 32) * inject_Z frameRate)%Q.
    - apply Qmult_le_compat_r; lra.
    - apply Qmult_le_l; [reflexivity | lra]. }
  destruct (rnd_between 0 (inject_Z (2 ^ 48)) _ (isDouble_small 0 ltac:(lia))
              (isDouble_Z (2 ^ 48) ltac:(vm_compute; discriminate)) P)
    as (y & -> & Hy).
  cbn [numFloor]. exists (Qfloor y). split; [reflexivity |].
  split.
  - change 0 with (Qfloor 0). apply Qfloor_resp_le. lra.
  - rewrite <- (Qfloor_Z (2 ^ 48)). apply Qfloor_resp_le. lra.
Qed.

Lemma iterations_ofZ (t : Z) : iterations (ofZ t) = Z.to_nat (t + 1).
Proof. unfold iterations, ofZ. rewrite Qfloor_Z. reflexivity. Qed.


(** C2, as the code has it. A job cancelled at a frame boundary (the flag
    first reads false at the top of iteration k, one of the iterations of
    the loop) has encoded exactly k frames, never finalizes the muxer and
    offers no file; the cancellation reaches the caller as a thrown error
    through the handler of failures, which stores the message "Rendering
    failed: Render cancelled. ..." in the error state that the page shows
    in its error banner. *)
Theorem handleRenderVideo_cancelled :
  forall (env : RenderEnv) (s : JobState) (width height : nat)
         (audioDuration : Q) (bins : nat) (k : nat),
    starts env s width height audioDuration bins ->
    (k < iterations (totalFramesOf 30 (Fin audioDuration)))%nat ->
    (forall i, 0 <= i < Z.of_nat k -> keepsRendering env i = true) ->
    keepsRendering env (Z.of_nat k) = false ->
    let s' := handleRenderVideo env s in
    finalizes (effects s') = false
    /\ downloads (effects s') = false
    /\ length (frameTimestamps (effects s')) = k
    /\ sampleTimes (effects s') = timestamps 30 k
    /\ error (ui s')
       = Some "Rendering failed: Render cancelled. Check console for details."%string
    /\ errorBanner (ui s')
       = Some "Error: Rendering failed: Render cancelled. Check console for details."%string
    /\ isRendering (ui s') = false.
Proof.
  intros env s width height audioDuration bins k Hst Hk Hgo Hstop s'.
  destruct (handleRenderVideoAt_run 30 env s width height audioDuration bins Hst)
    as (R1 & R2 & R3 & R4 & R5 & R6).
  set (iters := iterations (totalFramesOf 30 (Fin audioDuration))) in *.
  assert (F : framesDone env iters 0 = k).
  { apply framesDone_first; [exact Hk | intros j Hj; apply Hgo; lia | exact Hstop]. }
  rewrite F in *.
  assert (N : Nat.eqb k iters = false) by (apply Nat.eqb_neq; lia).
  rewrite N in *. subst s'. unfold handleRenderVideo.
  repeat split; try assumption.
  unfold errorBanner. rewrite R5. reflexivity.
Qed.

(** ** Concrete runs *)

Lemma appEnv_starts (d : Q) (cancelAt : option Z) :
  starts (appEnv d None cancelAt) (idle halves) 1280 720 d 128.
Proof. repeat split; reflexivity. Qed.

Lemma ofZ_inj (a b : Z) : ofZ a = ofZ b -> a = b.
Proof. unfold ofZ, inject_Z. intros H. injection H as H. exact H. Qed.


Lemma handleRenderVideo_cancelled_witness :
  starts (appEnv 2 None (Some 10)) (idle halves) 1280 720 2 128
  /\ keepsRendering (appEnv 2 None (Some 10)) 10 = false
  /\ finalizes (effects (handleRenderVideo (appEnv 2 None (Some 10)) (idle halves))) = false.
Proof.
  split; [apply appEnv_starts |]. split; [reflexivity |].
  refine (proj1 (handleRenderVideo_cancelled (appEnv 2 None (Some 10)) (idle halves)
                   1280 720 2 128 10 (appEnv_starts 2 (Some 10)) _ _ _)).
  - vm_compute. lia.
  - intros i Hi. cbn. destruct (Z.eqb_spec i 10); [lia | reflexivity].
  - reflexivity.
Defined.

(** C2, as stated, fails: a job of 2 seconds cancelled at the top of
    iteration 10 ends with the error state set, and the page shows the
    cancellation in its error banner in the words it uses for a failure of
    the decoder. *)
Lemma cancellation_is_shown_as_error :
  let cancelled := handleRenderVideo (appEnv 2 None (Some 10)) (idle halves) in
  let failed := handleRenderVideo (appEnv 2 (Some "Unable to decode audio data"%string) None)
                                  (idle halves) in
  keepsRendering (appEnv 2 None (Some 10)) 10 = false
  /\ finalizes (effects cancelled) = false
  /\ errorBanner (ui cancelled)
     = Some "Error: Rendering failed: Render cancelled. Check console for details."%string
  /\ errorBanner (ui failed)
     = Some "Error: Rendering failed: Unable to decode audio data. Check console for details."%string
  /\ errorBanner (ui cancelled) <> None.
Proof.
  intros cancelled failed.
  destruct (handleRenderVideoAt_run 30 (appEnv 2 None (Some 10)) (idle halves)
              1280 720 2 128 (appEnv_starts 2 (Some 10))) as (_ & _ & R3 & _ & R5 & _).
  assert (F : framesDone (appEnv 2 None (Some 10))
                (iterations (totalFramesOf 30 (Fin 2))) 0 = 10%nat)
    by (vm_compute; reflexivity).
  rewrite F in R3, R5.
  assert (N : Nat.eqb 10 (iterations (totalFramesOf 30 (Fin 2))) = false)
    by (vm_compute; reflexivity).
  rewrite N in R3, R5.
  assert (B : errorBanner (ui cancelled)
              = Some "Error: Rendering failed: Render cancelled. Check console for details."%string).
  { unfold errorBanner. subst cancelled. unfold handleRenderVideo. rewrite R5. reflexivity. }
  split; [reflexivity |]. split; [exact R3 |]. split; [exact B |].
  split; [reflexivity |]. rewrite B. discriminate.
Qed.

(** A tick over two particles that travel to the bottom edge of a frame
    720 high, at the speed 0.3 and under a spectrum with a silent bass
    band.  The first moves from 724.7 to 725, which is on the margin and
    not past it, and stays; the second moves from 724.9 past the margin
    and is put back at -5, in the middle of the width by the value 1/2 of
    the random source. *)
Lemma updateParticles_move_and_respawn_witness :
  let config := mkParticleConfig true 2 "#FFFFFF" 10 Dir.top (3#10) in
  let spectrum := [0; 200; 13; 255; 7; 0; 90; 31; 4; 250] in
  let particles := [mkObj 0 (mkParticle (ofZ 3) (Fin (7247#10)) (ofZ 0) (ofZ 1));
                    mkObj 1 (mkParticle (ofZ 100) (Fin (7249#10)) (ofZ 0) (Fin (3#2)))] in
  let r := updateParticles particles config 1280 720 (bassIntensityOf (Some spectrum))
                           (mkWorld halves 6 2) in
  Forall isByte spectrum
  /\ nth_error (fst r) 0 = Some (mkObj 0 (mkParticle (ofZ 3) (ofZ 725) (ofZ 0) (ofZ 1)))
  /\ nth_error (fst r) 1 = Some (mkObj 1 (mkParticle (Fin ((1#2) * 1280)) (ofZ (-5)) (ofZ 0) (Fin (3#2))))
  /\ snd r = mkWorld halves 7 2.
Proof.
  intros config spectrum particles r.
  assert (Hs : Forall isByte spectrum)
    by (repeat constructor; unfold isByte; lia).
  split; [exact Hs |].
  destruct (updateParticles_move_and_respawn config 1280 720 spectrum particles
              (mkWorld halves 6 2) Hs) as (_ & _ & H & W).
  fold r in H, W.
  split; [rewrite (H 0%nat _ eq_refl); vm_compute; reflexivity |].
  split; [rewrite (H 1%nat _ eq_refl); vm_compute; reflexivity |].
  rewrite W. vm_compute. reflexivity.
Defined.

Lemma halves_unit : forall k : nat, (0 <= halves k < 1)%Q.
Proof. intros k. split; [discriminate | reflexivity]. Qed.

Lemma particles_stay_within_margin_witness :
  (0 <= speed defaultParticleConfig)%Q
  /\ Forall (Forall isByte) [[255; 128; 0; 7]; [0; 0; 0; 0]; [255; 255; 255; 255]]
  /\ Forall (fun o => withinMargin Dir.top 1280 720 (fields o))
       (fst (runTicks (fst (initParticles [] defaultParticleConfig 1280 720
                              (mkWorld halves 0 0)))
               defaultParticleConfig 1280 720
               (map (fun s => bassIntensityOf (Some s))
                    [[255; 128; 0; 7]; [0; 0; 0; 0]; [255; 255; 255; 255]])
               (snd (initParticles [] defaultParticleConfig 1280 720
                       (mkWorld halves 0 0))))).
Proof.
  assert (Hs : (0 <= speed defaultParticleConfig)%Q) by discriminate.
  assert (Hb : Forall (Forall isByte)
                 [[255; 128; 0; 7]; [0; 0; 0; 0]; [255; 255; 255; 255]])
    by (repeat constructor; unfold isByte; lia).
  split; [exact Hs |]. split; [exact Hb |].
  refine (particles_stay_within_margin defaultParticleConfig 1280 720 []
            [[255; 128; 0; 7]; [0; 0; 0; 0]; [255; 255; 255; 255]]
            (mkWorld halves 0 0) halves_unit Hs _ _ Hb); vm_compute; reflexivity.
Defined.

(** An array of two particles, moved from where they were made.  A new
    colour, blur and speed leave the array and the random source as they
    are; a new count replaces the array by three new objects, made from
    nine values of the random source. *)
Lemma particleEffect_reconfigure_witness :
  let particles := [mkObj 0 (mkParticle (ofZ 640) (ofZ 12) (ofZ 0) (Fin (3#2)));
                    mkObj 1 (mkParticle (ofZ 17) (ofZ 700) (ofZ 0) (Fin (5#4)))] in
  let w := mkWorld halves 6 2 in
  Forall (fun o => (ident o < nextObject w)%nat) particles
  /\ particleEffect (Some defaultParticleConfig)
       (mkParticleConfig true 150 "#FF0000" 3 Dir.top 2)
       (Some (1280%nat, 720%nat)) particles w
     = (particles, w)
  /\ (let r := particleEffect (Some defaultParticleConfig)
                 (mkParticleConfig true 3 "#FFFFFF" 10 Dir.top (5#10))
                 (Some (1280%nat, 720%nat)) particles w in
      map ident (fst r) = [2; 3; 4]%nat
      /\ snd r = mkWorld halves 15 5
      /\ forall o o', In o particles -> In o' (fst r) -> ident o <> ident o').
Proof.
  intros particles w.
  assert (Hold : Forall (fun o => (ident o < nextObject w)%nat) particles)
    by (repeat constructor).
  split; [exact Hold |]. split.
  - refine (proj1 (particleEffect_reconfigure defaultParticleConfig
                     (mkParticleConfig true 150 "#FF0000" 3 Dir.top 2)
                     1280 720 particles w Hold) _).
    exists "#FF0000"%string, 3%Q, 2%Q. reflexivity.
  - destruct (proj2 (particleEffect_reconfigure defaultParticleConfig
                       (mkParticleConfig true 3 "#FFFFFF" 10 Dir.top (5#10))
                       1280 720 particles w Hold)) as (E & _ & W & D & _).
    + left. discriminate.
    + cbv zeta. split; [rewrite E; reflexivity |]. split; [exact W | exact D].
Defined.

(** The geometry of the initial configuration: reflection four and 100
    bars give 25 base bars at 100 angular positions. *)
Example default_geometry :
  distinctCount defaultVisualizerConfig = 25
  /\ length (placements (repeat 128 128) (mkRect 0 0 144 144) defaultVisualizerConfig)
     = 100%nat.
Proof. split; reflexivity. Qed.

Example default_geometry_third_bar :
  map Qred (offsetTable 4 (baseAngle defaultVisualizerConfig 5))
  = [(1#10)%Q; (-1#10)%Q; (9#10)%Q; (11#10)%Q].
Proof. reflexivity. Qed.

(** The last timestamps of an audio of two seconds: the doubles nearest
    to 29/15 and 59/30, and 2. *)
Example last_timestamp_of_two_seconds :
  skipn 58 (timestamps 30 61) = [rnd (29#15); rnd (59#30); ofZ 2].
Proof. vm_compute. reflexivity. Qed.

(** The frame count is the floor of a product of doubles: an audio of 0.7
    seconds has 21 frames after the first, since 0.7 * 30 is 21 in
    doubles, and one of 4.1 seconds 122, since 4.1 * 30 is
    122.99999999999999. *)
Example frame_counts_in_doubles :
  totalFramesOf 30 (Fin (7#10)) = ofZ 21
  /\ totalFramesOf 30 (Fin (41#10)) = ofZ 122
  /\ totalFramesOf 30 (Fin 2) = ofZ 60
  /\ iterations (totalFramesOf 30 NaN) = 0%nat.
Proof. repeat split; vm_compute; reflexivity. Qed.

Example averages_of_ten_bins :
  getAudioAverages (Some [10; 20; 30; 40; 50; 60; 70; 80; 90; 100])
  = mkAverages (Fin (10#1)) (Fin (90#3)) (Fin (550#10)).
Proof. reflexivity. Qed.

Example averages_of_three_bins_have_no_bass_band :
  bass (getAudioAverages (Some [10; 20; 30])) = ofZ 0.
Proof. reflexivity. Qed.

Example half_smoothing_of_255 :
  map (fun n => smoothedAfter (1#2) [255] n) (seq 0 10)
  = [[0]; [127]; [191]; [223]; [239]; [247]; [251]; [253]; [254]; [254]].
Proof. vm_compute. reflexivity. Qed.

(** The blend of doubles can fall short of a whole number that the exact
    blend reaches: with the factor 0.01, at the raw value 3 a bin that
    holds 3 is stored as 2, since 0.01 * 3 + 0.99 * 3 is
    2.9999999999999996. *)
Example blend_falls_short : blend (1#100) 3 3 = 2.
Proof. vm_compute. reflexivity. Qed.

Example default_text :
  textsDrawn (drawText 1280 720 true defaultTextConfig)
  = ["wonderful music"%string; "by Sound Fold Studio"%string].
Proof. reflexivity. Qed.

(** * Further properties *)

(** ** Smoothing filter: the blend in doubles *)

Lemma smooth_nth (a : Q) (sm raw : list Z) (i : nat) :
  length sm = length raw -> (i < length raw)%nat ->
  nth i (smooth a (length raw) sm raw) 0 = blend a (nth i sm 0) (nth i raw 0).
Proof.
  intros L Hi. apply nth_error_nth. rewrite <- L, smooth_nth_error.
  destruct (Nat.ltb_spec i (length sm)); [| lia].
  rewrite blendAt_blend by lia. reflexivity.
Qed.

Lemma smooth_length (a : Q) (n : nat) (sm raw : list Z) :
  length (smooth a n sm raw) = length sm.
Proof. unfold smooth. apply smoothLoop_length. Qed.

Lemma pow2_small (k : Z) : (k <= -10)%Z -> (pow2 k <= 1 # 1024)%Q.
Proof.
  intros H. change (1 # 1024)%Q with (pow2 (-10)). apply pow2_le. exact H.
Qed.

(** The blend before it is stored: a double that is within one unit of
    the interval between the two bytes, and not negative. *)
Lemma blend_near (a : Q) (s r : Z) :
  (0 <= a <= 1)%Q -> 0 <= s <= 255 -> 0 <= r <= 255 ->
  exists v : Q,
    Double.add (Double.mul (Fin a) (ofZ s))
               (Double.mul (Double.sub (ofZ 1) (Fin a)) (ofZ r)) = Fin v
    /\ (0 <= v)%Q
    /\ (inject_Z (Z.min s r) - 1 < v < inject_Z (Z.max s r) + 1)%Q.
Proof.
  intros Ha Hs Hr.
  destruct (rnd_unit a Ha) as (a' & Ea & Ha').
  assert (D0 : isDouble 0) by (apply (isDouble_small 0); lia).
  assert (D1 : isDouble 1) by (apply (isDouble_small 1); lia).
  assert (QS : (0 <= inject_Z s <= 255)%Q).
  { change 0%Q with (inject_Z 0). change 255%Q with (inject_Z 255).
    rewrite <- !Zle_Qle. exact Hs. }
  assert (QR : (0 <= inject_Z r <= 255)%Q).
  { change 0%Q with (inject_Z 0). change 255%Q with (inject_Z 255).
    rewrite <- !Zle_Qle. exact Hr. }
  assert (Qm : (inject_Z (Z.min s r) <= inject_Z s /\ inject_Z (Z.min s r) <= inject_Z r)%Q)
    by (rewrite <- !Zle_Qle; lia).
  assert (QM : (inject_Z s <= inject_Z (Z.max s r) /\ inject_Z r <= inject_Z (Z.max s r))%Q)
    by (rewrite <- !Zle_Qle; lia).
  set (S := inject_Z s) in *. set (R := inject_Z r) in *.
  set (lo := inject_Z (Z.min s r)) in *. set (hi := inject_Z (Z.max s r)) in *.
  pose proof (pow2_small (8 - 54) ltac:(lia)) as E8.
  pose proof (pow2_small (1 - 54) ltac:(lia)) as E1.
  pose proof (pow2_small (10 - 54) ltac:(lia)) as E10.
  assert (P8 : (255 < pow2 8)%Q) by reflexivity.
  assert (P1 : (1 < pow2 1)%Q) by reflexivity.
  assert (P10 : (1023 < pow2 10)%Q) by reflexivity.
  (* the first product *)
  assert (A1 : (0 <= a' * S <= 255)%Q) by nra.
  destruct (rnd_near (a' * S) 8 ltac:(lra) ltac:(lra) ltac:(lia)) as (p1 & Ep1 & N1a & N1b).
  pose proof (rnd_lower 0 (a' * S) D0 ltac:(lra)) as L1.
  rewrite Ep1 in L1. apply numLe_Fin in L1.
  (* one minus the factor *)
  destruct (rnd_near (1 + - a') 1 ltac:(lra) ltac:(lra) ltac:(lia)) as (o & Eo & No1 & No2).
  pose proof (rnd_lower 0 (1 + - a') D0 ltac:(lra)) as Lo.
  rewrite Eo in Lo. apply numLe_Fin in Lo.
  pose proof (rnd_upper 1 (1 + - a') D1 ltac:(lra)) as Uo.
  rewrite Eo in Uo. apply numLe_Fin in Uo.
  (* the second product *)
  assert (A2 : (0 <= o * R <= 255)%Q) by nra.
  destruct (rnd_near (o * R) 8 ltac:(lra) ltac:(lra) ltac:(lia)) as (p2 & Ep2 & N2a & N2b).
  pose proof (rnd_lower 0 (o * R) D0 ltac:(lra)) as L2.
  rewrite Ep2 in L2. apply numLe_Fin in L2.
  (* the sum *)
  assert (A3 : (0 <= p1 + p2 <= 1023)%Q) by lra.
  destruct (rnd_near (p1 + p2) 10 ltac:(lra) ltac:(lra) ltac:(lia)) as (v & Ev & N3a & N3b).
  pose proof (rnd_lower 0 (p1 + p2) D0 ltac:(lra)) as L3.
  rewrite Ev in L3. apply numLe_Fin in L3.
  exists v. split.
  - unfold Double.add, Double.mul, Double.sub. rewrite !nearest_idem.
    rewrite !nearest_ofZ by lia. unfold ofZ. cbn [nearest]. rewrite Ea.
    cbn [numMul numSub numNeg numAdd nearest]. fold S R.
    change (inject_Z 1) with 1%Q. rewrite Ep1, Eo.
    cbn [numMul nearest]. rewrite Ep2. cbn [numAdd nearest]. exact Ev.
  - split; [exact L3 |].
    assert (B1 : (0 <= (o - (1 + - a') + (1 # 1024)) * R)%Q)
      by (apply Qmult_le_0_compat; lra).
    assert (B2 : (0 <= ((1 + - a') + (1 # 1024) - o) * R)%Q)
      by (apply Qmult_le_0_compat; lra).
    assert (C1 : (0 <= a' * (S - lo))%Q) by (apply Qmult_le_0_compat; lra).
    assert (C2 : (0 <= (1 - a') * (R - lo))%Q) by (apply Qmult_le_0_compat; lra).
    assert (C3 : (0 <= a' * (hi - S))%Q) by (apply Qmult_le_0_compat; lra).
    assert (C4 : (0 <= (1 - a') * (hi - R))%Q) by (apply Qmult_le_0_compat; lra).
    split; lra.
Qed.

(** What is stored is the integer part of the blend: the old byte, the
    raw byte or a byte between them, or the byte below the smaller of the
    two when the doubles fall short of it. *)
Lemma blend_within (a : Q) (s r : Z) :
  (0 <= a <= 1)%Q -> 0 <= s <= 255 -> 0 <= r <= 255 ->
  Z.max 0 (Z.min s r - 1) <= blend a s r <= Z.max s r.
Proof.
  intros Ha Hs Hr. destruct (blend_near a s r Ha Hs Hr) as (v & E & V0 & V1 & V2).
  unfold blend. rewrite E. cbn [toUint8]. rewrite Qtrunc_nonneg by exact V0.
  assert (F0 : 0 <= Qfloor v).
  { change 0 with (Qfloor 0). apply Qfloor_resp_le, V0. }
  assert (F1 : Z.min s r - 1 <= Qfloor v).
  { rewrite <- (Qfloor_Z (Z.min s r - 1)). apply Qfloor_resp_le.
    replace (Z.min s r - 1) with (Z.min s r + -1) by lia.
    rewrite inject_Z_plus. change (inject_Z (-1)) with (- (1))%Q. lra. }
  assert (F2 : Qfloor v <= Z.max s r).
  { assert (Qfloor v < Z.max s r + 1); [| lia].
    rewrite Zlt_Qlt. eapply Qle_lt_trans; [apply Qfloor_le |].
    rewrite inject_Z_plus. exact V2. }
  rewrite Z.mod_small by lia. lia.
Qed.

(** X1. One smoothing pass over two byte arrays of the same length, with a
    factor in [0, 1], keeps the length and puts every bin between its old
    value and the raw value, or one unit below the smaller of the two:
    the blend of doubles can fall short of a byte it should reach, and the
    store drops the fraction.  The filter never overshoots upwards and
    never stores a byte that wrapped around. *)
Theorem smooth_never_overshoots :
  forall (a : Q) (sm raw : list Z),
    (0 <= a <= 1)%Q ->
    length sm = length raw ->
    Forall isByte sm -> Forall isByte raw ->
    let out := smooth a (length raw) sm raw in
    length out = length raw
    /\ forall i, (i < length raw)%nat ->
         Z.max 0 (Z.min (nth i sm 0) (nth i raw 0) - 1) <= nth i out 0
         <= Z.max (nth i sm 0) (nth i raw 0).
Proof.
  intros a sm raw Ha L Hs Hr out. split.
  - subst out. rewrite smooth_length. exact L.
  - intros i Hi. subst out. rewrite smooth_nth by assumption.
    apply blend_within; [exact Ha | apply nth_isByte, Hs | apply nth_isByte, Hr].
Qed.

(** A pass with the factor 1/100 over the states 200, 0, 3 and the raw
    bytes 10, 255, 3: the third bin, already at its raw value, is stored
    one unit below it. *)
Lemma smooth_never_overshoots_witness :
  let out := smooth (1#100) 3 [200; 0; 3] [10; 255; 3] in
  (0 <= 1#100 <= 1)%Q
  /\ out = [11; 252; 2]
  /\ Z.max 0 (Z.min 3 3 - 1) <= nth 2 out 0 <= Z.max 3 3.
Proof.
  intros out.
  assert (Ha : (0 <= 1#100 <= 1)%Q) by (split; discriminate).
  split; [exact Ha |]. split; [vm_compute; reflexivity |].
  refine (proj2 (smooth_never_overshoots (1#100) [200; 0; 3] [10; 255; 3]
                   Ha eq_refl _ _) 2%nat _);
    [repeat constructor; unfold isByte; lia
    | repeat constructor; unfold isByte; lia
    | cbn; lia].
Defined.

(** ** Visualizer geometry: strokes, bar lengths, symmetry *)

Lemma opEq_isStroke (a b : CanvasOp) : opEq a b -> isStroke a = isStroke b.
Proof. destruct a, b; cbn; intros H; try reflexivity; try discriminate H. Qed.

Lemma sameCalls_strokes (l1 l2 : list CanvasOp) :
  sameCalls l1 l2 -> strokes l1 = strokes l2.
Proof.
  unfold strokes. induction 1 as [| a b l1 l2 Hab _ IH]; [reflexivity |].
  cbn [filter]. rewrite (opEq_isStroke a b Hab).
  destruct (isStroke b); cbn [length]; rewrite IH; reflexivity.
Qed.

Lemma strokes_app (l1 l2 : list CanvasOp) :
  strokes (l1 ++ l2) = (strokes l1 + strokes l2)%nat.
Proof. unfold strokes. rewrite filter_app, length_app. reflexivity. Qed.

Lemma strokes_barCallsAt (radius a : Q) (h : num) :
  strokes (barCallsAt radius a h) = if visible h then 1%nat else 0%nat.
Proof. unfold barCallsAt. destruct (visible h); reflexivity. Qed.

Lemma strokes_bars_of_index (radius : Q) (i : nat) (h : num) (tbl : list Q) :
  strokes (barCalls radius (map (fun a => (i, a, h)) tbl))
  = if visible h then length tbl else 0%nat.
Proof.
  unfold barCalls. induction tbl as [| a t IH]; cbn [map flat_map fst snd].
  - destruct (visible h); reflexivity.
  - rewrite strokes_app, strokes_barCallsAt, IH. destruct (visible h); reflexivity.
Qed.

Lemma barCalls_app (radius : Q) (l1 l2 : list (nat * Q * num)) :
  barCalls radius (l1 ++ l2) = barCalls radius l1 ++ barCalls radius l2.
Proof. unfold barCalls. apply flat_map_app. Qed.

Lemma strokes_placements (audioData : list Z) (logoRect : Rect) (config : VisualizerConfig) :
  strokes (barCalls (radiusOf logoRect config) (placements audioData logoRect config))
  = (Z.to_nat (foldFactor (reflection config))
     * length (filter (fun i => visible (specHeight audioData logoRect config i))
                      (indices (distinctCount config))))%nat.
Proof.
  unfold placements.
  induction (indices (distinctCount config)) as [| i l IH]; cbn [flat_map filter].
  - cbn. lia.
  - rewrite barCalls_app, strokes_app, strokes_bars_of_index, IH.
    rewrite offsetTable_length.
    destruct (visible (specHeight audioData logoRect config i)); cbn [length]; lia.
Qed.

Lemma filter_none {A : Type} (p : A -> bool) (l : list A) :
  (forall i, In i l -> p i = false) -> filter p l = [].
Proof.
  induction l as [| a l IH]; intros H; [reflexivity |].
  cbn [filter]. rewrite (H a) by (left; reflexivity).
  apply IH. intros i Hi. apply H. right. exact Hi.
Qed.

(** What a multiplication of doubles returns is a double. *)
Lemma Double_mul_double (a b : num) (m : Q) : Double.mul a b = Fin m -> rnd m = Fin m.
Proof.
  unfold Double.mul. destruct (numMul _ _) as [z | | |]; cbn [nearest]; try discriminate.
  apply rnd_idem.
Qed.

(** A product with an infinity is not finite. *)
Lemma numMul_inf_not_Fin (a : num) (q : Q) :
  nearest (numMul a PosInf) <> Fin q /\ nearest (numMul a NegInf) <> Fin q.
Proof.
  destruct a as [x | | |]; cbn [numMul]; unfold scaleInf;
    try (split; discriminate).
  destruct (Qeq_bool x 0); [split; discriminate |].
  destruct (Qltb 0 x); cbn; split; discriminate.
Qed.

(** The height of a bar over the byte 0 is 0 when the longest bar is finite. *)
Lemma specHeight_zero (audioData : list Z) (logoRect : Rect) (config : VisualizerConfig)
    (i : nat) (m longest : Q) :
  nth_error audioData i = Some 0 ->
  maxBarHeightOf logoRect config = Fin m ->
  Double.mul (Fin m) (Fin (sensitivity config)) = Fin longest ->
  specHeight audioData logoRect config i = Fin 0.
Proof.
  intros Hz Hm Hl.
  change (specHeight audioData logoRect config i)
    with (Double.mul (Double.mul (Double.div (readByte audioData i) (ofZ 255))
                                 (maxBarHeightOf logoRect config))
                     (Fin (sensitivity config))).
  pose proof (Double_mul_double _ _ m Hm) as Rm.
  unfold readByte. rewrite Hz, Hm.
  assert (D : Double.div (ofZ 0) (ofZ 255) = Fin 0) by (vm_compute; reflexivity).
  rewrite D. unfold Double.mul in *. cbn [nearest] in *.
  rewrite (rnd_zero 0), Rm in * by reflexivity. cbn [numMul nearest].
  assert (Z0 : (0 * m == 0)%Q) by ring. rewrite (rnd_zero _ Z0). cbn [nearest].
  rewrite (rnd_zero 0) by reflexivity.
  destruct (rnd (sensitivity config)) as [s' | | |] eqn:Rs.
  - cbn [numMul nearest]. apply rnd_zero. ring.
  - exfalso. exact (proj1 (numMul_inf_not_Fin (Fin m) longest) Hl).
  - exfalso. exact (proj2 (numMul_inf_not_Fin (Fin m) longest) Hl).
  - pose proof (rnd_not_NaN (sensitivity config)) as N. rewrite Rs in N. discriminate N.
Qed.

(** X3. The visualizer strokes a line exactly for the base bins whose bar
    height, computed in doubles as the code computes it, is at least one
    unit, once per fold of the reflection; when the longest bar,
    maxBarHeight * sensitivity, is finite, a spectrum whose first
    distinctCount bins are all zero strokes nothing. *)
Theorem drawCircularVisualizer_strokes :
  forall (audioData : list Z) (logoRect : Rect) (config : VisualizerConfig),
    let ops := drawCircularVisualizer audioData logoRect config in
    let n := distinctCount config in
    strokes ops
    = (Z.to_nat (foldFactor (reflection config))
       * length (filter (fun i => visible (specHeight audioData logoRect config i))
                        (seq 0 (Z.to_nat n))))%nat
    /\ (forall m longest : Q,
          maxBarHeightOf logoRect config = Fin m ->
          Double.mul (Fin m) (Fin (sensitivity config)) = Fin longest ->
          (forall i, (i < Z.to_nat n)%nat -> nth_error audioData i = Some 0) ->
          strokes ops = 0%nat).
Proof.
  intros audioData logoRect config ops n.
  assert (E : strokes ops
              = (Z.to_nat (foldFactor (reflection config))
                 * length (filter (fun i => visible (specHeight audioData logoRect config i))
                                  (indices n)))%nat).
  { subst ops. rewrite (sameCalls_strokes _ _
                          (drawCircularVisualizer_bars audioData logoRect config)).
    rewrite !strokes_app, strokes_placements.
    change (strokes (prologue logoRect config)) with 0%nat.
    change (strokes [Restore]) with 0%nat. subst n. lia. }
  split; [exact E |].
  intros m longest Hm Hl Hz. rewrite E.
  assert (F : filter (fun i => visible (specHeight audioData logoRect config i)) (indices n)
              = []).
  { apply filter_none. intros i Hi. apply in_indices in Hi.
    rewrite (specHeight_zero audioData logoRect config i m longest (Hz i Hi) Hm Hl).
    reflexivity. }
  rewrite F. cbn. lia.
Qed.

(** Heights at the threshold.  With the anchor 10 wide, the bar height
    factor 0.1 and the sensitivity 1.2, the bar over the byte 85 has the
    height (85 / 255) * 2.5 * 1.2, which is 1 in exact arithmetic and
    0.9999999999999999 in doubles: the code draws none of its eight
    copies.  With the anchor 40 wide, the factor 0.075 and the sensitivity
    1 the height over the same byte is a third of 3, which is 1 in
    doubles, and all eight are drawn. *)
Example heights_at_the_threshold :
  let below := mkVisualizerConfig "#A78BFA" 0 Reflection.eight (6#5) 0 8 (21#1000)
                                  (1#10) 0 in
  let at_one := mkVisualizerConfig "#A78BFA" 0 Reflection.eight 1 0 8 (21#1000)
                                   (3#40) 0 in
  numLt (specHeight [85] (mkRect 0 0 10 10) below 0) (ofZ 1) = true
  /\ strokes (drawCircularVisualizer [85] (mkRect 0 0 10 10) below) = 0%nat
  /\ specHeight [85] (mkRect 0 0 40 40) at_one 0 = Fin 1
  /\ strokes (drawCircularVisualizer [85] (mkRect 0 0 40 40) at_one) = 8%nat.
Proof. repeat split; vm_compute; reflexivity. Qed.



Lemma in_placements (audioData : list Z) (logoRect : Rect) (config : VisualizerConfig)
    (i : nat) (a : Q) (h : num) :
  In (i, a, h) (placements audioData logoRect config) <->
  (i < Z.to_nat (distinctCount config))%nat
  /\ In a (offsetTable (foldFactor (reflection config)) (baseAngle config i))
  /\ h = specHeight audioData logoRect config i.
Proof.
  unfold placements. rewrite in_flat_map. split.
  - intros (j & Hj & Hin). apply in_map_iff in Hin. destruct Hin as (a0 & E & Ha).
    injection E as -> -> ->. apply in_indices in Hj. auto.
  - intros (Hi & Ha & ->). exists i. split.
    + unfold indices. apply in_seq. lia.
    + apply in_map_iff. exists a. auto.
Qed.




(** Each row of the reflection table is its own mirror image about the
    axis at angle 0 and about the axis half way between two copies of the
    base bar. *)
Lemma table_mirrors (r : Reflection.t) (a x : Q) :
  r <> Reflection.none ->
  In x (offsetTable (foldFactor r) a) ->
  (exists x', In x' (offsetTable (foldFactor r) a) /\ sameDirection x' (2 * 0 - x)%Q)
  /\ (exists x', In x' (offsetTable (foldFactor r) a)
                 /\ sameDirection x' (2 * (2 / inject_Z (foldFactor r)) - x)%Q).
Proof.
  intros Hr Hx. unfold sameDirection.
  destruct r; [congruence | | |]; cbn [foldFactor offsetTable In] in *;
    repeat (destruct Hx as [<- | Hx]; [| try contradiction]);
    split;
    first [ twin_at a | twin_at (- a)%Q
          | twin_at ((1#2) - a)%Q | twin_at ((1#2) + a)%Q
          | twin_at (1 - a)%Q | twin_at (1 + a)%Q
          | twin_at ((3#2) - a)%Q | twin_at ((3#2) + a)%Q ].
Qed.

(** X5. In every reflection mode but none, the bars the visualizer draws
    are mirror-symmetric about the axis at angle 0 and about the axis at
    angle 2 pi / F for fold factor F: each bar has a twin of the same base
    index and height at the mirrored angle. *)
Theorem drawCircularVisualizer_mirror_symmetry :
  forall (audioData : list Z) (logoRect : Rect) (config : VisualizerConfig),
    reflection config <> Reflection.none ->
    let bars := placements audioData logoRect config in
    sameCalls (drawCircularVisualizer audioData logoRect config)
              (prologue logoRect config
               ++ barCalls (radiusOf logoRect config) bars ++ [Restore])
    /\ mirrorSymmetric 0 bars
    /\ mirrorSymmetric (2 / inject_Z (foldFactor (reflection config))) bars.
Proof.
  intros audioData logoRect config Hr bars.
  split; [apply drawCircularVisualizer_bars |].
  split; intros i a h Hin; apply in_placements in Hin; destruct Hin as (Hi & Ha & Hh);
    destruct (table_mirrors (reflection config) (baseAngle config i) a Hr Ha)
      as ((x0 & In0 & D0) & (x1 & In1 & D1)).
  - exists x0. split; [apply in_placements; auto | exact D0].
  - exists x1. split; [apply in_placements; auto | exact D1].
Qed.

Lemma drawCircularVisualizer_mirror_symmetry_witness :
  mirrorSymmetric 0 (placements (repeat 128 128) (mkRect 568 288 144 144)
                                defaultVisualizerConfig).
Proof.
  refine (proj1 (proj2 (drawCircularVisualizer_mirror_symmetry (repeat 128 128)
                          (mkRect 568 288 144 144) defaultVisualizerConfig _))).
  discriminate.
Defined.

(** ** Particle simulator: what [initParticles] makes *)





(** ** Offline render job: the whole run *)

Lemma storeByte_bytes (arr : list Z) (j : nat) (v : num) :
  Forall isByte arr -> Forall isByte (storeByte arr j v).
Proof.
  intros H. revert j. induction H as [| b rest Hb Hrest IH]; intros [| k]; cbn [storeByte].
  - constructor.
  - constructor.
  - constructor; [| exact Hrest].
    unfold isByte. destruct v; cbn [toUint8]; try lia.
    pose proof (Z.mod_pos_bound (Qtrunc q) 256). lia.
  - constructor; [exact Hb | apply IH].
Qed.

Lemma smooth_bytes (a : Q) (n : nat) (sm raw : list Z) :
  Forall isByte sm -> Forall isByte (smooth a n sm raw).
Proof.
  unfold smooth. generalize 0%nat as j. revert sm.
  induction n as [| n IH]; intros sm j H; cbn [smoothLoop]; [exact H |].
  apply IH, storeByte_bytes, H.
Qed.

Lemma copyInto_length (dst src : list Z) : length (copyInto dst src) = length dst.
Proof.
  unfold copyInto. rewrite length_app, length_firstn, length_skipn. lia.
Qed.

Lemma forEachParticle_length (f : Particle -> M Particle) (particles : list ParticleObj)
    (w : World) :
  length (fst (forEachParticle f particles w)) = length particles.
Proof.
  revert w. induction particles as [| o rest IH]; intros w; [reflexivity |].
  rewrite forEachParticle_cons. cbn [fst length]. rewrite IH. reflexivity.
Qed.

Lemma newUint8Array_bytes (n : nat) :
  length (newUint8Array n) = n /\ Forall isByte (newUint8Array n).
Proof.
  unfold newUint8Array. split; [apply repeat_length |].
  apply Forall_forall. intros v Hv. apply repeat_spec in Hv. subst v.
  unfold isByte. lia.
Qed.

Section FrameLoopEffects.

Variable frameRate : Z.
Variable totalFrames : num.
Variable env : RenderEnv.
Variables width height bins : nat.

(** One iteration that is not cancelled, with what it hands to the next. *)
Lemma frameLoop_step (k : nat) (i : Z) (raw sm : list Z)
    (ps : list ParticleObj) (s : JobState) :
  keepsRendering env i = true ->
  let raw' := copyInto raw (spectrumAt env (Double.div (ofZ i) (ofZ frameRate))) in
  let sm' := smooth (smoothing (visualizerConfig env)) bins sm raw' in
  let moved :=
    if enabled (particleConfig env)
    then updateParticles ps (particleConfig env) width height
           (bassIntensityOf (Some sm')) (world s)
    else (ps, world s) in
  frameLoop frameRate totalFrames env width height bins (S k) i raw sm ps s
  = frameLoop frameRate totalFrames env width height bins k (i + 1) raw' sm' (fst moved)
      (mkJobState (setRenderProgress (progressOf i totalFrames) (ui s))
         (effects s
          ++ [SpectrumSampled (Double.div (ofZ i) (ofZ frameRate));
              FrameEncoded (Double.div (Double.mul (ofZ i) (ofZ 1000000)) (ofZ frameRate))
                           sm' (fst moved)])
         (snd moved)).
Proof.
  intros Hk raw' sm' moved. cbn [frameLoop]. rewrite Hk. cbn [negb].
  unfold andThen, emit, setUi, inWorld, done. cbn [ui effects world].
  fold raw'. fold sm'. subst moved.
  destruct (enabled (particleConfig env)); cbn [fst snd ui effects world].
  - destruct (updateParticles ps (particleConfig env) width height
                (bassIntensityOf (Some sm')) (world s)) as [ps' w'].
    cbn [fst snd ui effects world]. rewrite <- app_assoc. reflexivity.
  - rewrite <- app_assoc. reflexivity.
Qed.

(** Everything the frame loop does, for any pattern of cancellation. *)
Lemma frameLoop_effects :
  forall (iters : nat) (i : Z) (raw sm : list Z) (ps : list ParticleObj) (s : JobState),
    length sm = bins -> Forall isByte sm ->
    let r := frameLoop frameRate totalFrames env width height bins iters i raw sm ps s in
    let k := framesDone env iters i in
    exists frames : list (list Z * list ParticleObj),
      length frames = k
      /\ effects (snd r)
         = effects s ++ frameEffects frameRate i frames
           ++ (if Nat.eqb k iters then []
               else [ConsoleLog "Rendering cancelled by user."%string])
      /\ fst r = (if Nat.eqb k iters then Returned tt
                  else Threw "Render cancelled"%string)
      /\ Forall (fun f => length (fst f) = bins /\ Forall isByte (fst f)
                          /\ length (snd f) = length ps) frames
      /\ (enabled (particleConfig env) = false ->
          world (snd r) = world s /\ Forall (fun f => snd f = ps) frames)
      /\ error (ui (snd r)) = error (ui s)
      /\ ((0 < k)%nat ->
          renderProgress (ui (snd r)) = progressOf (i + Z.of_nat k - 1) totalFrames).
Proof.
  induction iters as [| n IH]; intros i raw sm ps s Hlen Hb.
  - exists []. cbn. rewrite app_nil_r.
    repeat split; try reflexivity; try constructor. intros H; lia.
  - cbv zeta. cbn [framesDone]. destruct (keepsRendering env i) eqn:Hk.
    + rewrite (frameLoop_step n i raw sm ps s Hk).
      set (raw' := copyInto raw _). set (sm' := smooth _ bins sm raw').
      set (moved := if enabled (particleConfig env) then _ else _).
      set (s1 := mkJobState _ _ (snd moved)).
      assert (L' : length sm' = bins) by (subst sm'; rewrite smooth_length; exact Hlen).
      assert (B' : Forall isByte sm') by (subst sm'; apply smooth_bytes, Hb).
      assert (P' : length (fst moved) = length ps).
      { subst moved. destruct (enabled (particleConfig env)); [| reflexivity].
        unfold updateParticles. apply forEachParticle_length. }
      destruct (IH (i + 1) raw' sm' (fst moved) s1 L' B')
        as (frames & F1 & F2 & F3 & F4 & F5 & F6 & F7).
      exists ((sm', fst moved) :: frames).
      cbn [length frameEffects Nat.eqb]. rewrite F1, F2, F3, F6.
      split; [reflexivity |]. split.
      { subst s1. cbn [effects]. rewrite <- !app_assoc. reflexivity. }
      split; [reflexivity |]. split.
      { constructor; [cbn [fst snd]; auto |].
        eapply Forall_impl; [| exact F4]. intros f (A & B & C).
        rewrite P' in C. auto. }
      split.
      { intros Hd. destruct (F5 Hd) as (W1 & W2). rewrite W1.
        assert (M : moved = (ps, world s)) by (subst moved; rewrite Hd; reflexivity).
        subst s1. cbn [world]. rewrite M in W2 |- *. cbn [fst snd] in W2 |- *.
        split; [reflexivity |]. constructor; [reflexivity | exact W2]. }
      split; [reflexivity |].
      intros _. destruct (framesDone env n (i + 1)) as [| k'] eqn:K.
      * assert (R0 : frames = []) by (destruct frames; [reflexivity | discriminate]).
        clear F7. destruct n as [| n'].
        -- cbn [frameLoop done snd]. subst s1. cbn [ui renderProgress setRenderProgress].
           f_equal. lia.
        -- cbn [framesDone] in K. destruct (keepsRendering env (i + 1)) eqn:Hk1;
             [discriminate |].
           rewrite (frameLoop_cancelled frameRate totalFrames env width height bins
                      n' (i + 1) raw' sm' (fst moved) s1 Hk1).
           cbn [snd ui]. subst s1. cbn [ui renderProgress setRenderProgress].
           f_equal. lia.
      * rewrite F7 by lia. f_equal. lia.
    + rewrite (frameLoop_cancelled frameRate totalFrames env width height bins
                 n i raw sm ps s Hk).
      exists []. cbn [length frameEffects fst snd effects ui world app Nat.eqb].
      repeat split; try reflexivity; try constructor. intros H; lia.
Qed.

End FrameLoopEffects.

Section RenderJobEffects.

Variable frameRate : Z.
Variable env : RenderEnv.
Variables width height bins : nat.
Variable audioDuration : num.

Let totalFrames := totalFramesOf frameRate audioDuration.
Let iters := iterations totalFrames.

(** A failure of the decoder ends the [try] block before anything else. *)
Lemma renderJob_decode_failure (s : JobState) (message : string) :
  decodeFailure env = Some message ->
  renderJob frameRate env width height audioDuration bins s = (Threw message, s).
Proof. intros H. unfold renderJob. rewrite H. reflexivity. Qed.

(** Without a 2D context the audio is encoded and nothing is drawn. *)
Lemma renderJob_no_context (s : JobState) :
  decodeFailure env = None -> context2d env = false ->
  renderJob frameRate env width height audioDuration bins s
  = (Threw "Could not get canvas context"%string,
     mkJobState (setRenderMessage "Encoding audio..." (ui s))
       (effects s ++ tl (setUpEffects width height frameRate)) (world s)).
Proof.
  intros Hd Hc. unfold renderJob. rewrite Hd, Hc.
  cbv [andThen emit setUi inWorld done throw]. cbn [ui effects world fst snd].
  rewrite <- !app_assoc. reflexivity.
Qed.

(** With the audio decoded and a context, the job is its set-up, the
    frames of the loop, and the end of the loop. *)
Lemma renderJob_frames (s : JobState) :
  decodeFailure env = None -> context2d env = true ->
  let r := renderJob frameRate env width height audioDuration bins s in
  let k := framesDone env iters 0 in
  let started :=
    if enabled (particleConfig env)
    then initParticles [] (particleConfig env) width height (world s)
    else ([], world s) in
  exists frames : list (list Z * list ParticleObj),
    length frames = k
    /\ effects (snd r)
       = effects s ++ tl (setUpEffects width height frameRate)
         ++ frameEffects frameRate 0 frames
         ++ (if Nat.eqb k iters
             then [VideoEncoderFlushed; MuxerFinalized;
                   FileDownloaded ("Success visualizer - "
                                   ++ orVideo (projectName env) ++ ".mp4")]
             else [ConsoleLog "Rendering cancelled by user."%string])
    /\ fst r = (if Nat.eqb k iters then Returned tt
                else Threw "Render cancelled"%string)
    /\ Forall (fun f => length (fst f) = bins /\ Forall isByte (fst f)
                        /\ length (snd f) = length (fst started)) frames
    /\ (enabled (particleConfig env) = false ->
        world (snd r) = world s /\ Forall (fun f => snd f = []) frames)
    /\ error (ui (snd r)) = error (ui s)
    /\ ((0 < k)%nat ->
        renderProgress (ui (snd r)) = progressOf (Z.of_nat k - 1) totalFrames).
Proof.
  intros Hd Hc r k started. subst r. unfold renderJob. rewrite Hd, Hc.
  cbv [andThen emit setUi inWorld done throw]. cbn [ui effects world fst snd].
  fold totalFrames. fold iters.
  assert (Pre : (((((((effects s ++ [AudioDecoded])
                      ++ [MuxerCreated width height frameRate])
                     ++ [VideoEncoderConfigured width height frameRate])
                    ++ [AudioEncoderConfigured]) ++ [AudioEncoded])
                  ++ [AudioEncoderFlushed]) ++ [AudioPaused]) ++ [AudioSeeked 0]
                = effects s ++ tl (setUpEffects width height frameRate))
    by (rewrite <- !app_assoc; reflexivity).
  rewrite Pre. clear Pre.
  assert (G : forall (ps : list ParticleObj) (w : World),
    let s0 := mkJobState (setRenderMessage "Rendering video frames..."
                            (setRenderMessage "Encoding audio..." (ui s)))
                (effects s ++ tl (setUpEffects width height frameRate)) w in
    let r := match frameLoop frameRate totalFrames env width height bins iters 0
                     (newUint8Array bins) (newUint8Array bins) ps s0 with
             | (Returned _, s') =>
                 (Returned tt,
                  mkJobState (setRenderMessage "Packing MP4 file..."
                                (setRenderMessage "Finalizing video..." (ui s')))
                    (((effects s' ++ [VideoEncoderFlushed]) ++ [MuxerFinalized])
                     ++ [FileDownloaded ("Success visualizer - "
                                         ++ orVideo (projectName env) ++ ".mp4")])
                    (world s'))
             | (Threw e, s') => (Threw e, s')
             end in
    exists frames : list (list Z * list ParticleObj),
      length frames = k
      /\ effects (snd r)
         = effects s ++ tl (setUpEffects width height frameRate)
           ++ frameEffects frameRate 0 frames
           ++ (if Nat.eqb k iters
               then [VideoEncoderFlushed; MuxerFinalized;
                     FileDownloaded ("Success visualizer - "
                                     ++ orVideo (projectName env) ++ ".mp4")]
               else [ConsoleLog "Rendering cancelled by user."%string])
      /\ fst r = (if Nat.eqb k iters then Returned tt
                  else Threw "Render cancelled"%string)
      /\ Forall (fun f => length (fst f) = bins /\ Forall isByte (fst f)
                          /\ length (snd f) = length ps) frames
      /\ (enabled (particleConfig env) = false ->
          world (snd r) = w /\ Forall (fun f => snd f = ps) frames)
      /\ error (ui (snd r)) = error (ui s)
      /\ ((0 < k)%nat ->
          renderProgress (ui (snd r)) = progressOf (Z.of_nat k - 1) totalFrames)).
  { intros ps w s0.
    destruct (newUint8Array_bytes bins) as [NL NB].
    destruct (frameLoop_effects frameRate totalFrames env width height bins iters 0
                (newUint8Array bins) (newUint8Array bins) ps s0 NL NB)
      as (frames & F1 & F2 & F3 & F4 & F5 & F6 & F7).
    fold k in F1, F2, F3, F7. rewrite Z.add_0_l in F7.
    destruct (frameLoop _ _ _ _ _ _ _ _ _ _ _ s0) as [out s2].
    cbn [fst snd] in F2, F3, F5, F6, F7. subst out.
    exists frames. split; [exact F1 |].
    destruct (Nat.eqb k iters);
      cbn [fst snd effects ui error renderProgress setRenderMessage].
    - rewrite F2. subst s0. cbn [effects]. rewrite <- !app_assoc. cbn [app].
      rewrite ?app_nil_r.
      repeat split; try assumption; try reflexivity; apply F5; assumption.
    - rewrite F2. subst s0. cbn [effects]. rewrite <- !app_assoc.
      repeat split; try assumption; try reflexivity; apply F5; assumption. }
  subst started. destruct (enabled (particleConfig env)) eqn:En;
    cbv beta; cbn [ui effects world fst snd].
  - destruct (initParticles [] (particleConfig env) width height (world s)) as [ps w] eqn:Ei.
    cbn [ui effects world fst snd].
    destruct (G ps w) as (frames & F1 & F2 & F3 & F4 & F5 & F6 & F7).
    exists frames. split; [exact F1 |]. split; [exact F2 |]. split; [exact F3 |].
    split; [exact F4 |]. split; [discriminate |]. split; [exact F6 | exact F7].
  - destruct (G [] (world s)) as (frames & F1 & F2 & F3 & F4 & F5 & F6 & F7).
    exists frames. split; [exact F1 |]. split; [exact F2 |]. split; [exact F3 |].
    split; [exact F4 |]. split; [intros _; apply F5; reflexivity |].
    split; [exact F6 | exact F7].
Qed.

End RenderJobEffects.

Lemma handleRenderVideoAt_pastGuards (frameRate : Z) (env : RenderEnv) (s : JobState)
    (width height : nat) (audioDuration : Q) (bins : nat) :
  pastGuards env s width height audioDuration bins ->
  handleRenderVideoAt frameRate env s
  = tryCatchFinally (renderJob frameRate env width height (Fin audioDuration) bins)
      (mkJobState
         (setError None (setRenderMessage "Initializing render..."
            (setRenderProgress (ofZ 0) (setIsRendering true
               (setIsPlaying false (ui s))))))
         (effects s ++ [AudioContextCreated]) (world s)).
Proof.
  intros (Hcv & Hau & Hf & Han & Hr). unfold handleRenderVideoAt.
  rewrite Hcv, Hau, Hf, Han, Hr. reflexivity.
Qed.

Lemma starts_pastGuards (env : RenderEnv) (s : JobState) (width height : nat)
    (audioDuration : Q) (bins : nat) :
  starts env s width height audioDuration bins ->
  pastGuards env s width height audioDuration bins.
Proof. intros (H1 & H2 & H3 & H4 & H5 & _). repeat split; assumption. Qed.

Lemma initParticles_length (old : list ParticleObj) (config : ParticleConfig)
    (width height : nat) (w : World) :
  length (fst (initParticles old config width height w)) = Z.to_nat (count config).
Proof.
  unfold initParticles. rewrite spawnLoop_spec. cbn [fst app].
  rewrite length_map, length_seq. reflexivity.
Qed.

Lemma frameTimestamps_frameEffects (frameRate i : Z)
    (frames : list (list Z * list ParticleObj)) :
  length (frameTimestamps (frameEffects frameRate i frames)) = length frames.
Proof.
  revert i. induction frames as [| [a p] rest IH]; intros i; [reflexivity |].
  cbn [frameEffects frameTimestamps flat_map app length]. f_equal. apply IH.
Qed.

(** X7. A job that is not cancelled does, in this order and nothing
    else: create the audio context, decode, create the muxer, configure
    both encoders, encode and flush the whole audio, rewind the audio
    element; then for each i in [0, totalFrames] sample the spectrum at
    i / 30 s and encode one frame with the timestamp i * 1000000 / 30
    microseconds (both in doubles); then flush the video encoder, finalize
    the muxer, offer "Success visualizer - <project name or video>.mp4",
    close the audio context and rewind.  totalFrames is the frame count
    the code computes, the floor of the product of doubles.  Every frame
    is drawn from frequencyBinCount bytes and from [count] particles (none
    when particles are disabled).  The audio lasts up to 2^32 seconds. *)
Theorem handleRenderVideo_complete_run :
  forall (env : RenderEnv) (s : JobState) (width height : nat)
         (audioDuration : Q) (bins : nat),
    starts env s width height audioDuration bins ->
    (0 <= audioDuration <= inject_Z (2 ^ 32))%Q ->
    (forall i, keepsRendering env i = true) ->
    let s' := handleRenderVideo env s in
    exists (totalFrames : Z) (frames : list (list Z * list ParticleObj)),
      totalFramesOf 30 (Fin audioDuration) = ofZ totalFrames
      /\ Z.of_nat (length frames) = totalFrames + 1
      /\ effects s'
         = setUpEffects width height 30
           ++ frameEffects 30 0 frames
           ++ [VideoEncoderFlushed; MuxerFinalized;
               FileDownloaded ("Success visualizer - "
                               ++ orVideo (projectName env) ++ ".mp4");
               AudioContextClosed; AudioSeeked 0]
      /\ Forall (fun f => length (fst f) = bins /\ Forall isByte (fst f)
                          /\ length (snd f)
                             = if enabled (particleConfig env)
                               then Z.to_nat (count (particleConfig env))
                               else 0%nat) frames
      /\ error (ui s') = None.
Proof.
  intros env s width height audioDuration bins Hst Hd Hk s'.
  pose proof (starts_pastGuards _ _ _ _ _ _ Hst) as Had.
  destruct Hst as (_ & _ & _ & _ & _ & Hdec & Hctx & He).
  subst s'. unfold handleRenderVideo.
  rewrite (handleRenderVideoAt_pastGuards 30 env s width height audioDuration bins Had).
  unfold tryCatchFinally.
  set (s0 := mkJobState _ (effects s ++ [AudioContextCreated]) (world s)).
  destruct (renderJob_frames 30 env width height bins (Fin audioDuration) s0 Hdec Hctx)
    as (frames & F1 & F2 & F3 & F4 & _ & F6 & _).
  destruct (totalFrames_finite audioDuration 30 Hd ltac:(lia)) as (t & Et & Ht).
  rewrite Et, iterations_ofZ in F1, F2, F3.
  rewrite framesDone_all in F1, F2, F3 by (intros; apply Hk).
  rewrite Nat.eqb_refl in F2, F3.
  destruct (renderJob 30 env width height (Fin audioDuration) bins s0) as [out s1].
  cbn [fst snd] in F2, F3, F6. subst out.
  exists t, frames. split; [exact Et |]. split; [rewrite F1; lia |]. split.
  - cbn [effects]. rewrite F2. subst s0. cbn [effects]. rewrite He.
    cbn [app]. rewrite <- !app_assoc. reflexivity.
  - split.
    + eapply Forall_impl; [| exact F4]. intros f (A & B & C).
      split; [exact A |]. split; [exact B |]. rewrite C. subst s0. cbn [world].
      destruct (enabled (particleConfig env)); [apply initParticles_length | reflexivity].
    + cbn [ui error setCurrentTime setRenderMessage setRenderProgress setIsRendering].
      rewrite F6. reflexivity.
Qed.

Lemma handleRenderVideo_complete_run_witness :
  starts (appEnv (7#10) None None) (idle halves) 1280 720 (7#10) 128
  /\ totalFramesOf 30 (Fin (7#10)) = ofZ 21
  /\ length (frameTimestamps (effects (handleRenderVideo (appEnv (7#10) None None)
                                                         (idle halves)))) = 22%nat
  /\ error (ui (handleRenderVideo (appEnv (7#10) None None) (idle halves))) = None.
Proof.
  split; [apply appEnv_starts |].
  assert (T : totalFramesOf 30 (Fin (7#10)) = ofZ 21) by (vm_compute; reflexivity).
  split; [exact T |].
  destruct (handleRenderVideo_complete_run (appEnv (7#10) None None) (idle halves)
              1280 720 (7#10) 128 (appEnv_starts (7#10) None))
    as (t & frames & Et & L & Ef & _ & E).
  - split; [discriminate | vm_compute; discriminate].
  - intros i. reflexivity.
  - split; [| exact E].
    rewrite T in Et. apply ofZ_inj in Et. subst t.
    rewrite Ef, !frameTimestamps_app, !length_app, frameTimestamps_frameEffects.
    cbn [frameTimestamps setUpEffects flat_map app length]. lia.
Defined.

Lemma frameEffects_keepsContext (frameRate i : Z)
    (frames : list (list Z * list ParticleObj)) :
  forallb keepsContext (frameEffects frameRate i frames) = true
  /\ finalizes (frameEffects frameRate i frames) = false
  /\ downloads (frameEffects frameRate i frames) = false.
Proof.
  revert i. induction frames as [| [a p] rest IH]; intros i.
  - repeat split.
  - destruct (IH (i + 1)) as (A & B & C). cbn [frameEffects].
    unfold finalizes, downloads in *. cbn [forallb existsb keepsContext andb orb].
    repeat split; assumption.
Qed.

(** X8. Once past its guards the handler always gives back what it
    took, whatever happens in between (a failure of the decoder, a
    missing 2D context, a cancellation at any frame, or a complete run):
    the audio context is created first and closed exactly once, at the
    end, and the audio element is rewound after that; the rendering flag
    is false, the progress 0, the message empty and the playback time 0.
    A file is offered exactly when the muxer was finalized, and exactly
    then no error is left in the state. *)
Theorem handleRenderVideo_always_releases :
  forall (env : RenderEnv) (s : JobState) (width height : nat)
         (audioDuration : Q) (bins : nat),
    pastGuards env s width height audioDuration bins ->
    let s' := handleRenderVideo env s in
    exists middle : list Effect,
      effects s' = effects s ++ AudioContextCreated :: middle
                   ++ [AudioContextClosed; AudioSeeked 0]
      /\ forallb keepsContext middle = true
      /\ finalizes middle = downloads middle
      /\ (error (ui s') = None <-> downloads middle = true)
      /\ isRendering (ui s') = false
      /\ renderProgress (ui s') = ofZ 0
      /\ renderMessage (ui s') = ""%string
      /\ currentTime (ui s') = 0%Q.
Proof.
  intros env s width height audioDuration bins Had s'. subst s'.
  unfold handleRenderVideo.
  rewrite (handleRenderVideoAt_pastGuards 30 env s width height audioDuration bins Had).
  unfold tryCatchFinally.
  set (s0 := mkJobState _ (effects s ++ [AudioContextCreated]) (world s)).
  destruct (decodeFailure env) as [message |] eqn:Hdec.
  - rewrite (renderJob_decode_failure 30 env width height bins (Fin audioDuration) s0 message Hdec).
    exists [ConsoleError ("Rendering failed: " ++ message)%string].
    subst s0. cbn [effects ui error setCurrentTime setRenderMessage setRenderProgress
                   setIsRendering setError isRendering renderProgress renderMessage
                   currentTime].
    rewrite <- !app_assoc. cbn [app].
    repeat split; try reflexivity; intros; discriminate.
  - destruct (context2d env) eqn:Hctx.
    + destruct (renderJob_frames 30 env width height bins (Fin audioDuration) s0 Hdec Hctx)
        as (frames & _ & F2 & F3 & _ & _ & F6 & _).
      destruct (frameEffects_keepsContext 30 0 frames) as (K1 & K2 & K3).
      destruct (renderJob 30 env width height (Fin audioDuration) bins s0) as [out s1].
      cbn [fst snd] in F2, F3, F6.
      destruct (Nat.eqb _ _); subst out.
      * exists (tl (setUpEffects width height 30) ++ frameEffects 30 0 frames
                ++ [VideoEncoderFlushed; MuxerFinalized;
                    FileDownloaded ("Success visualizer - "
                                    ++ orVideo (projectName env) ++ ".mp4")]).
        cbn [effects ui error setCurrentTime setRenderMessage setRenderProgress
             setIsRendering setError isRendering renderProgress renderMessage
             currentTime].
        rewrite F2, F6. subst s0. cbn [effects ui error setError].
        split; [rewrite <- !app_assoc; reflexivity |].
        rewrite !forallb_app, !finalizes_app, !downloads_app, K1, K2, K3.
        repeat split; reflexivity.
      * exists (tl (setUpEffects width height 30) ++ frameEffects 30 0 frames
                ++ [ConsoleLog "Rendering cancelled by user."%string;
                    ConsoleError "Rendering failed: Render cancelled"%string]).
        cbn [effects ui error setCurrentTime setRenderMessage setRenderProgress
             setIsRendering setError isRendering renderProgress renderMessage
             currentTime].
        rewrite F2. subst s0. cbn [effects ui error setError].
        split; [rewrite <- !app_assoc; reflexivity |].
        rewrite !forallb_app, !finalizes_app, !downloads_app, K1, K2, K3.
        repeat split; try reflexivity; intros; discriminate.
    + rewrite (renderJob_no_context 30 env width height bins (Fin audioDuration) s0 Hdec Hctx).
      exists (tl (setUpEffects width height 30)
              ++ [ConsoleError "Rendering failed: Could not get canvas context"%string]).
      subst s0. cbn [effects ui error setCurrentTime setRenderMessage setRenderProgress
                     setIsRendering setError isRendering renderProgress renderMessage
                     currentTime].
      split; [rewrite <- !app_assoc; reflexivity |].
      repeat split; try reflexivity; intros; discriminate.
Qed.

Lemma handleRenderVideo_always_releases_witness :
  pastGuards (appEnv 2 None (Some 7%Z)) (idle halves) 1280 720 2 128
  /\ isRendering (ui (handleRenderVideo (appEnv 2 None (Some 7%Z)) (idle halves))) = false.
Proof.
  assert (A : pastGuards (appEnv 2 None (Some 7%Z)) (idle halves) 1280 720 2 128)
    by (repeat split; reflexivity).
  split; [exact A |].
  destruct (handleRenderVideo_always_releases _ _ _ _ _ _ A)
    as (middle & _ & _ & _ & _ & R & _).
  exact R.
Defined.

(** X9. The two failures of the set-up.  When the decoder rejects
    the file, nothing is muxed or encoded: the handler only logs the
    failure and releases the audio context.  When the canvas has no 2D
    context, the whole audio is encoded and flushed first, and no frame is
    sampled or drawn.  In both cases the error names the cause, and no
    random number is drawn. *)
Theorem handleRenderVideo_setup_failures :
  forall (env : RenderEnv) (s : JobState) (width height : nat)
         (audioDuration : Q) (bins : nat),
    pastGuards env s width height audioDuration bins ->
    let s' := handleRenderVideo env s in
    (forall message : string,
        decodeFailure env = Some message ->
        effects s' = effects s
                     ++ [AudioContextCreated;
                         ConsoleError ("Rendering failed: " ++ message);
                         AudioContextClosed; AudioSeeked 0]
        /\ error (ui s') = Some ("Rendering failed: " ++ message
                                 ++ ". Check console for details.")%string
        /\ world s' = world s)
    /\ (decodeFailure env = None -> context2d env = false ->
        effects s' = effects s ++ setUpEffects width height 30
                     ++ [ConsoleError "Rendering failed: Could not get canvas context";
                         AudioContextClosed; AudioSeeked 0]
        /\ error (ui s')
           = Some "Rendering failed: Could not get canvas context. Check console for details."%string
        /\ world s' = world s).
Proof.
  intros env s width height audioDuration bins Had s'. subst s'.
  unfold handleRenderVideo.
  rewrite (handleRenderVideoAt_pastGuards 30 env s width height audioDuration bins Had).
  unfold tryCatchFinally.
  set (s0 := mkJobState _ (effects s ++ [AudioContextCreated]) (world s)).
  split.
  - intros message Hdec.
    rewrite (renderJob_decode_failure 30 env width height bins (Fin audioDuration) s0 message Hdec).
    subst s0. cbn [effects ui world error setCurrentTime setRenderMessage
                   setRenderProgress setIsRendering setError].
    rewrite <- !app_assoc. repeat split.
  - intros Hdec Hctx.
    rewrite (renderJob_no_context 30 env width height bins (Fin audioDuration) s0 Hdec Hctx).
    subst s0. cbn [effects ui world error setCurrentTime setRenderMessage
                   setRenderProgress setIsRendering setError].
    rewrite <- !app_assoc. repeat split.
Qed.

Lemma handleRenderVideo_setup_failures_witness :
  pastGuards (appEnv 2 (Some "EncodingError"%string) None) (idle halves) 1280 720 2 128
  /\ error (ui (handleRenderVideo (appEnv 2 (Some "EncodingError"%string) None)
                                  (idle halves)))
     = Some "Rendering failed: EncodingError. Check console for details."%string.
Proof.
  assert (A : pastGuards (appEnv 2 (Some "EncodingError"%string) None)
                       (idle halves) 1280 720 2 128)
    by (repeat split; reflexivity).
  split; [exact A |].
  destruct (handleRenderVideo_setup_failures _ _ _ _ _ _ A) as [D _].
  destruct (D "EncodingError"%string eq_refl) as (_ & E & _).
  exact E.
Defined.

Lemma frameEffects_withoutParticles (frameRate i : Z)
    (frames : list (list Z * list ParticleObj)) :
  Forall (fun f => snd f = []) frames ->
  Forall withoutParticles (frameEffects frameRate i frames).
Proof.
  intros H. revert i. induction H as [| [a p] rest Hp _ IH]; intros i.
  - constructor.
  - cbn [frameEffects]. constructor; [exact I |]. constructor; [exact Hp | apply IH].
Qed.

(** X10. With the particles disabled a job draws no random number at
    all, whatever its outcome, and every frame it encodes is drawn without
    a particle. *)
Theorem handleRenderVideo_particles_disabled :
  forall (env : RenderEnv) (s : JobState) (width height : nat)
         (audioDuration : Q) (bins : nat),
    pastGuards env s width height audioDuration bins ->
    enabled (particleConfig env) = false ->
    let s' := handleRenderVideo env s in
    world s' = world s
    /\ exists added : list Effect,
         effects s' = effects s ++ added /\ Forall withoutParticles added.
Proof.
  intros env s width height audioDuration bins Had Hen s'. subst s'.
  unfold handleRenderVideo.
  rewrite (handleRenderVideoAt_pastGuards 30 env s width height audioDuration bins Had).
  unfold tryCatchFinally.
  set (s0 := mkJobState _ (effects s ++ [AudioContextCreated]) (world s)).
  destruct (decodeFailure env) as [message |] eqn:Hdec.
  - rewrite (renderJob_decode_failure 30 env width height bins (Fin audioDuration) s0 message Hdec).
    subst s0. cbn [effects ui world]. split; [reflexivity |].
    eexists. rewrite <- !app_assoc. split; [reflexivity |].
    repeat constructor.
  - destruct (context2d env) eqn:Hctx.
    + destruct (renderJob_frames 30 env width height bins (Fin audioDuration) s0 Hdec Hctx)
        as (frames & _ & F2 & F3 & _ & F5 & _).
      destruct (F5 Hen) as [W N].
      pose proof (frameEffects_withoutParticles 30 0 frames N) as Q.
      destruct (renderJob 30 env width height (Fin audioDuration) bins s0) as [out s1].
      cbn [fst snd] in F2, F3, W.
      destruct (Nat.eqb _ _); subst out; cbn [effects ui world]; rewrite F2, W;
        subst s0; cbn [effects world]; (split; [reflexivity |]);
        eexists; rewrite <- !app_assoc; (split; [reflexivity |]);
        cbn [app]; constructor; try exact I;
        repeat (apply Forall_app; split); try exact Q; repeat constructor.
    + rewrite (renderJob_no_context 30 env width height bins (Fin audioDuration) s0 Hdec Hctx).
      subst s0. cbn [effects ui world]. split; [reflexivity |].
      eexists. rewrite <- !app_assoc. split; [reflexivity |].
      repeat constructor.
Qed.

Lemma handleRenderVideo_particles_disabled_witness :
  pastGuards (quietEnv 2) (idle halves) 1280 720 2 128
  /\ enabled (particleConfig (quietEnv 2)) = false
  /\ world (handleRenderVideo (quietEnv 2) (idle halves)) = world (idle halves).
Proof.
  assert (A : pastGuards (quietEnv 2) (idle halves) 1280 720 2 128)
    by (repeat split; reflexivity).
  split; [exact A |]. split; [reflexivity |].
  exact (proj1 (handleRenderVideo_particles_disabled _ _ _ _ _ _ A eq_refl)).
Defined.

(** X11. The guards of the handler, in their order.  A missing
    canvas, audio element or file is reported first; with these present a
    missing analyser is reported, also while a job is running; with all
    four present a running job makes the call do nothing.  In none of the
    three cases is an audio context created or any other effect
    performed, and the rendering flag, the progress and the playback flag
    keep their values. *)
Theorem handleRenderVideo_guards :
  forall (env : RenderEnv) (s : JobState),
    let s' := handleRenderVideo env s in
    ((canvas env = None \/ audioElement env = None \/ audioFile env = false) ->
     error (ui s') = Some "Please upload audio and any images before rendering."%string)
    /\ (canvas env <> None -> audioElement env <> None -> audioFile env = true ->
        liveAnalyser env = None ->
        error (ui s') = Some "Audio analyser not ready. Please try reloading."%string)
    /\ (canvas env <> None -> audioElement env <> None -> audioFile env = true ->
        liveAnalyser env <> None -> isRendering (ui s) = true -> s' = s)
    /\ ((canvas env = None \/ audioElement env = None \/ audioFile env = false
         \/ liveAnalyser env = None \/ isRendering (ui s) = true) ->
        effects s' = effects s /\ world s' = world s
        /\ isRendering (ui s') = isRendering (ui s)
        /\ isPlaying (ui s') = isPlaying (ui s)
        /\ renderProgress (ui s') = renderProgress (ui s)).
Proof.
  intros env s s'. subst s'. unfold handleRenderVideo, handleRenderVideoAt.
  destruct (canvas env) as [[width height] |], (audioElement env) as [d |],
    (audioFile env), (liveAnalyser env) as [bins |], (isRendering (ui s)) eqn:R;
    cbn [ui effects world error setError isRendering isPlaying renderProgress];
    (split; [intros [H | [H | H]]; congruence |]);
    (split; [intros; congruence |]);
    (split; [intros; try congruence; destruct s; reflexivity |]);
    try (intros _; repeat split; first [reflexivity | congruence]);
    intros [H | [H | [H | [H | H]]]]; congruence.
Qed.
Lemma framesDone_le (env : RenderEnv) (iters : nat) (i : Z) :
  (framesDone env iters i <= iters)%nat.
Proof.
  revert i. induction iters as [| n IH]; intros i; [apply Nat.le_refl |].
  cbn [framesDone]. destruct (keepsRendering env i); [| lia].
  specialize (IH (i + 1)). lia.
Qed.

(** The fraction [i / totalFrames] of the frames done, a double of the
    unit interval within 2^-53 of the exact fraction. *)
Lemma fraction_done (i t : Z) :
  0 <= i <= t -> 0 < t <= 2 ^ 48 ->
  exists q : Q,
    Double.div (ofZ i) (ofZ t) = Fin q /\ rnd q = Fin q /\ (0 <= q <= 1)%Q
    /\ (q - pow2 (-53) <= inject_Z i / inject_Z t <= q + pow2 (-53))%Q.
Proof.
  intros Hi Ht.
  assert (B : 2 ^ 48 < 2 ^ 53) by (apply Z.pow_lt_mono_r; lia).
  rewrite Double_div_Z by lia.
  assert (Tp : (0 < inject_Z t)%Q) by (apply inject_Z_pos; lia).
  assert (U : (0 <= inject_Z i / inject_Z t <= 1)%Q).
  { split.
    - apply Qle_shift_div_l; [exact Tp |]. rewrite Qmult_0_l. apply inject_Z_nonneg. lia.
    - apply Qle_shift_div_r; [exact Tp |]. rewrite Qmult_1_l, <- Zle_Qle. lia. }
  destruct (rnd_near (inject_Z i / inject_Z t) 1) as (q & Rq & L & R);
    [tauto | change (pow2 1) with 2%Q; lra | lia |].
  destruct (rnd_unit _ U) as (q' & Rq' & Hq').
  rewrite Rq in Rq'. apply Fin_inj in Rq'. subst q'.
  exists q. split; [exact Rq |]. split; [exact (rnd_idem _ _ Rq) |].
  split; [exact Hq' |]. split; assumption.
Qed.

(** The percentage shown for frame [i] of [totalFrames > 0]: a whole number
    from 0 to 100, one of the two whole numbers around 100 i / totalFrames. *)
Lemma progressOf_percent (i t : Z) :
  0 <= i <= t -> 0 < t <= 2 ^ 48 ->
  exists z : Z,
    progressOf i (ofZ t) = ofZ z
    /\ 0 <= z <= 100
    /\ Qfloor (100 * inject_Z i / inject_Z t) <= z
       <= Qceiling (100 * inject_Z i / inject_Z t).
Proof.
  intros Hi Ht. destruct (fraction_done i t Hi Ht) as (q & Eq & Rq & Hq & L & R).
  unfold progressOf. rewrite Eq. unfold Double.mul, ofZ. cbn [nearest].
  rewrite Rq, (rnd_Z 100) by lia. cbn [numMul nearest].
  change (inject_Z 100) with 100%Q.
  assert (P : (0 <= q * 100 <= 100)%Q) by lra.
  destruct (rnd_near (q * 100) 7) as (p & Rp & Lp & Up);
    [lra | change (pow2 7) with 128%Q; lra | lia |].
  destruct (rnd_between 0 100 (q * 100)) as (p' & Rp' & Hp);
    [apply (isDouble_small 0); lia | apply (isDouble_small 100); lia | exact P |].
  rewrite Rp in Rp'. apply Fin_inj in Rp'. subst p'.
  rewrite Rp. cbn [numRound]. exists (Qfloor (p + (1#2))).
  split; [reflexivity |].
  destruct (floor_bounds (p + (1#2))) as [F1 F2].
  set (z := Qfloor (p + (1#2))) in *.
  set (e := (100 * inject_Z i / inject_Z t)%Q).
  assert (E : (e == 100 * (inject_Z i / inject_Z t))%Q) by (subst e; unfold Qdiv; ring).
  change (pow2 (7 - 54)) with (1 # 140737488355328)%Q in Lp, Up.
  change (pow2 (-53)) with (1 # 9007199254740992)%Q in L, R.
  assert (Near : (p - (1#4) <= e <= p + (1#4))%Q) by lra.
  split.
  - split.
    + change 0 with (Qfloor 0). apply Qfloor_resp_le. lra.
    + assert (A : (inject_Z z < inject_Z 101)%Q)
        by (change (inject_Z 101) with 101%Q; lra).
      rewrite <- Zlt_Qlt in A. lia.
  - split.
    + pose proof (Qfloor_le e) as Fe.
      assert (A : (inject_Z (Qfloor e) < inject_Z (z + 1))%Q)
        by (rewrite inject_Z_plus; change (inject_Z 1) with 1%Q; lra).
      rewrite <- Zlt_Qlt in A. lia.
    + pose proof (Qle_ceiling e) as Ce.
      assert (A : (inject_Z z < inject_Z (Qceiling e + 1))%Q)
        by (rewrite inject_Z_plus; change (inject_Z 1) with 1%Q; lra).
      rewrite <- Zlt_Qlt in A. lia.
Qed.

(** The last frame shows 100. *)
Lemma progressOf_last (t : Z) : 0 < t <= 2 ^ 48 -> progressOf t (ofZ t) = ofZ 100.
Proof.
  intros Ht.
  assert (B : 2 ^ 48 < 2 ^ 53) by (apply Z.pow_lt_mono_r; lia).
  unfold progressOf. rewrite Double_div_Z by lia.
  assert (Tp : (0 < inject_Z t)%Q) by (apply inject_Z_pos; lia).
  assert (E : (inject_Z t / inject_Z t == inject_Z 1)%Q) by (field; lra).
  rewrite (rnd_comp _ _ E), (rnd_Z 1) by lia.
  vm_compute. reflexivity.
Qed.

(** The percentage does not decrease from one frame to a later one. *)
Lemma progressOf_mono (i j t : Z) :
  0 <= i <= j -> j <= t -> 0 < t <= 2 ^ 48 ->
  numLe (progressOf i (ofZ t)) (progressOf j (ofZ t)) = true.
Proof.
  intros Hi Hj Ht.
  destruct (fraction_done i t ltac:(lia) Ht) as (q & Eq & Rq & Hq & _).
  destruct (fraction_done j t ltac:(lia) Ht) as (q' & Eq' & Rq' & Hq' & _).
  assert (B : 2 ^ 48 < 2 ^ 53) by (apply Z.pow_lt_mono_r; lia).
  assert (Tp : (0 < inject_Z t)%Q) by (apply inject_Z_pos; lia).
  assert (Q0 : (q <= q')%Q).
  { rewrite Double_div_Z in Eq, Eq' by lia.
    assert (L : (inject_Z i / inject_Z t <= inject_Z j / inject_Z t)%Q).
    { apply Qmult_le_compat_r; [rewrite <- Zle_Qle; lia |].
      apply Qlt_le_weak, Qinv_lt_0_compat, Tp. }
    pose proof (rnd_mono _ _ L) as M. rewrite Eq, Eq' in M. apply numLe_Fin in M. exact M. }
  unfold progressOf. rewrite Eq, Eq'. unfold Double.mul, ofZ. cbn [nearest].
  rewrite Rq, Rq', (rnd_Z 100) by lia. cbn [numMul nearest].
  change (inject_Z 100) with 100%Q.
  assert (L : (q * 100 <= q' * 100)%Q) by lra.
  pose proof (rnd_mono _ _ L) as M.
  destruct (rnd_between 0 100 (q * 100)) as (p & Rp & Hp);
    [apply (isDouble_small 0); lia | apply (isDouble_small 100); lia | lra |].
  destruct (rnd_between 0 100 (q' * 100)) as (p' & Rp' & Hp');
    [apply (isDouble_small 0); lia | apply (isDouble_small 100); lia | lra |].
  rewrite Rp, Rp' in M |- *. apply numLe_Fin in M. cbn [numRound].
  apply numLe_Fin. rewrite <- Zle_Qle. apply Qfloor_resp_le. lra.
Qed.

Lemma progressOf_zero_frames : progressOf 0 (ofZ 0) = NaN.
Proof. reflexivity. Qed.

(** X12. The progress the job shows while it renders.  After the
    frame with index k - 1 (the k-th frame) the progress is
    [Math.round((k - 1) / totalFrames * 100)], computed in doubles: a
    whole percentage between 0 and 100, one of the two whole numbers
    around 100 (k - 1) / totalFrames, not below the progress of any frame
    before, and 100 after the last frame.  (It is not always the nearest
    whole number: frame 23 of 40 shows 57, since 23 / 40 * 100 is
    57.49999999999999 in doubles.)  For an audio shorter than one frame,
    totalFrames is 0 and the progress of its only frame is NaN.  The audio
    lasts up to 2^32 seconds. *)
Theorem renderJob_progress :
  forall (env : RenderEnv) (s : JobState) (width height : nat)
         (audioDuration : Q) (bins : nat),
    decodeFailure env = None -> context2d env = true ->
    (0 <= audioDuration <= inject_Z (2 ^ 32))%Q ->
    let k := Z.of_nat (framesDone env
                         (iterations (totalFramesOf 30 (Fin audioDuration))) 0) in
    0 < k ->
    let p := renderProgress
               (ui (snd (renderJob 30 env width height (Fin audioDuration) bins s))) in
    exists totalFrames : Z,
      totalFramesOf 30 (Fin audioDuration) = ofZ totalFrames
      /\ p = progressOf (k - 1) (ofZ totalFrames)
      /\ (totalFrames = 0 -> isNaN p = true)
      /\ (0 < totalFrames ->
          exists z : Z,
            p = ofZ z
            /\ 0 <= z <= 100
            /\ Qfloor (100 * inject_Z (k - 1) / inject_Z totalFrames) <= z
               <= Qceiling (100 * inject_Z (k - 1) / inject_Z totalFrames)
            /\ (forall j, 0 <= j <= k - 1 ->
                  numLe (progressOf j (ofZ totalFrames)) p = true)
            /\ (k = totalFrames + 1 -> z = 100)).
Proof.
  intros env s width height audioDuration bins Hdec Hctx Hd k Hk p.
  destruct (totalFrames_finite audioDuration 30 Hd ltac:(lia)) as (t & Et & Ht).
  destruct (renderJob_frames 30 env width height bins (Fin audioDuration) s Hdec Hctx)
    as (frames & _ & _ & _ & _ & _ & _ & F7).
  specialize (F7 ltac:(subst k; lia)). fold k in F7. fold p in F7.
  pose proof (framesDone_le env (iterations (totalFramesOf 30 (Fin audioDuration))) 0)
    as Hle.
  rewrite Et in F7. rewrite Et, iterations_ofZ in Hle.
  assert (Hk' : k <= t + 1).
  { subst k. rewrite Et, iterations_ofZ. lia. }
  exists t. split; [exact Et |]. split; [exact F7 |]. split.
  - intros H0. rewrite F7, H0. replace (k - 1) with 0 by lia. reflexivity.
  - intros Hpos.
    destruct (progressOf_percent (k - 1) t ltac:(lia) ltac:(lia)) as (z & Ez & Hz & Hfc).
    exists z. rewrite F7. split; [exact Ez |]. split; [exact Hz |].
    split; [exact Hfc |]. split.
    + intros j Hj. apply progressOf_mono; lia.
    + intros E. replace (k - 1) with t in Ez by lia.
      rewrite progressOf_last in Ez by lia. apply ofZ_inj in Ez. lia.
Qed.

(** An audio of 4/3 seconds has 40 frames after the first; cancelled at
    the top of iteration 24 the job has shown 57 for frame 23. *)
Lemma renderJob_progress_witness :
  totalFramesOf 30 (Fin (4#3)) = ofZ 40
  /\ renderProgress
       (ui (snd (renderJob 30 (appEnv (4#3) None (Some 24)) 1280 720 (Fin (4#3)) 128
                           (idle halves)))) = ofZ 57.
Proof.
  assert (T : totalFramesOf 30 (Fin (4#3)) = ofZ 40) by (vm_compute; reflexivity).
  split; [exact T |].
  destruct (renderJob_progress (appEnv (4#3) None (Some 24)) (idle halves)
              1280 720 (4#3) 128 eq_refl eq_refl) as (t & Et & Ep & _).
  - split; [discriminate | vm_compute; discriminate].
  - vm_compute. reflexivity.
  - rewrite T in Et. apply ofZ_inj in Et. subst t. rewrite Ep.
    vm_compute. reflexivity.
Defined.

(** ** Colours *)

Lemma digitValue_range (c : ascii) :
  Hex.isHexDigit c = true -> 0 <= Hex.digitValue c <= 15.
Proof.
  unfold Hex.isHexDigit, Hex.digitValue. cbv zeta.
  set (n := Z.of_nat (nat_of_ascii c)).
  destruct (48 <=? n) eqn:A, (n <=? 57) eqn:B, (65 <=? n) eqn:C, (n <=? 70) eqn:D,
    (97 <=? n) eqn:E, (n <=? 102) eqn:F; cbn [andb orb]; intros H;
    try discriminate; lia.
Qed.

Lemma substring_tail (s : string) : substring 1 (String.length s) (String "#"%char s) = s.
Proof.
  cbn [substring]. induction s as [| a s IH]; [reflexivity |].
  cbn [String.length substring]. f_equal. exact IH.
Qed.

Lemma length_string_of_list_ascii (l : list ascii) :
  String.length (string_of_list_ascii l) = length l.
Proof. induction l as [| a l IH]; [reflexivity |]. cbn. f_equal. exact IH. Qed.

(** The digits [hexToRgba] reads from a colour that passes the test. *)
Lemma hexToRgba_digits (digits : list ascii) (alpha : Q) :
  Hex.test (hexColour digits) = true ->
  hexToRgba (hexColour digits) alpha
  = let c := match digits with
             | [c0; c1; c2] => [c0; c0; c1; c1; c2; c2]
             | _ => digits
             end in
    let num := Hex.parseInt16 c in
    Hex.rgba (Z.land (Z.shiftr num 16) 255) (Z.land (Z.shiftr num 8) 255)
             (Z.land num 255) alpha.
Proof.
  intros T. unfold hexToRgba. rewrite T. cbn [negb]. unfold hexColour.
  cbn [String.length]. rewrite Nat.sub_succ, Nat.sub_0_r.
  rewrite substring_tail, list_ascii_of_string_of_list_ascii. reflexivity.
Qed.

Lemma channel_split (hi lo rest k : Z) :
  0 <= lo < 2 ^ k -> 0 <= k -> 0 <= hi ->
  Z.shiftr (hi * 2 ^ k + lo) k = hi.
Proof.
  intros Hlo Hk Hhi. rewrite Z.shiftr_div_pow2 by exact Hk.
  replace (hi * 2 ^ k + lo) with (lo + hi * 2 ^ k) by lia.
  rewrite Z.div_add by lia. rewrite Z.div_small by lia. reflexivity.
Qed.

Lemma land_255 (n : Z) : Z.land n 255 = n mod 256.
Proof. change 255 with (Z.ones 8). rewrite Z.land_ones by lia. reflexivity. Qed.

(** The channels of six packed digits. *)
Lemma packed_channels (v0 v1 v2 v3 v4 v5 : Z) :
  0 <= v0 <= 15 -> 0 <= v1 <= 15 -> 0 <= v2 <= 15 ->
  0 <= v3 <= 15 -> 0 <= v4 <= 15 -> 0 <= v5 <= 15 ->
  let num := (((((0 * 16 + v0) * 16 + v1) * 16 + v2) * 16 + v3) * 16 + v4) * 16 + v5 in
  Z.land (Z.shiftr num 16) 255 = 16 * v0 + v1
  /\ Z.land (Z.shiftr num 8) 255 = 16 * v2 + v3
  /\ Z.land num 255 = 16 * v4 + v5.
Proof.
  intros H0 H1 H2 H3 H4 H5 num. subst num. rewrite !land_255.
  replace ((((((0 * 16 + v0) * 16 + v1) * 16 + v2) * 16 + v3) * 16 + v4) * 16 + v5)
    with ((16 * v0 + v1) * 2 ^ 16 + ((16 * v2 + v3) * 2 ^ 8 + (16 * v4 + v5))) by lia.
  rewrite (channel_split (16 * v0 + v1) _ 0 16) by lia.
  assert (G : Z.shiftr ((16 * v0 + v1) * 2 ^ 16 + ((16 * v2 + v3) * 2 ^ 8 + (16 * v4 + v5))) 8
              = (16 * v0 + v1) * 2 ^ 8 + (16 * v2 + v3)).
  { replace ((16 * v0 + v1) * 2 ^ 16 + ((16 * v2 + v3) * 2 ^ 8 + (16 * v4 + v5)))
      with (((16 * v0 + v1) * 2 ^ 8 + (16 * v2 + v3)) * 2 ^ 8 + (16 * v4 + v5)) by lia.
    apply (channel_split _ _ 0); lia. }
  rewrite G.
  assert (R : (16 * v0 + v1) mod 256 = 16 * v0 + v1) by (apply Z.mod_small; lia).
  assert (Gm : ((16 * v0 + v1) * 2 ^ 8 + (16 * v2 + v3)) mod 256 = 16 * v2 + v3).
  { change (2 ^ 8) with 256. rewrite Z.add_comm, Z.mod_add by lia.
    apply Z.mod_small; lia. }
  assert (Bm : ((16 * v0 + v1) * 2 ^ 16 + ((16 * v2 + v3) * 2 ^ 8 + (16 * v4 + v5))) mod 256
               = 16 * v4 + v5).
  { replace ((16 * v0 + v1) * 2 ^ 16 + ((16 * v2 + v3) * 2 ^ 8 + (16 * v4 + v5)))
      with ((16 * v4 + v5) + ((16 * v0 + v1) * 256 + (16 * v2 + v3)) * 256) by lia.
    rewrite Z.mod_add by lia. apply Z.mod_small; lia. }
  rewrite R, Gm, Bm. repeat split.
Qed.

Lemma test_hexColour (digits : list ascii) :
  Hex.test (hexColour digits)
  = forallb Hex.isHexDigit digits
    && ((length digits =? 3)%nat || (length digits =? 6)%nat).
Proof.
  unfold hexColour, Hex.test.
  rewrite list_ascii_of_string_of_list_ascii, length_string_of_list_ascii. reflexivity.
Qed.

(** X13. [hexToRgba] on a colour of six hexadecimal digits: each
    channel is the value of its pair of digits, sixteen times the first
    digit plus the second, so between 0 and 255, and the alpha is passed
    through. *)
Theorem hexToRgba_six_digits :
  forall (c0 c1 c2 c3 c4 c5 : ascii) (alpha : Q),
    forallb Hex.isHexDigit [c0; c1; c2; c3; c4; c5] = true ->
    let colour := hexToRgba (hexColour [c0; c1; c2; c3; c4; c5]) alpha in
    Hex.red colour = 16 * Hex.digitValue c0 + Hex.digitValue c1
    /\ Hex.green colour = 16 * Hex.digitValue c2 + Hex.digitValue c3
    /\ Hex.blue colour = 16 * Hex.digitValue c4 + Hex.digitValue c5
    /\ 0 <= Hex.red colour <= 255 /\ 0 <= Hex.green colour <= 255
    /\ 0 <= Hex.blue colour <= 255
    /\ Hex.alpha colour = alpha.
Proof.
  intros c0 c1 c2 c3 c4 c5 alpha H colour.
  assert (T : Hex.test (hexColour [c0; c1; c2; c3; c4; c5]) = true)
    by (rewrite test_hexColour, H; reflexivity).
  cbn [forallb] in H. rewrite !andb_true_iff in H.
  destruct H as (H0 & H1 & H2 & H3 & H4 & H5 & _).
  apply digitValue_range in H0, H1, H2, H3, H4, H5.
  subst colour. rewrite (hexToRgba_digits _ alpha T). cbv zeta.
  cbn [Hex.red Hex.green Hex.blue Hex.alpha].
  unfold Hex.parseInt16. cbn [fold_left].
  destruct (packed_channels _ _ _ _ _ _ H0 H1 H2 H3 H4 H5) as (R & G & B).
  rewrite R, G, B. repeat split; lia.
Qed.

Lemma hexToRgba_six_digits_witness :
  Hex.red (hexToRgba "#7c3AED" (7#10)) = 124
  /\ Hex.green (hexToRgba "#7c3AED" (7#10)) = 58
  /\ Hex.blue (hexToRgba "#7c3AED" (7#10)) = 237.
Proof.
  destruct (hexToRgba_six_digits "7" "c" "3" "A" "E" "D" (7#10) eq_refl)
    as (R & G & B & _).
  split; [exact R |]. split; [exact G | exact B].
Defined.

(** X14. The shorthand of three digits stands for the colour with
    each digit doubled: [#abc] is read as [#aabbcc], so each channel is 17
    times the value of its digit. *)
Theorem hexToRgba_shorthand :
  forall (c0 c1 c2 : ascii) (alpha : Q),
    forallb Hex.isHexDigit [c0; c1; c2] = true ->
    hexToRgba (hexColour [c0; c1; c2]) alpha
    = hexToRgba (hexColour [c0; c0; c1; c1; c2; c2]) alpha
    /\ hexToRgba (hexColour [c0; c1; c2]) alpha
       = Hex.rgba (17 * Hex.digitValue c0) (17 * Hex.digitValue c1)
                  (17 * Hex.digitValue c2) alpha.
Proof.
  intros c0 c1 c2 alpha H.
  assert (T3 : Hex.test (hexColour [c0; c1; c2]) = true)
    by (rewrite test_hexColour, H; reflexivity).
  cbn [forallb] in H. rewrite !andb_true_iff in H.
  destruct H as (H0 & H1 & H2 & _).
  assert (T6 : Hex.test (hexColour [c0; c0; c1; c1; c2; c2]) = true)
    by (rewrite test_hexColour; cbn [forallb]; rewrite H0, H1, H2; reflexivity).
  apply digitValue_range in H0, H1, H2.
  rewrite (hexToRgba_digits _ alpha T3), (hexToRgba_digits _ alpha T6).
  split; [reflexivity |]. cbv zeta. unfold Hex.parseInt16. cbn [fold_left].
  destruct (packed_channels _ _ _ _ _ _ H0 H0 H1 H1 H2 H2) as (R & G & B).
  rewrite R, G, B. f_equal; lia.
Qed.

Lemma hexToRgba_shorthand_witness :
  hexToRgba "#fA0" 1 = Hex.rgba 255 170 0 1.
Proof.
  exact (proj2 (hexToRgba_shorthand "f" "A" "0" 1 eq_refl)).
Defined.

Lemma upper_hex (c : ascii) :
  Hex.isHexDigit (upper c) = Hex.isHexDigit c
  /\ (Hex.isHexDigit c = true -> Hex.digitValue (upper c) = Hex.digitValue c).
Proof.
  destruct c as [[] [] [] [] [] [] [] []]; vm_compute; split;
    first [reflexivity | intros; congruence].
Qed.

Lemma forallb_upper (digits : list ascii) :
  forallb Hex.isHexDigit (map upper digits) = forallb Hex.isHexDigit digits.
Proof.
  induction digits as [| c rest IH]; [reflexivity |].
  cbn [map forallb]. rewrite IH, (proj1 (upper_hex c)). reflexivity.
Qed.

Lemma parseInt16_upper (digits : list ascii) :
  forallb Hex.isHexDigit digits = true ->
  Hex.parseInt16 (map upper digits) = Hex.parseInt16 digits.
Proof.
  unfold Hex.parseInt16. generalize 0.
  induction digits as [| c rest IH]; intros acc H; [reflexivity |].
  cbn [forallb] in H. apply andb_true_iff in H. destruct H as [Hc Hr].
  cbn [map fold_left]. rewrite (proj2 (upper_hex c) Hc). apply IH, Hr.
Qed.

Lemma hexToRgba_white (hex : string) (alpha : Q) :
  Hex.test hex = false -> hexToRgba hex alpha = Hex.rgba 255 255 255 alpha.
Proof. intros H. unfold hexToRgba. rewrite H. reflexivity. Qed.

Lemma test_shape (hex : string) :
  Hex.test hex = true ->
  exists digits : list ascii, hex = hexColour digits.
Proof.
  destruct hex as [| a rest]; [discriminate |]. intros H.
  exists (list_ascii_of_string rest). unfold hexColour.
  rewrite string_of_list_ascii_of_string.
  destruct a as [[] [] [] [] [] [] [] []]; try discriminate H. reflexivity.
Qed.

Lemma capitals_hexColour (digits : list ascii) :
  capitals (hexColour digits) = hexColour (map upper digits).
Proof.
  unfold capitals, hexColour. cbn [list_ascii_of_string map string_of_list_ascii].
  rewrite list_ascii_of_string_of_list_ascii. reflexivity.
Qed.

Lemma test_capitals (hex : string) :
  Hex.test (capitals hex) = Hex.test hex.
Proof.
  destruct hex as [| a rest]; [reflexivity |].
  unfold capitals. cbn [list_ascii_of_string map string_of_list_ascii].
  assert (U : forall b, (upper b = "#"%char) <-> (b = "#"%char)).
  { intros b. destruct b as [[] [] [] [] [] [] [] []]; vm_compute; split; congruence. }
  unfold Hex.test.
  rewrite list_ascii_of_string_of_list_ascii, length_string_of_list_ascii,
    length_map, forallb_upper.
  rewrite <- (length_string_of_list_ascii (list_ascii_of_string rest)),
    string_of_list_ascii_of_string.
  destruct (ascii_dec a "#"%char) as [-> | Ne]; [reflexivity |].
  assert (Nu : upper a <> "#"%char) by (intros E; apply Ne, U, E).
  destruct a as [[] [] [] [] [] [] [] []]; try reflexivity; contradiction Ne; reflexivity.
Qed.

Lemma hexToRgba_capitals (hex : string) (alpha : Q) :
  hexToRgba (capitals hex) alpha = hexToRgba hex alpha.
Proof.
  destruct (Hex.test hex) eqn:T.
  - destruct (test_shape hex T) as [digits ->].
    pose proof T as Tu. rewrite <- test_capitals in Tu.
    rewrite capitals_hexColour in *.
    rewrite (hexToRgba_digits _ alpha T), (hexToRgba_digits _ alpha Tu).
    rewrite test_hexColour in T. apply andb_true_iff in T. destruct T as [D L].
    cbv zeta.
    assert (E : Hex.parseInt16
                  match map upper digits with
                  | [c0; c1; c2] => [c0; c0; c1; c1; c2; c2]
                  | _ => map upper digits
                  end
                = Hex.parseInt16
                    match digits with
                    | [c0; c1; c2] => [c0; c0; c1; c1; c2; c2]
                    | _ => digits
                    end).
    { destruct digits as [| c0 [| c1 [| c2 [| c3 rest]]]];
        try (apply parseInt16_upper; exact D).
      cbn [forallb] in D. rewrite !andb_true_iff in D. destruct D as (D0 & D1 & D2 & _).
      apply (parseInt16_upper [c0; c0; c1; c1; c2; c2]).
      cbn [forallb]. rewrite D0, D1, D2. reflexivity. }
    rewrite E. reflexivity.
  - rewrite !hexToRgba_white; [reflexivity | exact T |].
    rewrite test_capitals. exact T.
Qed.

(** X15. [hexToRgba] does not tell upper case from lower case: a
    colour made of ASCII characters and the same string in upper case
    give the same result.  (Beyond ASCII the upper case of a string that
    is no colour can be one.) *)
Theorem hexToRgba_ignores_case :
  forall (hex up : string) (alpha : Q),
    toUpperCase hex = Some up ->
    hexToRgba up alpha = hexToRgba hex alpha.
Proof.
  intros hex up alpha. unfold toUpperCase.
  destruct (forallb isAscii (list_ascii_of_string hex)); [| discriminate].
  intros E. injection E as <-. apply hexToRgba_capitals.
Qed.

Lemma hexToRgba_ignores_case_witness :
  toUpperCase "#a78bfa"%string = Some "#A78BFA"%string
  /\ hexToRgba "#A78BFA"%string (1#2) = hexToRgba "#a78bfa"%string (1#2)
  /\ hexToRgba "#a78bfa"%string (1#2) = Hex.rgba 167 139 250 (1#2).
Proof.
  assert (U : toUpperCase "#a78bfa"%string = Some "#A78BFA"%string) by reflexivity.
  split; [exact U |].
  split; [exact (hexToRgba_ignores_case "#a78bfa"%string "#A78BFA"%string (1#2) U) | reflexivity].
Defined.

(** X16. [hexToRgba] returns a colour for every string: the three
    channels are whole numbers between 0 and 255 and the alpha is the one
    it was given.  Anything but a hash sign followed by three or six
    hexadecimal digits is white, so are the forms of four and of eight
    digits. *)
Theorem hexToRgba_total :
  forall (hex : string) (alpha : Q),
    let colour := hexToRgba hex alpha in
    0 <= Hex.red colour <= 255 /\ 0 <= Hex.green colour <= 255
    /\ 0 <= Hex.blue colour <= 255 /\ Hex.alpha colour = alpha
    /\ ((String.length hex <> 4)%nat -> (String.length hex <> 7)%nat ->
        colour = Hex.rgba 255 255 255 alpha).
Proof.
  intros hex alpha colour. subst colour.
  assert (B : forall n, 0 <= Z.land n 255 <= 255).
  { intros n. rewrite land_255. pose proof (Z.mod_pos_bound n 256). lia. }
  split; [| split; [| split; [| split]]].
  1-4: unfold hexToRgba; destruct (negb (Hex.test hex));
       cbn [Hex.red Hex.green Hex.blue Hex.alpha]; first [lia | apply B | reflexivity].
  intros N4 N7. apply hexToRgba_white.
  destruct (Hex.test hex) eqn:T; [| reflexivity].
  destruct (test_shape hex T) as [digits ->].
  rewrite test_hexColour in T. apply andb_true_iff in T. destruct T as [_ L].
  unfold hexColour in N4, N7. cbn [String.length] in N4, N7.
  rewrite length_string_of_list_ascii in N4, N7.
  apply orb_true_iff in L. destruct L as [L | L]; apply Nat.eqb_eq in L; lia.
Qed.
(** ** Time label *)

Lemma numDiv_pos (a b : Q) :
  (0 < b)%Q -> numDiv (Fin a) (Fin b) = Fin (a / b).
Proof.
  intros Hb. cbn [numDiv]. destruct (Qeq_bool b 0) eqn:E; [| reflexivity].
  apply Qeq_bool_iff in E. lra.
Qed.

Lemma numberToString_decimal (z : Z) : 0 <= z < 2 ^ 53 -> numberToString z = decimal z.
Proof.
  intros H. unfold numberToString, wholeToString.
  destruct (Z.ltb_spec z 0); [lia |]. destruct (Z.ltb_spec z (2 ^ 53)); [reflexivity | lia].
Qed.

Lemma readDecimal_decimal (z : Z) :
  0 <= z -> readDecimal (decimal z) = Some z.
Proof.
  intros Hz. destruct z as [| p | p]; [reflexivity | | lia].
  unfold readDecimal, decimal. cbn [Z.to_int NilZero.string_of_int].
  rewrite NilZero.usu.
  - cbn [option_map]. unfold Z.of_uint. rewrite DecimalPos.Unsigned.of_to. reflexivity.
  - intros E. pose proof (DecimalPos.Unsigned.of_to p) as O. rewrite E in O. discriminate O.
Qed.

Lemma readDecimal_padStart2 (s : string) (z : Z) :
  readDecimal s = Some z -> readDecimal (padStart2 s) = Some z.
Proof.
  intros H. unfold padStart2.
  destruct s as [| a [| b rest]]; [discriminate H | | exact H].
  cbn [String.length]. unfold readDecimal in *.
  change (NilZero.uint_of_string (String "0" (String a "")))
    with (option_map D0 (NilZero.uint_of_string (String a ""))).
  destruct (NilZero.uint_of_string (String a "")) as [d |]; [| discriminate H].
  exact H.
Qed.

Lemma padStart2_length (s : string) : (2 <= String.length (padStart2 s))%nat.
Proof.
  unfold padStart2. destruct s as [| a [| b rest]]; cbn [String.length]; lia.
Qed.

Lemma two_digits (z : Z) :
  0 <= z < 100 -> String.length (padStart2 (decimal z)) = 2%nat.
Proof.
  intros Hz. destruct z as [| p | p]; [reflexivity | | lia].
  do 7 (destruct p as [p | p |]; try lia; try reflexivity).
Qed.

Lemma length_append (a b : string) :
  String.length (a ++ b) = (String.length a + String.length b)%nat.
Proof. induction a as [| c a IH]; [reflexivity |]. cbn. f_equal. exact IH. Qed.

(** The minutes: below 2^52 seconds the rounded quotient by 60 has the
    whole part of the exact quotient. *)
Lemma minutes_exact (f : Z) :
  0 <= f < 2 ^ 52 -> floorOf (Double.div (ofZ f) (ofZ 60)) = f / 60.
Proof.
  intros Hf. unfold Double.div. rewrite !nearest_ofZ by lia.
  unfold ofZ. rewrite numDiv_pos by reflexivity. cbn [nearest].
  pose proof (Z.div_mod f 60 ltac:(lia)) as DM.
  pose proof (Z.mod_pos_bound f 60 ltac:(lia)) as MB.
  assert (K : 0 <= f / 60) by (apply Z.div_pos; lia).
  assert (K' : f / 60 < 2 ^ 47) by (apply Z.div_lt_upper_bound; lia).
  set (k := f / 60) in *.
  assert (Ef : (inject_Z f / inject_Z 60 == inject_Z k + inject_Z (f mod 60) * (1 # 60))%Q).
  { rewrite DM at 1. rewrite inject_Z_plus, inject_Z_mult.
    change (inject_Z 60) with 60%Q. field. }
  assert (R0 : (0 <= inject_Z (f mod 60) <= 59)%Q).
  { change 0%Q with (inject_Z 0). change 59%Q with (inject_Z 59).
    rewrite <- !Zle_Qle. lia. }
  assert (Dk : isDouble (inject_Z k)) by (apply isDouble_Z; lia).
  assert (Du : isDouble (inject_Z (64 * k + 63) * pow2 (-6))).
  { unfold isDouble.
    rewrite (rnd_exact _ (64 * k + 63) (-6)); [cbn [numEq]; apply Qred_correct
                                              | reflexivity | lia | lia | |].
    - assert (0 <= inject_Z (64 * k + 63) * pow2 (-6))%Q.
      { apply Qmult_le_0_compat; [| apply Qlt_le_weak, pow2_pos].
        change 0%Q with (inject_Z 0). rewrite <- Zle_Qle. lia. }
      pose proof (pow2_pos 1024). lra.
    - assert (U : (inject_Z (64 * k + 63) < inject_Z (2 ^ 53))%Q)
        by (rewrite <- Zlt_Qlt; lia).
      rewrite <- (pow2_Z 53) in U by lia.
      assert (P6 : (pow2 (-6) <= 1)%Q) by (change 1%Q with (pow2 0); apply pow2_le; lia).
      assert (P : (pow2 53 < pow2 1024)%Q) by (apply pow2_lt; lia).
      pose proof (pow2_pos 53). pose proof (pow2_pos (-6)).
      assert (0 <= inject_Z (64 * k + 63))%Q
        by (change 0%Q with (inject_Z 0); rewrite <- Zle_Qle; lia).
      nra. }
  assert (Eu : (inject_Z (64 * k + 63) * pow2 (-6) == inject_Z k + (63 # 64))%Q).
  { rewrite inject_Z_plus, inject_Z_mult. change (pow2 (-6)) with (1 # 64)%Q.
    change (inject_Z 64) with 64%Q. change (inject_Z 63) with 63%Q. field. }
  destruct (rnd_between (inject_Z k) (inject_Z (64 * k + 63) * pow2 (-6))
              (inject_Z f / inject_Z 60) Dk Du) as (r & Er & R1 & R2).
  { rewrite Ef, Eu. split; lra. }
  rewrite Er. cbn [floorOf].
  rewrite Eu in R2. apply floor_unique; lra.
Qed.

(** X17. The label of the seek bar.  For a time that is not a
    number or not finite (the duration before the audio is loaded) the
    label is that of zero seconds, 00:00.  For a time that is not
    negative and below 2^52 seconds the label is minutes, a colon,
    seconds: the seconds are always two digits and below 60, the minutes
    at least two digits, and read back as decimal numbers they give the
    whole seconds of the time, 60 * minutes + seconds = floor (time).
    Below 100 minutes the label is five characters long.  The time is
    the double the function is given. *)
Theorem formatTime_label :
  forall seconds : num,
    (isFinite (nearest seconds) = false ->
     formatTime seconds = "00:00"%string /\ formatTime seconds = formatTime (ofZ 0))
    /\ (forall d : Q,
          nearest seconds = Fin d -> (0 <= d < inject_Z (2 ^ 52))%Q ->
          exists (mm ss : string) (m s : Z),
            formatTime seconds = (mm ++ ":" ++ ss)%string
            /\ String.length ss = 2%nat /\ (2 <= String.length mm)%nat
            /\ readDecimal mm = Some m /\ readDecimal ss = Some s
            /\ 0 <= s < 60 /\ 60 * m + s = Qfloor d
            /\ ((d < 6000)%Q -> String.length (formatTime seconds) = 5%nat)).
Proof.
  intros seconds. split.
  - intros H. unfold formatTime at 1 2. cbv zeta.
    destruct (nearest seconds); [discriminate H | | |]; split; reflexivity.
  - intros d Ed [Hd Hu].
    assert (F : 0 <= Qfloor d).
    { change 0 with (Qfloor 0). apply Qfloor_resp_le, Hd. }
    assert (Fu : Qfloor d < 2 ^ 52).
    { rewrite Zlt_Qlt. eapply Qle_lt_trans; [apply Qfloor_le | exact Hu]. }
    assert (Efmt : formatTime seconds
                   = (padStart2 (numberToString (Qfloor d / 60)) ++ ":"
                      ++ padStart2 (numberToString (Z.rem (Qfloor d) 60)))%string).
    { unfold formatTime. rewrite Ed. cbn [isNaN isFinite negb orb floorOf].
      rewrite minutes_exact by lia. reflexivity. }
    set (f := Qfloor d) in *.
    assert (R : Z.rem f 60 = f mod 60) by (apply Z.rem_mod_nonneg; lia).
    pose proof (Z.div_mod f 60 ltac:(lia)) as DM.
    pose proof (Z.mod_pos_bound f 60 ltac:(lia)) as MB.
    assert (M : 0 <= f / 60) by (apply Z.div_pos; lia).
    assert (M' : f / 60 < 2 ^ 53) by (apply Z.div_lt_upper_bound; lia).
    rewrite !numberToString_decimal in Efmt by lia.
    exists (padStart2 (decimal (f / 60))),
           (padStart2 (decimal (Z.rem f 60))), (f / 60), (Z.rem f 60).
    split; [exact Efmt |].
    split; [apply two_digits; lia |].
    split; [apply padStart2_length |].
    split; [apply readDecimal_padStart2, readDecimal_decimal, M |].
    split; [apply readDecimal_padStart2, readDecimal_decimal; lia |].
    split; [lia |]. split; [lia |].
    intros Hlt. rewrite Efmt.
    rewrite !length_append. cbn [String.length].
    assert (Fl : f < 6000).
    { assert (L : (inject_Z f <= d)%Q) by apply Qfloor_le.
      assert (L' : (inject_Z f < inject_Z 6000)%Q)
        by (change (inject_Z 6000) with 6000%Q; lra).
      rewrite <- Zlt_Qlt in L'. exact L'. }
    rewrite !two_digits; [reflexivity | lia |].
    split; [exact M |]. apply Z.div_lt_upper_bound; lia.
Qed.

(** Twelve minutes and 34.6 seconds; 754.6 is no double, the label is
    that of the double next to it. *)
Lemma formatTime_label_witness :
  formatTime (Fin (7546 # 10)) = "12:34"%string
  /\ exists (mm ss : string) (m s : Z),
       formatTime (Fin (7546 # 10)) = (mm ++ ":" ++ ss)%string
       /\ readDecimal mm = Some m /\ readDecimal ss = Some s /\ 60 * m + s = 754.
Proof.
  split; [vm_compute; reflexivity |].
  destruct (rnd (7546 # 10)) as [d | | |] eqn:E; try (vm_compute in E; discriminate E).
  assert (Hd : (0 <= d < inject_Z (2 ^ 52))%Q).
  { vm_compute in E. injection E as <-. split; [discriminate | reflexivity]. }
  assert (Fd : Qfloor d = 754).
  { vm_compute in E. injection E as <-. reflexivity. }
  destruct (proj2 (formatTime_label (Fin (7546 # 10))) d E Hd)
    as (mm & ss & m & s & H1 & _ & _ & H2 & H3 & _ & H4 & _).
  exists mm, ss, m, s. rewrite Fd in H4. repeat split; assumption.
Defined.

(** Labels of times beyond the range of the whole numbers that doubles
    tell apart: the minutes are printed with the shortest digits that
    stand for the double, and with an exponent from 10^21 on. *)
Example formatTime_of_long_times :
  formatTime (ofZ (10 ^ 19)) = "166666666666666660:40"%string
  /\ formatTime (ofZ (10 ^ 23)) = "1.6666666666666665e+21:32"%string
  /\ formatTime (Fin (- (1 # 2))) = "-1:-1"%string
  /\ numberToString (2 ^ 53) = "9007199254740992"%string
  /\ numberToString (10 ^ 21) = "1e+21"%string
  /\ numberToString 123456789012345683968 = "123456789012345680000"%string.
Proof. vm_compute. repeat split. Qed.

(** ** Frame compositor *)

Lemma stackAfter_app (a b : list FrameOp) (depth : nat) :
  stackAfter (a ++ b) depth
  = match stackAfter a depth with
    | Some d => stackAfter b d
    | None => None
    end.
Proof.
  revert depth. induction a as [| op a IH]; intros depth; [reflexivity |].
  cbn [app]. destruct op as [| c | | | | | | | | | | |]; cbn [stackAfter]; try apply IH.
  destruct c; try apply IH. destruct depth; [reflexivity | apply IH].
Qed.

Lemma balanced_app (a b : list FrameOp) : balanced a -> balanced b -> balanced (a ++ b).
Proof. intros Ha Hb d. rewrite stackAfter_app, Ha. apply Hb. Qed.

Lemma balanced_nil : balanced [].
Proof. intros d. reflexivity. Qed.

Lemma balanced_flat_map {A : Type} (f : A -> list FrameOp) (l : list A) :
  (forall a, balanced (f a)) -> balanced (flat_map f l).
Proof.
  intros H. induction l as [| a l IH]; [apply balanced_nil |].
  cbn [flat_map]. apply balanced_app; [apply H | exact IH].
Qed.

Lemma balanced_bracket (ops : list FrameOp) :
  balanced ops -> balanced (Ctx Save :: ops ++ [Ctx Restore]).
Proof.
  intros H d. cbn [stackAfter]. rewrite stackAfter_app, H. reflexivity.
Qed.

Lemma map_Ctx_flat_map {A : Type} (f : A -> list CanvasOp) (l : list A) :
  map Ctx (flat_map f l) = flat_map (fun a => map Ctx (f a)) l.
Proof.
  induction l as [| a l IH]; [reflexivity |].
  cbn [flat_map]. rewrite map_app, IH. reflexivity.
Qed.

Lemma balanced_barAt (radius angle : Q) (barHeight : num) :
  balanced (map Ctx (barAt radius angle barHeight)).
Proof.
  intros d. unfold barAt, drawBar. destruct (numLt barHeight (ofZ 1)); reflexivity.
Qed.

Lemma balanced_drawCircularVisualizer (audioData : list Z) (logoRect : Rect)
    (config : VisualizerConfig) :
  balanced (map Ctx (drawCircularVisualizer audioData logoRect config)).
Proof.
  unfold drawCircularVisualizer, prologue. cbv zeta. rewrite !map_app.
  cbn [map app]. intros d. cbn [stackAfter]. rewrite stackAfter_app.
  assert (B : forall ops, balanced (map Ctx ops) ->
              match stackAfter (map Ctx ops) (S d) with
              | Some d0 => stackAfter [Ctx Restore] d0
              | None => None
              end = Some d).
  { intros ops H. rewrite H. reflexivity. }
  apply B. destruct (reflection config); rewrite map_Ctx_flat_map;
    apply balanced_flat_map; intros i; rewrite ?map_app;
    repeat apply balanced_app; apply balanced_barAt.
Qed.

Lemma balanced_drawText (width height : nat) (supportsLetterSpacing : bool)
    (config : TextConfig) :
  balanced (map Ctx (drawText width height supportsLetterSpacing config)).
Proof.
  intros d. unfold drawText.
  destruct (truthy (mainText config)), (truthy (authorText config)),
    supportsLetterSpacing; reflexivity.
Qed.

Lemma balanced_drawBackground (width height : nat) (image : option Image)
    (config : BackgroundConfig) (pulse : num) :
  balanced (drawBackground width height image config pulse).
Proof. intros d. destruct image; reflexivity. Qed.

Lemma balanced_drawParticles (particles : list ParticleObj) (config : ParticleConfig) :
  balanced (drawParticles particles config).
Proof.
  unfold drawParticles. intros d. cbn [app stackAfter]. rewrite stackAfter_app.
  rewrite (balanced_flat_map _ particles); [reflexivity |].
  intros p d'. reflexivity.
Qed.

Lemma balanced_drawLogo (image : option Image) (rect : Rect) (bass : num) :
  balanced (drawLogo image rect bass).
Proof. intros d. destruct image; reflexivity. Qed.

(** X18. Whatever the inputs, a frame leaves the canvas state as it
    found it: every [save] of [drawFrame] and of the layers it calls is
    matched by a later [restore], and no [restore] comes before its
    [save]. *)
Theorem drawFrame_balanced :
  forall (width height : nat) (supportsLetterSpacing : bool) (props : Props.t)
         (particles : list ParticleObj) (depth : nat),
    stackAfter (drawFrame width height supportsLetterSpacing props particles) depth
    = Some depth.
Proof.
  intros width height sls props particles. change (balanced (drawFrame width height sls props particles)).
  unfold drawFrame. cbv zeta.
  apply (balanced_app [ClearRect width height]); [intros d; reflexivity |].
  apply balanced_app; [apply balanced_drawBackground |].
  apply balanced_app.
  { destruct (enabled (Props.particleConfig props));
      [apply balanced_drawParticles | apply balanced_nil]. }
  match goal with
  | |- balanced ([Ctx Save; ?t1; ?s; ?t2] ++ ?v ++ ?l ++ [Ctx Restore] ++ ?txt) =>
      replace ([Ctx Save; t1; s; t2] ++ v ++ l ++ [Ctx Restore] ++ txt)
        with ((Ctx Save :: ([t1; s; t2] ++ v ++ l) ++ [Ctx Restore]) ++ txt)
        by (cbn [app]; rewrite <- !app_assoc; reflexivity)
  end.
  apply balanced_app; [| apply balanced_drawText].
  apply balanced_bracket. apply balanced_app; [intros d; reflexivity |].
  apply balanced_app; [| apply balanced_drawLogo].
  destruct (Props.audioData props);
    [apply balanced_drawCircularVisualizer | apply balanced_nil].
Qed.

Lemma flat_map_nil {A B : Type} (f : A -> list B) (l : list A) :
  (forall a, In a l -> f a = []) -> flat_map f l = [].
Proof.
  intros H. induction l as [| a l IH]; [reflexivity |].
  cbn [flat_map]. rewrite (H a (or_introl eq_refl)), IH; [reflexivity |].
  intros b Hb. apply H. right. exact Hb.
Qed.

Lemma flat_map_Ctx {B : Type} (f : FrameOp -> list B) (l : list CanvasOp) :
  (forall op, f (Ctx op) = []) -> flat_map f (map Ctx l) = [].
Proof.
  intros H. apply flat_map_nil. intros a Ha.
  apply in_map_iff in Ha. destruct Ha as (op & <- & _). apply H.
Qed.

Lemma discs_drawParticles (particles : list ParticleObj) (config : ParticleConfig) :
  discs (drawParticles particles config)
  = map centre particles.
Proof.
  unfold discs, drawParticles. rewrite !flat_map_app. cbn [flat_map app].
  rewrite app_nil_r. induction particles as [| p rest IH]; [reflexivity |].
  cbn [flat_map map app]. f_equal. exact IH.
Qed.

(** The calls of a frame, layer by layer. *)
Lemma flat_map_drawFrame {B : Type} (f : FrameOp -> list B)
    (width height : nat) (supportsLetterSpacing : bool) (props : Props.t)
    (particles : list ParticleObj) :
  (forall op, f (Ctx op) = []) -> f (ClearRect width height) = [] ->
  let averages := getAudioAverages (Props.audioData props) in
  flat_map f (drawFrame width height supportsLetterSpacing props particles)
  = flat_map f (drawBackground width height (Props.backgroundImage props)
                  (Props.backgroundConfig props)
                  (bgPulseAmountOf (mids averages) (Props.backgroundConfig props)))
    ++ (if enabled (Props.particleConfig props)
        then flat_map f (drawParticles particles (Props.particleConfig props))
        else [])
    ++ f (Scale (logoBounceAmountOf (bass averages) (Props.logoConfig props))
                (logoBounceAmountOf (bass averages) (Props.logoConfig props)))
    ++ flat_map f (drawLogo (Props.logoImage props)
                     (logoRectOf width height (Props.logoConfig props)) (bass averages)).
Proof.
  intros HC Hclear averages. unfold drawFrame. cbv zeta. fold averages.
  rewrite !flat_map_app. cbn [flat_map]. rewrite !HC, Hclear. cbn [app].
  rewrite (flat_map_Ctx f (drawText _ _ _ _) HC), !app_nil_r.
  f_equal. f_equal.
  { destruct (enabled (Props.particleConfig props)); reflexivity. }
  f_equal.
  destruct (Props.audioData props) as [data |]; [| reflexivity].
  rewrite (flat_map_Ctx f _ HC). reflexivity.
Qed.

(** X19. The particle layer of a frame.  With the particles enabled
    a frame paints one disc per particle, at the particle's position and
    in the order of the array; with the particles disabled it paints no
    disc at all, whatever the array holds. *)
Theorem drawFrame_discs :
  forall (width height : nat) (supportsLetterSpacing : bool) (props : Props.t)
         (particles : list ParticleObj),
    discs (drawFrame width height supportsLetterSpacing props particles)
    = if enabled (Props.particleConfig props)
      then map centre particles
      else [].
Proof.
  intros width height sls props particles. unfold discs.
  rewrite flat_map_drawFrame by reflexivity. fold discs.
  assert (Bg : forall i c p, discs (drawBackground width height i c p) = [])
    by (intros [i |] c p; reflexivity).
  assert (Lg : forall i r b, discs (drawLogo i r b) = [])
    by (intros [i |] r b; reflexivity).
  rewrite Bg, Lg. cbn [app]. rewrite app_nil_r.
  destruct (enabled (Props.particleConfig props)); [apply discs_drawParticles | reflexivity].
Qed.






Lemma inject_nat_pos (n : nat) : (0 < n)%nat -> (0 < inject_Z (Z.of_nat n))%Q.
Proof.
  intros H. change 0%Q with (inject_Z 0). rewrite <- Zlt_Qlt. lia.
Qed.

(** X21. The crop of the background image.  For an image and a
    canvas with positive sides the part of the image that is drawn lies
    within the image, has the proportions of the canvas, is centred on
    both axes, and spans the whole image on one of them: the image covers
    the canvas without being distorted. *)
Theorem coverCrop_covers :
  forall (image : Image) (width height : nat),
    (0 < naturalWidth image)%nat -> (0 < naturalHeight image)%nat ->
    (0 < width)%nat -> (0 < height)%nat ->
    let nw := inject_Z (Z.of_nat (naturalWidth image)) in
    let nh := inject_Z (Z.of_nat (naturalHeight image)) in
    exists cx cy cw ch : Q,
      coverCrop image width height = mkCrop (Fin cx) (Fin cy) (Fin cw) (Fin ch)
      /\ (0 <= cx /\ 0 <= cy /\ 0 < cw /\ 0 < ch)%Q
      /\ (cx + cw <= nw /\ cy + ch <= nh)%Q
      /\ (cw * inject_Z (Z.of_nat height) == ch * inject_Z (Z.of_nat width))%Q
      /\ (2 * cx + cw == nw /\ 2 * cy + ch == nh)%Q
      /\ (cw == nw \/ ch == nh)%Q.
Proof.
  intros image width height Hnw Hnh Hw Hh nw nh.
  apply inject_nat_pos in Hnw, Hnh, Hw, Hh. fold nw in Hnw. fold nh in Hnh.
  unfold coverCrop, ofZ. fold nw nh.
  set (W := inject_Z (Z.of_nat width)) in *. set (H := inject_Z (Z.of_nat height)) in *.
  rewrite !numDiv_pos by assumption. cbv zeta.
  assert (Cr : (0 < W / H)%Q) by (apply Qlt_shift_div_l; [exact Hh | lra]).
  assert (CrH : (W / H * H == W)%Q) by (field; lra).
  assert (IrN : (nw / nh * nh == nw)%Q) by (field; lra).
  set (cr := (W / H)%Q) in *. set (ir := (nw / nh)%Q) in *.
  unfold numGt. cbn [numLt]. destruct (Qltb cr ir) eqn:Cmp.
  - apply Qltb_true in Cmp.
    cbn [numMul numSub numAdd numNeg]. rewrite numDiv_pos by reflexivity.
    exists ((nw + - (nh * cr)) / inject_Z 2)%Q, (inject_Z 0), (nh * cr)%Q, nh.
    change (inject_Z 2) with 2%Q. change (inject_Z 0) with 0%Q.
    split; [reflexivity |].
    assert (Lt : (nh * cr < nw)%Q) by nra.
    assert (P : (0 < nh * cr)%Q) by nra.
    set (cw := (nh * cr)%Q) in *.
    assert (Hx : ((nw + - cw) / 2 == (nw - cw) * (1#2))%Q) by (field).
    rewrite Hx.
    split; [repeat split; lra |]. split; [split; lra |].
    split; [subst cw; rewrite <- CrH; ring |].
    split; [split; ring |]. right. reflexivity.
  - apply Qltb_false in Cmp.
    cbn [numMul numSub numAdd numNeg]. rewrite (numDiv_pos nw cr Cr).
    cbn [numNeg numAdd]. rewrite numDiv_pos by reflexivity.
    exists (inject_Z 0), ((nh + - (nw / cr)) / inject_Z 2)%Q, nw, (nw / cr)%Q.
    change (inject_Z 2) with 2%Q. change (inject_Z 0) with 0%Q.
    split; [reflexivity |].
    assert (E : (nw / cr * cr == nw)%Q) by (field; lra).
    set (ch := (nw / cr)%Q) in *.
    assert (P : (0 < ch)%Q) by nra.
    assert (Le : (ch <= nh)%Q) by nra.
    assert (Hy : ((nh + - ch) / 2 == (nh - ch) * (1#2))%Q) by (field).
    rewrite Hy.
    split; [repeat split; lra |]. split; [split; lra |].
    split; [rewrite <- CrH; rewrite <- E at 1; ring |].
    split; [split; ring |]. left. reflexivity.
Qed.

Lemma coverCrop_covers_witness :
  exists cx cy cw ch : Q,
    coverCrop (mkImage 1920 1080) 720 1280 = mkCrop (Fin cx) (Fin cy) (Fin cw) (Fin ch)
    /\ (cw * inject_Z 1280 == ch * inject_Z 720)%Q.
Proof.
  destruct (coverCrop_covers (mkImage 1920 1080) 720 1280)
    as (cx & cy & cw & ch & E & _ & _ & R & _); cbn [naturalWidth naturalHeight]; try lia.
  exists cx, cy, cw, ch. split; [exact E | exact R].
Defined.

Lemma updateParticles_idents (config : ParticleConfig) (width height : nat)
    (bassIntensity : num) (particles : list ParticleObj) (w : World) :
  map ident (fst (updateParticles particles config width height bassIntensity w))
  = map ident particles.
Proof.
  destruct (updateParticles_ticked config width height bassIntensity particles w)
    as (L & N & _).
  apply nth_error_ext. intros j. rewrite !nth_error_map.
  destruct (nth_error particles j) as [o |] eqn:E.
  - rewrite (N j o E). reflexivity.
  - apply nth_error_None in E. rewrite <- L in E. apply nth_error_None in E.
    rewrite E. reflexivity.
Qed.

(** X22. One tick of the live preview.  The frame of a tick shows
    the particles where the move of the same tick has put them; the move
    keeps the objects of the array and their order, and draws one random
    number for each particle that the move, computed in doubles, carries
    across its edge.  The bass intensity of the tick is a double between
    0 and 1.  With the particles disabled the tick moves nothing, draws
    no random number and paints no disc. *)
Theorem render_tick :
  forall (width height : nat) (supportsLetterSpacing : bool) (props : Props.t)
         (particles : list ParticleObj) (w : World),
    byteSpectrum (Props.audioData props) ->
    let r := render width height supportsLetterSpacing props particles w in
    let moved := fst (fst r) in
    let frame := snd (fst r) in
    let bassIntensity := bassIntensityOf (Props.audioData props) in
    frame = drawFrame width height supportsLetterSpacing props moved
    /\ map ident moved = map ident particles
    /\ discs frame = (if enabled (Props.particleConfig props)
                      then map centre moved else [])
    /\ (enabled (Props.particleConfig props) = false -> moved = particles /\ snd r = w)
    /\ (enabled (Props.particleConfig props) = true ->
        (exists b : Q, bassIntensity = Fin b /\ (0 <= b <= 1)%Q)
        /\ moved = fst (updateParticles particles (Props.particleConfig props)
                          width height bassIntensity w)
        /\ snd r = mkWorld (entropy w)
                     (drawn w + length (crossing (Props.particleConfig props)
                                                 width height bassIntensity particles))
                     (nextObject w)).
Proof.
  intros width height sls props particles w Hb r moved frame bassIntensity.
  subst frame moved r. unfold render, bind, ret. fold bassIntensity.
  assert (Bg : forall i c p, discs (drawBackground width height i c p) = [])
    by (intros [i |] c p; reflexivity).
  assert (Lg : forall i r b, discs (drawLogo i r b) = [])
    by (intros [i |] r0 b0; reflexivity).
  destruct (enabled (Props.particleConfig props)) eqn:En.
  - assert (B : exists b : Q, bassIntensity = Fin b /\ (0 <= b <= 1)%Q).
    { subst bassIntensity. destruct (Props.audioData props) as [data |].
      - apply bassIntensity_unit, Hb.
      - exists 0%Q. split; [vm_compute; reflexivity |].
        split; [discriminate | discriminate]. }
    pose proof (updateParticles_idents (Props.particleConfig props) width height
                  bassIntensity particles w) as I.
    destruct (updateParticles_ticked (Props.particleConfig props) width height
                bassIntensity particles w) as (_ & _ & Wd).
    destruct (updateParticles particles (Props.particleConfig props) width height
                bassIntensity w) as [moved w'].
    cbn [fst snd] in *. split; [reflexivity |]. split; [exact I |].
    split; [| split; [discriminate |]].
    + unfold discs. rewrite flat_map_drawFrame by reflexivity. fold discs.
      rewrite En, discs_drawParticles, Bg, Lg. cbn [app]. apply app_nil_r.
    + intros _. split; [exact B |]. split; [reflexivity | exact Wd].
  - cbn [fst snd]. split; [reflexivity |]. split; [reflexivity |].
    split; [| split; [intros _; split; reflexivity | discriminate]].
    unfold discs. rewrite flat_map_drawFrame by reflexivity. fold discs.
    rewrite En, Bg, Lg. reflexivity.
Qed.

(** A tick of the initial state of [App] over a spectrum of ten bytes and
    two particles, on a canvas of 1280 by 720: the first particle moves
    on from 100 and stays in the array as it is, the second moves from
    724.9 past the margin and is put back at -5, in the middle of
    the width; the frame shows both where the tick has put them, and one
    random number is drawn. *)
Lemma render_tick_witness :
  let spectrum := [0; 200; 13; 255; 7; 0; 90; 31; 4; 250] in
  let particles := [mkObj 0 (mkParticle (ofZ 3) (ofZ 100) (ofZ 0) (ofZ 1));
                    mkObj 1 (mkParticle (ofZ 100) (Fin (7249#10)) (ofZ 0) (Fin (3#2)))] in
  let r := render 1280 720 true (appProps (Some spectrum) None None) particles
                  (mkWorld halves 6 2) in
  byteSpectrum (Some spectrum)
  /\ map ident (fst (fst r)) = [0%nat; 1%nat]
  /\ nth_error (discs (snd (fst r))) 1 = Some (Fin ((1#2) * 1280), ofZ (-5))
  /\ snd r = mkWorld halves 7 2.
Proof.
  intros spectrum particles r.
  assert (Hs : byteSpectrum (Some spectrum))
    by (repeat constructor; unfold isByte; lia).
  split; [exact Hs |].
  destruct (render_tick 1280 720 true (appProps (Some spectrum) None None) particles
              (mkWorld halves 6 2) Hs) as (_ & I & D & _ & E).
  fold r in I, D, E. destruct (E eq_refl) as (_ & M & W).
  split; [exact I |].
  split; [rewrite D, M; vm_compute; reflexivity |].
  rewrite W. vm_compute. reflexivity.
Defined.
